(** * Nelder-Mead optimization engine (aiida_optimize/engines/_nelder_mead.py)

    A shallow embedding of the [NelderMead] engine and of the phase
    functions it dispatches to, together with the properties of its state
    machine.  Python floats and the entries of numpy float64 arrays are
    binary64 numbers: they are modelled by Rocq's primitive floats, whose
    operations are the IEEE 754 ones.  A numpy 1-D array is a [list float],
    the 2-D simplex array is the list of its rows; both arrays of the engine
    hold floats.  A method that raises returns [None]: what it assigned
    before the exception is not kept. *)

From Stdlib Require Import String.
From Stdlib Require Import ZArith List Bool Lia Permutation Sorted.
From Stdlib Require Import Floats.
From Stdlib Require Uint63.
Import ListNotations.

Local Open Scope float_scope.

(** * The embedding *)

(** ** Python and numpy building blocks *)

(** A raised exception is [None]; [x <- e ;; k] is sequencing. *)
Notation "x <- e ;; k" := (match e with Some x => k | None => None end)
  (at level 61, e at next level, right associativity, only parsing).
Notation "' p <- e ;; k" := (match e with Some p => k | None => None end)
  (at level 61, p pattern, e at next level, right associativity, only parsing).

(** A Python [dict] is the list of its items in iteration order; keys are
    unique. *)
Definition dict (K V : Type) : Type := list (K * V).

Fixpoint dict_get {V : Type} (d : dict string V) (k : string) : option V :=
  match d with
  | [] => None
  | (k', v) :: d' => if String.eqb k k' then Some v else dict_get d' k
  end.

Fixpoint idx_get {V : Type} (d : dict Z V) (k : Z) : option V :=
  match d with
  | [] => None
  | (k', v) :: d' => if Z.eqb k k' then Some v else idx_get d' k
  end.

Fixpoint mapM {A B : Type} (f : A -> option B) (l : list A) : option (list B) :=
  match l with
  | [] => Some []
  | a :: l' => b <- f a ;; bs <- mapM f l' ;; Some (b :: bs)
  end.

Module Np.

Definition vec : Type := list float.
(** A 2-D array, row by row; the rows of a numpy array have one length. *)
Definition matrix : Type := list vec.

Definition of_count (n : nat) : float := of_uint63 (Uint63.of_Z (Z.of_nat n)).

Fixpoint map2 (f : float -> float -> float) (a b : vec) : vec :=
  match a, b with
  | x :: a', y :: b' => f x y :: map2 f a' b'
  | _, _ => []
  end.

Definition vadd : vec -> vec -> vec := map2 add.
Definition vsub : vec -> vec -> vec := map2 sub.
Definition scale (c : float) (a : vec) : vec := map (mul c) a.

(** [a[:-1]], [a[-1]], [a[-2]] and [a[1:]]. *)
Definition but_last {A : Type} (l : list A) : list A := removelast l.
Definition last_opt {A : Type} (l : list A) : option A := nth_error (rev l) 0.
Definition last2_opt {A : Type} (l : list A) : option A := nth_error (rev l) 1.

(** [a[-1] = x] on a 1-D array: the last entry is overwritten. *)
Definition set_last {A : Type} (l : list A) (x : A) : option (list A) :=
  match l with
  | [] => None
  | _ => Some (removelast l ++ [x])
  end.

(** Assigning a 1-D array to a slot of [n] entries: the shapes agree, or a
    single entry is broadcast; anything else raises. *)
Definition broadcast_to (n : nat) (x : vec) : option vec :=
  if Nat.eqb (length x) n then Some x
  else match x with
       | [c] => Some (repeat c n)
       | _ => None
       end.

(** [m[-1] = x] on a 2-D array. *)
Definition set_last_row (m : matrix) (x : vec) : option matrix :=
  r <- last_opt m ;;
  x' <- broadcast_to (length r) x ;;
  set_last m x'.

(** [np.take(a, idx, axis=0)]; an index out of range raises. *)
Definition take {A : Type} (a : list A) (idx : list nat) : option (list A) :=
  mapM (nth_error a) idx.

(** [np.maximum]: [(a >= b || isnan(a)) ? a : b], and its reduction
    [np.max], which raises on an empty array. *)
Definition maximum (a b : float) : float :=
  if (b <=? a) || is_nan a then a else b.

Definition max (a : vec) : option float :=
  match a with
  | [] => None
  | x :: a' => Some (fold_left maximum a' x)
  end.

(** The entries added one after the other, as a reduction along the first
    axis adds the rows of a 2-D array. *)
Definition sum (a : vec) : float := fold_left add a 0.

(** [np.average(m, axis=0)] of the rows of [m], which have [ncols] entries:
    the rows are added up one after the other and the sum is divided by
    their number. *)
Definition average_rows (ncols : nat) (m : matrix) : vec :=
  map (fun t => t / of_count (length m)) (fold_left vadd m (repeat 0 ncols)).

(** The sum that [np.add.reduce] takes along the last axis of a contiguous
    array of floats: numpy's pairwise summation (loops_utils.h).  Fewer
    than eight entries are added from left to right.  Up to [PW_BLOCKSIZE]
    entries go to eight accumulators, entry [i] to accumulator [i mod 8], as
    long as there are eight entries left; the accumulators are then added
    two by two, and the entries that are left are added one by one.  A
    longer array is cut in two near its middle, at a multiple of eight, and
    the sums of the two parts are added.  [fuel] bounds the depth of the
    cuts; the length of the array is enough ([pairwise_sum_fuel]). *)
Definition PW_BLOCKSIZE : nat := 128.

Fixpoint accumulate (groups : nat) (r a : vec) : vec * vec :=
  match groups with
  | O => (r, a)
  | S g => accumulate g (map2 add r (firstn 8 a)) (skipn 8 a)
  end.

Definition block_sum (a : vec) : float :=
  let '(r, rest) :=
    accumulate (Nat.div (length a) 8 - 1) (firstn 8 a) (skipn 8 a) in
  fold_left add rest
    (((nth 0 r 0 + nth 1 r 0) + (nth 2 r 0 + nth 3 r 0))
     + ((nth 4 r 0 + nth 5 r 0) + (nth 6 r 0 + nth 7 r 0))).

Fixpoint pairwise_sum (fuel : nat) (a : vec) : float :=
  if Nat.ltb (length a) 8 then fold_left add a 0
  else if Nat.leb (length a) PW_BLOCKSIZE then block_sum a
  else
    match fuel with
    | O => block_sum a
    | S fuel' =>
        let n2 := (Nat.div (length a) 2 - Nat.modulo (Nat.div (length a) 2) 8)%nat in
        pairwise_sum fuel' (firstn n2 a) + pairwise_sum fuel' (skipn n2 a)
    end.

(** The reduction starts from the identity of the addition and adds the
    pairwise sum of the row to it.  (Recent versions of numpy start from
    [-0.0]; on the squares of a row, none of which is [-0.0], the sum is
    the same.) *)
Definition add_reduce (a : vec) : float := 0 + pairwise_sum (length a) a.

(** [scipy.linalg.norm(m, axis=-1)]: the argument goes through
    [asarray_chkfinite], which raises on an infinity or a NaN; with an
    axis, the norm is left to [np.linalg.norm], which takes the square root
    of [add.reduce] of the squares of the entries of each row. *)
Definition norm2 (r : vec) : float := sqrt (add_reduce (map (fun t => t * t) r)).

Definition all_finite (m : matrix) : bool := forallb (forallb is_finite) m.

Definition norm_rows (m : matrix) : option vec :=
  if all_finite m then Some (map norm2 m) else None.

(** numpy's sorting order on floats, [a < b || (b != b && a == a)]: the
    NaNs come last. *)
Definition lt (a b : float) : bool := (a <? b) || (is_nan b && negb (is_nan a)).

End Np.

(** ** The engine state *)

(** The names of the phase methods, as held by the two control-flow
    pointers. *)
Inductive phase : Type :=
  | Submit_initialize | Update_initialize
  | New_iter | Finalize | Choose_step
  | Submit_expansion | Update_expansion
  | Submit_contraction | Update_contraction
  | Submit_inside_contraction | Update_inside_contraction
  | Submit_shrink | Update_shrink.

(** The integer constants [RHO] and [CHI] only occur in products with float
    arrays, where numpy converts them exactly. *)
Definition RHO : float := 1.
Definition CHI : float := 2.
Definition PSI : float := 0.5.
Definition SIGMA : float := 0.5.

(** [{'x': l}], the bundle handed to the evaluator, and the outputs of one
    evaluation, whose cost is read under [result_key]. *)
Definition input : Type := dict string Np.vec.
Definition result : Type := dict string float.
Definition outputs : Type := dict Z result.

(** Modelled from the spec: the result mapping of the base class (module
    [_base], not part of the sources at hand) is "an external
    collaborator-owned association from an opaque identifier to the
    corresponding submitted input and its returned cost", iterated in
    first-seen order.  An entry whose evaluation has not returned yet has no
    output. *)
Record Result : Type := {
  Result_input : input;
  Result_output : option result
}.

Definition ResultMapping : Type := dict Z Result.

Record NelderMead : Type := {
  simplex : Np.matrix;
  fun_simplex : option Np.vec;
  xtol : float;
  ftol : float;
  max_iter : Z;
  num_iter : Z;
  extra_points : dict string (Np.vec * float);
  result_key : string;
  next_submit : option phase;
  next_update : option phase;
  finished : bool;
  _result_mapping : ResultMapping
}.

Definition set_simplex (self : NelderMead) (v : Np.matrix) : NelderMead :=
  {| simplex := v; fun_simplex := fun_simplex self; xtol := xtol self;
     ftol := ftol self; max_iter := max_iter self; num_iter := num_iter self;
     extra_points := extra_points self; result_key := result_key self;
     next_submit := next_submit self; next_update := next_update self;
     finished := finished self; _result_mapping := _result_mapping self |}.

Definition set_fun_simplex (self : NelderMead) (v : option Np.vec) : NelderMead :=
  {| simplex := simplex self; fun_simplex := v; xtol := xtol self;
     ftol := ftol self; max_iter := max_iter self; num_iter := num_iter self;
     extra_points := extra_points self; result_key := result_key self;
     next_submit := next_submit self; next_update := next_update self;
     finished := finished self; _result_mapping := _result_mapping self |}.

Definition set_max_iter (self : NelderMead) (v : Z) : NelderMead :=
  {| simplex := simplex self; fun_simplex := fun_simplex self; xtol := xtol self;
     ftol := ftol self; max_iter := v; num_iter := num_iter self;
     extra_points := extra_points self; result_key := result_key self;
     next_submit := next_submit self; next_update := next_update self;
     finished := finished self; _result_mapping := _result_mapping self |}.

Definition set_num_iter (self : NelderMead) (v : Z) : NelderMead :=
  {| simplex := simplex self; fun_simplex := fun_simplex self; xtol := xtol self;
     ftol := ftol self; max_iter := max_iter self; num_iter := v;
     extra_points := extra_points self; result_key := result_key self;
     next_submit := next_submit self; next_update := next_update self;
     finished := finished self; _result_mapping := _result_mapping self |}.

Definition set_extra_points (self : NelderMead)
    (v : dict string (Np.vec * float)) : NelderMead :=
  {| simplex := simplex self; fun_simplex := fun_simplex self; xtol := xtol self;
     ftol := ftol self; max_iter := max_iter self; num_iter := num_iter self;
     extra_points := v; result_key := result_key self;
     next_submit := next_submit self; next_update := next_update self;
     finished := finished self; _result_mapping := _result_mapping self |}.

Definition set_next_submit (self : NelderMead) (v : option phase) : NelderMead :=
  {| simplex := simplex self; fun_simplex := fun_simplex self; xtol := xtol self;
     ftol := ftol self; max_iter := max_iter self; num_iter := num_iter self;
     extra_points := extra_points self; result_key := result_key self;
     next_submit := v; next_update := next_update self;
     finished := finished self; _result_mapping := _result_mapping self |}.

Definition set_next_update (self : NelderMead) (v : option phase) : NelderMead :=
  {| simplex := simplex self; fun_simplex := fun_simplex self; xtol := xtol self;
     ftol := ftol self; max_iter := max_iter self; num_iter := num_iter self;
     extra_points := extra_points self; result_key := result_key self;
     next_submit := next_submit self; next_update := v;
     finished := finished self; _result_mapping := _result_mapping self |}.

Definition set_finished (self : NelderMead) (v : bool) : NelderMead :=
  {| simplex := simplex self; fun_simplex := fun_simplex self; xtol := xtol self;
     ftol := ftol self; max_iter := max_iter self; num_iter := num_iter self;
     extra_points := extra_points self; result_key := result_key self;
     next_submit := next_submit self; next_update := next_update self;
     finished := v; _result_mapping := _result_mapping self |}.

Definition set_result_mapping (self : NelderMead) (v : ResultMapping) : NelderMead :=
  {| simplex := simplex self; fun_simplex := fun_simplex self; xtol := xtol self;
     ftol := ftol self; max_iter := max_iter self; num_iter := num_iter self;
     extra_points := extra_points self; result_key := result_key self;
     next_submit := next_submit self; next_update := next_update self;
     finished := finished self; _result_mapping := v |}.

(** ** The constructor and the serialised state *)

(** The keyword arguments of [__init__]; an argument that is left out is
    [None] and takes its default.  [next_submit] can be passed as [None]
    explicitly, which differs from leaving it out. *)
Record kwargs : Type := {
  kw_simplex : Np.matrix;
  kw_fun_simplex : option Np.vec;
  kw_xtol : option float;
  kw_ftol : option float;
  kw_num_iter : option Z;
  kw_max_iter : option Z;
  kw_extra_points : option (dict string (Np.vec * float));
  kw_result_key : option string;
  kw_next_submit : option (option phase);
  kw_next_update : option phase;
  kw_finished : option bool
}.

Definition default {A : Type} (d : A) (o : option A) : A :=
  match o with Some a => a | None => d end.

(** [len(self.simplex) == self.simplex.shape[1] + 1] on the 2-D array made
    of the rows: there is a first row, every row has its length, and there
    is one row more than columns. *)
Definition simplex_shape_ok (m : Np.matrix) : bool :=
  match m with
  | [] => false
  | r :: _ =>
      forallb (fun r' => Nat.eqb (length r') (length r)) m
      && Nat.eqb (length m) (length r + 1)
  end.

Definition __init__ (kw : kwargs) (result_state : option ResultMapping)
    : option NelderMead :=
  if simplex_shape_ok (kw_simplex kw) then
    Some {| simplex := kw_simplex kw;
            fun_simplex := kw_fun_simplex kw;
            xtol := default 0x1.a36e2eb1c432dp-14 (kw_xtol kw);
            ftol := default 0x1.a36e2eb1c432dp-14 (kw_ftol kw);
            max_iter := default 1000%Z (kw_max_iter kw);
            num_iter := default 0%Z (kw_num_iter kw);
            extra_points := default [] (kw_extra_points kw);
            result_key := default "cost_value"%string (kw_result_key kw);
            next_submit := default (Some Submit_initialize) (kw_next_submit kw);
            next_update := kw_next_update kw;
            finished := default false (kw_finished kw);
            _result_mapping := default [] result_state |}
  else None.

(** [_state]: every attribute but [_result_mapping]. *)
Definition _state (self : NelderMead) : kwargs :=
  {| kw_simplex := simplex self;
     kw_fun_simplex := fun_simplex self;
     kw_xtol := Some (xtol self);
     kw_ftol := Some (ftol self);
     kw_num_iter := Some (num_iter self);
     kw_max_iter := Some (max_iter self);
     kw_extra_points := Some (extra_points self);
     kw_result_key := Some (result_key self);
     kw_next_submit := Some (next_submit self);
     kw_next_update := next_update self;
     kw_finished := Some (finished self) |}.

Definition is_finished (self : NelderMead) : bool := finished self.

(** ** Reading the evaluator's results *)

(** [sorted(outputs.items())]: the items by ascending identifier. *)
Fixpoint insert_item {V : Type} (kv : Z * V) (l : list (Z * V)) : list (Z * V) :=
  match l with
  | [] => [kv]
  | kv' :: l' =>
      if (fst kv <=? fst kv')%Z then kv :: l else kv' :: insert_item kv l'
  end.

Definition sorted_items {V : Type} (d : dict Z V) : list (Z * V) :=
  fold_right insert_item [] d.

Definition _get_values (self : NelderMead) (outs : outputs) : option Np.vec :=
  mapM (fun kv => dict_get (snd kv) (result_key self)) (sorted_items outs).

Definition _get_single_result (self : NelderMead) (outs : outputs)
    : option (Np.vec * float) :=
  match outs with
  | [(idx, res)] =>
      r <- idx_get (_result_mapping self) idx ;;
      x <- dict_get (Result_input r) "x" ;;
      f <- dict_get res (result_key self) ;;
      Some (x, f)
  | _ => None
  end.

Definition _to_input_list (x : Np.vec) : input := [("x"%string, x)].

(** ** The phase methods *)

(** The two decorators set the pointers before the body of the method runs. *)
Definition update_method (next_submit' : option phase)
    (func : NelderMead -> outputs -> option NelderMead)
    (self : NelderMead) (outs : outputs) : option NelderMead :=
  func (set_next_update (set_next_submit self next_submit') None) outs.

Definition submit_method {R : Type} (next_update' : option phase)
    (func : NelderMead -> option (NelderMead * R))
    (self : NelderMead) : option (NelderMead * R) :=
  func (set_next_update (set_next_submit self None) next_update').

Definition xbar (self : NelderMead) : Np.vec :=
  Np.average_rows (length (hd [] (simplex self))) (Np.but_last (simplex self)).

Definition check_finished (self : NelderMead) : option NelderMead :=
  best <- hd_error (simplex self) ;;
  norms <- Np.norm_rows (map (fun r => Np.vsub r best) (tl (simplex self))) ;;
  size <- Np.max norms ;;
  if size <? xtol self then
    f <- fun_simplex self ;;
    f0 <- hd_error f ;;
    spread <- Np.max (map (fun t => abs (t - f0)) (tl f)) ;;
    Some (set_finished self (spread <? ftol self))
  else Some (set_finished self false).

Definition _update_last (self : NelderMead) (x : Np.vec) (f : float)
    : option NelderMead :=
  m <- Np.set_last_row (simplex self) x ;;
  fs <- fun_simplex self ;;
  fs' <- Np.set_last fs f ;;
  Some (set_fun_simplex (set_simplex self m) (Some fs')).

Definition submit_initialize : NelderMead -> option (NelderMead * list input) :=
  submit_method (Some Update_initialize)
    (fun self => Some (self, map _to_input_list (simplex self))).

Definition update_initialize : NelderMead -> outputs -> option NelderMead :=
  update_method (Some New_iter)
    (fun self outs =>
       values <- _get_values self outs ;;
       Some (set_fun_simplex self (Some values))).

Definition finalize : NelderMead -> outputs -> option NelderMead :=
  update_method None (fun self _ => Some self).

Definition choose_step : NelderMead -> outputs -> option NelderMead :=
  update_method None
    (fun self outs =>
       '(xr, fxr) <- _get_single_result self outs ;;
       let self := set_extra_points self [("xr"%string, (xr, fxr))] in
       f <- fun_simplex self ;;
       f_best <- hd_error f ;;
       if fxr <? f_best then
         Some (set_next_submit self (Some Submit_expansion))
       else
         f_second_worst <- Np.last2_opt f ;;
         if fxr <? f_second_worst then
           self <- _update_last self xr fxr ;;
           Some (set_next_submit self (Some New_iter))
         else
           f_worst <- Np.last_opt f ;;
           if fxr <? f_worst then
             Some (set_next_submit self (Some Submit_contraction))
           else
             Some (set_next_submit self (Some Submit_inside_contraction))).

Definition submit_expansion : NelderMead -> option (NelderMead * list input) :=
  submit_method (Some Update_expansion)
    (fun self =>
       worst <- Np.last_opt (simplex self) ;;
       let xe := Np.vsub (Np.scale (1 + RHO * CHI) (xbar self))
                         (Np.scale (RHO * CHI) worst) in
       Some (self, [_to_input_list xe])).

Definition update_expansion : NelderMead -> outputs -> option NelderMead :=
  update_method (Some New_iter)
    (fun self outs =>
       '(xe, fxe) <- _get_single_result self outs ;;
       '(xr, fxr) <- dict_get (extra_points self) "xr" ;;
       if fxe <? fxr then _update_last self xe fxe
       else _update_last self xr fxr).

Definition submit_contraction : NelderMead -> option (NelderMead * list input) :=
  submit_method (Some Update_contraction)
    (fun self =>
       worst <- Np.last_opt (simplex self) ;;
       let xc := Np.vsub (Np.scale (1 + PSI * RHO) (xbar self))
                         (Np.scale (PSI * RHO) worst) in
       Some (self, [_to_input_list xc])).

Definition update_contraction : NelderMead -> outputs -> option NelderMead :=
  update_method None
    (fun self outs =>
       '(xc, fxc) <- _get_single_result self outs ;;
       '(_, fxr) <- dict_get (extra_points self) "xr" ;;
       if fxc <? fxr then
         self <- _update_last self xc fxc ;;
         Some (set_next_submit self (Some New_iter))
       else Some (set_next_submit self (Some Submit_shrink))).

Definition submit_inside_contraction
    : NelderMead -> option (NelderMead * list input) :=
  submit_method (Some Update_inside_contraction)
    (fun self =>
       worst <- Np.last_opt (simplex self) ;;
       let xcc := Np.vadd (Np.scale (1 - PSI) (xbar self)) (Np.scale PSI worst) in
       Some (self, [_to_input_list xcc])).

Definition update_inside_contraction : NelderMead -> outputs -> option NelderMead :=
  update_method None
    (fun self outs =>
       '(xcc, fxcc) <- _get_single_result self outs ;;
       f <- fun_simplex self ;;
       f_worst <- Np.last_opt f ;;
       if fxcc <? f_worst then
         self <- _update_last self xcc fxcc ;;
         Some (set_next_submit self (Some New_iter))
       else Some (set_next_submit self (Some Submit_shrink))).

(** [a[1:] = v] on a 1-D array, with numpy's broadcasting of a single
    value. *)
Definition set_tail (a v : Np.vec) : option Np.vec :=
  v' <- Np.broadcast_to (length (tl a)) v ;;
  Some (firstn 1 a ++ v').

Definition submit_shrink : NelderMead -> option (NelderMead * list input) :=
  submit_method (Some Update_shrink)
    (fun self =>
       best <- hd_error (simplex self) ;;
       let shrunk :=
         map (fun r => Np.vadd best (Np.scale SIGMA (Np.vsub r best)))
             (tl (simplex self)) in
       let self := set_simplex self (best :: shrunk) in
       f <- fun_simplex self ;;
       let self :=
         set_fun_simplex self (Some (firstn 1 f ++ map (fun _ => nan) (tl f))) in
       Some (self, map _to_input_list (tl (simplex self)))).

Definition update_shrink : NelderMead -> outputs -> option NelderMead :=
  update_method (Some New_iter)
    (fun self outs =>
       values <- _get_values self outs ;;
       f <- fun_simplex self ;;
       f' <- set_tail f values ;;
       Some (set_fun_simplex self (Some f'))).

Section Sorting.

(** [np.argsort] belongs to numpy; the engine is parametric in it. *)
Variable argsort : Np.vec -> list nat.

Definition do_sort (self : NelderMead) : option NelderMead :=
  f <- fun_simplex self ;;
  let idx := argsort f in
  f' <- Np.take f idx ;;
  let self := set_fun_simplex self (Some f') in
  m <- Np.take (simplex self) idx ;;
  Some (set_simplex self m).

Definition new_iter : NelderMead -> option (NelderMead * list input) :=
  submit_method None
    (fun self =>
       self <- do_sort self ;;
       self <- check_finished self ;;
       if finished self then Some (set_next_update self (Some Finalize), [])
       else
         let self := set_num_iter self (num_iter self + 1)%Z in
         worst <- Np.last_opt (simplex self) ;;
         let xr := Np.vsub (Np.scale (1 + RHO) (xbar self)) (Np.scale RHO worst) in
         let self := set_next_update self (Some Choose_step) in
         Some (self, [_to_input_list xr])).

(** [getattr(self, self.next_submit)()]: a pointer that is [None] or names
    a method that cannot be called this way raises. *)
Definition _create_inputs (self : NelderMead) : option (NelderMead * list input) :=
  match next_submit self with
  | Some Submit_initialize => submit_initialize self
  | Some New_iter => new_iter self
  | Some Submit_expansion => submit_expansion self
  | Some Submit_contraction => submit_contraction self
  | Some Submit_inside_contraction => submit_inside_contraction self
  | Some Submit_shrink => submit_shrink self
  | _ => None
  end.

Definition _update (self : NelderMead) (outs : outputs) : option NelderMead :=
  match next_update self with
  | Some Update_initialize => update_initialize self outs
  | Some Finalize => finalize self outs
  | Some Choose_step => choose_step self outs
  | Some Update_expansion => update_expansion self outs
  | Some Update_contraction => update_contraction self outs
  | Some Update_inside_contraction => update_inside_contraction self outs
  | Some Update_shrink => update_shrink self outs
  | _ => None
  end.

End Sorting.

(** ** The best result *)

(** [min(items, key=...)]: the first item whose key no later item
    undercuts; an empty sequence raises. *)
Definition py_min (items : list (Z * float)) : option (Z * float) :=
  match items with
  | [] => None
  | it :: rest =>
      Some (fold_left (fun best it' => if snd it' <? snd best then it' else best)
                      rest it)
  end.

Definition _get_optimal_result (self : NelderMead) : option (Z * float) :=
  cost_values <-
    mapM (fun kv : Z * Result =>
            out <- Result_output (snd kv) ;;
            c <- dict_get out (result_key self) ;;
            Some (fst kv, c))
         (_result_mapping self) ;;
  py_min cost_values.

(** The assertion of [result_value] raises when it fails. *)
Definition result_value (self : NelderMead) : option float :=
  '(_, value) <- _get_optimal_result self ;;
  f <- fun_simplex self ;;
  f0 <- hd_error f ;;
  if value =? f0 then Some value else None.

Definition result_index (self : NelderMead) : option Z :=
  '(index, _) <- _get_optimal_result self ;;
  Some index.

(** ** What [np.argsort] returns *)

(** [a] does not come after [b] in numpy's sorting order. *)
Definition np_le (a b : float) : Prop := Np.lt b a = false.

(** [idx] sorts [v]: it is a permutation of the positions of [v] along
    which the entries of [v] never go down in numpy's order.  This is what
    numpy documents of [np.argsort]; the default kind of sort is not
    stable, so the order of equal entries is left open. *)
Definition idx_le (v : Np.vec) (i j : nat) : Prop := np_le (nth i v 0) (nth j v 0).

Definition sorts (v : Np.vec) (idx : list nat) : Prop :=
  Permutation idx (seq 0 (length v)) /\ StronglySorted (idx_le v) idx.

Definition argsort_spec (argsort : Np.vec -> list nat) : Prop :=
  forall v, sorts v (argsort v).

(** *** Insertion sort, numpy's sort of a short array *)

Fixpoint insert_index (v : Np.vec) (i : nat) (sorted : list nat) : list nat :=
  match sorted with
  | [] => [i]
  | j :: rest =>
      if Np.lt (nth i v 0) (nth j v 0) then i :: sorted
      else j :: insert_index v i rest
  end.

Definition argsort_insertion (v : Np.vec) : list nat :=
  fold_left (fun acc i => insert_index v i acc) (seq 0 (length v)) [].

(** *** numpy's quicksort *)

(** [aquicksort] of numpy (npysort/quicksort.c.src), the default kind of
    [np.argsort]: ranges of 17 entries or more are partitioned around the
    median of their first, middle and last entry, shorter ranges are sorted
    by insertion.  The switch to heapsort when the recursion gets deep is
    left out; [argsort_quick] keeps the outcome only when it sorts. *)
Module Quicksort.

Local Close Scope float_scope.

Section WithValues.

Variable v : Np.vec.

Definition val (t : list nat) (p : nat) : float := nth (nth p t 0) v 0%float.

Definition upd (t : list nat) (p x : nat) : list nat :=
  firstn p t ++ x :: skipn (S p) t.

Definition swap (t : list nat) (p q : nat) : list nat :=
  upd (upd t p (nth q t 0)) q (nth p t 0).

Definition swap_if (c : bool) (t : list nat) (p q : nat) : list nat :=
  if c then swap t p q else t.

(** [do ++pi; while (LT(v[*pi], vp))] and [do --pj; while (LT(vp, v[*pj]))]. *)
Fixpoint scan_up (fuel : nat) (t : list nat) (vp : float) (p : nat) : nat :=
  match fuel with
  | O => p
  | S fuel' =>
      if Np.lt (val t (S p)) vp then scan_up fuel' t vp (S p) else S p
  end.

Fixpoint scan_down (fuel : nat) (t : list nat) (vp : float) (p : nat) : nat :=
  match fuel with
  | O => p
  | S fuel' =>
      if Np.lt vp (val t (p - 1)) then scan_down fuel' t vp (p - 1) else p - 1
  end.

Fixpoint partition (fuel : nat) (t : list nat) (vp : float) (p q : nat)
    : list nat * nat :=
  match fuel with
  | O => (t, p)
  | S fuel' =>
      let p' := scan_up (length t) t vp p in
      let q' := scan_down (length t) t vp q in
      if q' <=? p' then (t, p') else partition fuel' (swap t p' q') vp p' q'
  end.

(** The insertion of entry [p] into the sorted range that starts at [pl]. *)
Fixpoint shift (fuel : nat) (t : list nat) (vp : float) (pl p : nat)
    : list nat * nat :=
  match fuel with
  | O => (t, p)
  | S fuel' =>
      if (pl <? p) && Np.lt vp (val t (p - 1))
      then shift fuel' (upd t p (nth (p - 1) t 0)) vp pl (p - 1)
      else (t, p)
  end.

Definition insert_at (pl : nat) (t : list nat) (p : nat) : list nat :=
  let vi := nth p t 0 in
  let '(t', q) := shift p t (nth vi v 0%float) pl p in
  upd t' q vi.

Definition insertion (t : list nat) (pl pr : nat) : list nat :=
  fold_left (insert_at pl) (seq (S pl) (pr - pl)) t.

Fixpoint qsort (fuel : nat) (t : list nat) (pl pr : nat) : list nat :=
  match fuel with
  | O => t
  | S fuel' =>
      if 15 <? pr - pl then
        let pm := pl + (pr - pl) / 2 in
        let t := swap_if (Np.lt (val t pm) (val t pl)) t pm pl in
        let t := swap_if (Np.lt (val t pr) (val t pm)) t pr pm in
        let t := swap_if (Np.lt (val t pm) (val t pl)) t pm pl in
        let vp := val t pm in
        let t := swap t pm (pr - 1) in
        let '(t, p) := partition (length t) t vp pl (pr - 1) in
        let t := swap t p (pr - 1) in
        let t := qsort fuel' t pl (p - 1) in
        qsort fuel' t (p + 1) pr
      else insertion t pl pr
  end.

Definition aquicksort : list nat :=
  qsort (length v) (seq 0 (length v)) 0 (length v - 1).

End WithValues.
End Quicksort.

(** A decision procedure for [sorts]. *)
Fixpoint strongly_sortedb {A : Type} (r : A -> A -> bool) (l : list A) : bool :=
  match l with
  | [] => true
  | a :: l' => forallb (r a) l' && strongly_sortedb r l'
  end.

Definition sortsb (v : Np.vec) (idx : list nat) : bool :=
  Nat.eqb (length idx) (length v)
  && forallb (fun i => existsb (Nat.eqb i) idx) (seq 0 (length v))
  && strongly_sortedb (fun i j => negb (Np.lt (nth j v 0) (nth i v 0))) idx.

(** numpy's quicksort where it sorts, insertion sort elsewhere. *)
Definition argsort_quick (v : Np.vec) : list nat :=
  let idx := Quicksort.aquicksort v in
  if sortsb v idx then idx else argsort_insertion v.

(** ** Runs of the engine *)

(** Modelled from the spec: [create_inputs] and [update] of the base class
    (module [_base], not part of the sources at hand) and the part of the
    collaborator that owns the result mapping.  "An external driver
    repeatedly asks the engine for a batch of candidate input vectors,
    submits each vector to the external evaluator, collects the resulting
    scalar costs keyed by an opaque identifier per vector, hands the full
    result batch back to the engine": the collaborator picks the identifiers
    [keys] of a batch and records each submitted input, and later each
    returned result, under its identifier. *)
Definition add_inputs (rm : ResultMapping) (keys : list Z) (ins : list input)
    : ResultMapping :=
  rm ++ map (fun ki => (fst ki, {| Result_input := snd ki; Result_output := None |}))
            (combine keys ins).

Definition add_outputs (rm : ResultMapping) (outs : outputs) : ResultMapping :=
  map (fun kr : Z * Result =>
         match idx_get outs (fst kr) with
         | Some res =>
             (fst kr, {| Result_input := Result_input (snd kr);
                         Result_output := Some res |})
         | None => kr
         end) rm.

(** The identifiers whose evaluation has not returned. *)
Definition is_pending (kr : Z * Result) : bool :=
  match Result_output (snd kr) with None => true | Some _ => false end.

Definition pending (rm : ResultMapping) : list Z := map fst (filter is_pending rm).

(** The constructor arguments of a fresh run: the simplex, the tolerances,
    the counters and the result key are free, everything else is left out. *)
Definition fresh (kw : kwargs) : Prop :=
  kw_fun_simplex kw = None /\ kw_extra_points kw = None
  /\ kw_next_submit kw = None /\ kw_next_update kw = None
  /\ kw_finished kw = None.

Section Runs.

Variable argsort : Np.vec -> list nat.

(** Modelled from the spec: [create_inputs] is the submit phase followed by
    the registration of the batch, one identifier per vector. *)
Definition create_inputs (keys : list Z) (self : NelderMead)
    : option (NelderMead * dict Z input) :=
  '(self, ins) <- _create_inputs argsort self ;;
  if Nat.eqb (length keys) (length ins) then
    Some (set_result_mapping self (add_inputs (_result_mapping self) keys ins),
          combine keys ins)
  else None.

(** Modelled from the spec: [update] records the results and runs the
    update phase. *)
Definition update (self : NelderMead) (outs : outputs) : option NelderMead :=
  _update (set_result_mapping self (add_outputs (_result_mapping self) outs)) outs.

(** The costs that the evaluator may return are those that satisfy [ok]. *)
Variable ok : float -> Prop.

Definition delivers (self : NelderMead) (outs : outputs) : Prop :=
  Permutation (map fst outs) (pending (_result_mapping self))
  /\ Forall (fun kv : Z * result =>
               exists c, dict_get (snd kv) (result_key self) = Some c /\ ok c) outs.

(** The states of the runs that start from a fresh engine, in which every
    batch gets new identifiers and every batch of results is for exactly
    the identifiers that are outstanding. *)
Inductive reachable : NelderMead -> Prop :=
  | reachable_init (kw : kwargs) (self : NelderMead) :
      fresh kw -> __init__ kw None = Some self -> reachable self
  | reachable_submit (self self' : NelderMead) (keys : list Z)
                     (ins : dict Z input) :
      reachable self ->
      NoDup keys ->
      (forall k, In k keys -> ~ In k (map fst (_result_mapping self))) ->
      create_inputs keys self = Some (self', ins) ->
      reachable self'
  | reachable_update (self self' : NelderMead) (outs : outputs) :
      reachable self ->
      delivers self outs ->
      update self outs = Some self' ->
      reachable self'.

End Runs.

(** The calls that a driver makes on an engine: [create_inputs], with the
    identifiers that the collaborator gives to the batch, and [update],
    with the results that have come back. *)
Inductive call : Type :=
  | Create_inputs (keys : list Z)
  | Update (outs : outputs).

(** The outputs of [create_inputs] along a sequence of calls, up to the
    first call that raises, which is recorded as [None].  The engine is
    stored after every call and restored before the next one, so that a
    sequence starts with an [update] when it resumes an engine that waits
    for results. *)
Fixpoint replay (argsort : Np.vec -> list nat) (self : NelderMead)
    (calls : list call) : list (option (dict Z input)) :=
  match calls with
  | [] => []
  | Create_inputs keys :: rest =>
      match create_inputs argsort keys self with
      | None => [None]
      | Some (s, ins) => Some ins :: replay argsort s rest
      end
  | Update outs :: rest =>
      match update self outs with
      | None => [None]
      | Some s => replay argsort s rest
      end
  end.

(** * Notions used in the statements and in the proofs *)

(** ** Distances and centroids *)

(** The Euclidean distance from a vertex to the best vertex, in the words
    of the specification: the square root of the sum of the squares of the
    differences of their coordinates.  It is written out on the
    coordinates, apart from the subtraction of arrays and from the norm of
    the embedding; the squares are added up as [np.add.reduce] adds the
    entries of a row. *)
Fixpoint differences (v best : Np.vec) : Np.vec :=
  match v, best with
  | x :: v', b :: best' => x - b :: differences v' best'
  | _, _ => []
  end.

Fixpoint squares (d : Np.vec) : Np.vec :=
  match d with
  | [] => []
  | x :: d' => x * x :: squares d'
  end.

Definition distance (v best : Np.vec) : float :=
  sqrt (Np.add_reduce (squares (differences v best))).

(** No coordinate of any vertex differs from the best vertex by an infinity
    or a NaN. *)
Definition differences_finite (others : Np.matrix) (best : Np.vec) : bool :=
  forallb (fun v => forallb is_finite (differences v best)) others.

(** The centroid, coordinate by coordinate: the entries of column [j] of
    the vertices are added up and divided by the number of vertices. *)
Definition column (j : nat) (m : Np.matrix) : Np.vec := map (fun r => nth j r 0) m.

Definition centroid_coord (vertices : Np.matrix) (j : nat) : float :=
  Np.sum (column j vertices) / Np.of_count (length vertices).

(** The entries of [l] taken in the order [idx]. *)
Definition reordered {A : Type} (d : A) (l : list A) (idx : list nat) : list A :=
  map (fun i => nth i l d) idx.

(** The convergence test as a function of what it reads. *)
Definition converged (m : Np.matrix) (fs : option Np.vec) (xt ft : float)
    : option bool :=
  best <- hd_error m ;;
  norms <- Np.norm_rows (map (fun r => Np.vsub r best) (tl m)) ;;
  size <- Np.max norms ;;
  if size <? xt then
    f <- fs ;;
    f0 <- hd_error f ;;
    spread <- Np.max (map (fun t => abs (t - f0)) (tl f)) ;;
    Some (spread <? ft)
  else Some false.

(** ** Shapes and orders *)

(** [n + 1] rows of [n] entries. *)
Definition shape (n : nat) (m : Np.matrix) : Prop :=
  Forall (fun r => length r = n) m /\ length m = (n + 1)%nat.

Definition shape_invariant (self : NelderMead) : Prop :=
  (exists n, shape n (simplex self))
  /\ match next_submit self, next_update self with
     | Some Submit_initialize, _ => _result_mapping self = []
     | _, Some Update_initialize =>
         length (pending (_result_mapping self)) = length (simplex self)
     | _, _ => exists f, fun_simplex self = Some f /\ length f = length (simplex self)
     end.

Definition key_le {V : Type} (a b : Z * V) : Prop := (fst a <= fst b)%Z.
Definition key_lt {V : Type} (a b : Z * V) : Prop := (fst a < fst b)%Z.

Definition sf_le (x y : spec_float) : Prop :=
  SFcompare x y = Some Lt \/ SFcompare x y = Some Eq.

(** Infinities and NaNs. *)
Definition not_finite (x : spec_float) : Prop :=
  match x with
  | S754_nan | S754_infinity _ => True
  | _ => False
  end.

(** Some entry is an infinity or a NaN. *)
Definition has_not_finite (l : Np.vec) : Prop :=
  exists x, In x l /\ not_finite (Prim2SF x).

(** ** Returned costs and the stages of an iteration *)

Definition cost_of (key : string) (r : Result) : option float :=
  out <- Result_output r ;; dict_get out key.

(** The costs that have been returned so far. *)
Definition delivered_in (key : string) (rm : ResultMapping) (c : float) : Prop :=
  exists k r, In (k, r) rm /\ cost_of key r = Some c.

Definition delivered (self : NelderMead) : float -> Prop :=
  delivered_in (result_key self) (_result_mapping self).

Definition returned_in (key : string) (outs : outputs) (c : float) : Prop :=
  exists k res, In (k, res) outs /\ dict_get res key = Some c.

Inductive stage : Type :=
  | Start | Wait_initialize | Unsorted | Sorted | Expanding | Shrunk | Done.

Definition stage_of (self : NelderMead) : option stage :=
  match next_submit self, next_update self with
  | Some Submit_initialize, None => Some Start
  | None, Some Update_initialize => Some Wait_initialize
  | Some New_iter, None => Some Unsorted
  | None, Some Choose_step
  | Some Submit_contraction, None | None, Some Update_contraction
  | Some Submit_inside_contraction, None | None, Some Update_inside_contraction
  | Some Submit_shrink, None => Some Sorted
  | Some Submit_expansion, None | None, Some Update_expansion => Some Expanding
  | None, Some Update_shrink => Some Shrunk
  | None, Some Finalize | None, None => Some Done
  | _, _ => None
  end.

(** [c0] is one of the costs [D] and none of them is below it. *)
Definition lower_bound (D : float -> Prop) (c0 : float) : Prop :=
  forall c, D c -> (c0 <=? c) = true.

(** The function values are among the costs [D] and the first one is a
    least one of them. *)
Definition sorted_inv (D : float -> Prop) (self : NelderMead) : Prop :=
  exists f f0,
    fun_simplex self = Some f /\ 2 <= length f /\ hd_error f = Some f0
    /\ Forall D f /\ lower_bound D f0.

Definition stage_inv (D : float -> Prop) (st : stage) (self : NelderMead) : Prop :=
  match st with
  | Start | Wait_initialize => (forall c, ~ D c) /\ finished self = false
  | Unsorted =>
      finished self = false
      /\ exists f,
           fun_simplex self = Some f /\ Forall D f
           /\ forall c, D c -> exists x, In x f /\ (x <=? c) = true
  | Sorted => finished self = false /\ sorted_inv D self
  | Expanding =>
      finished self = false
      /\ exists f xr fxr,
           fun_simplex self = Some f /\ 2 <= length f /\ Forall D f
           /\ dict_get (extra_points self) "xr" = Some (xr, fxr)
           /\ lower_bound D fxr
  | Shrunk =>
      finished self = false
      /\ exists f f0,
           fun_simplex self = Some f /\ 2 <= length f /\ hd_error f = Some f0
           /\ D f0 /\ lower_bound D f0
  | Done => sorted_inv D self
  end.

(** What holds of the result mapping in every state: the identifiers are
    unique, no returned cost is a NaN, and every returned result has a
    cost. *)
Definition mapping_inv (key : string) (rm : ResultMapping) : Prop :=
  NoDup (map fst rm)
  /\ (forall c, delivered_in key rm c -> is_nan c = false)
  /\ (forall k r, In (k, r) rm -> Result_output r <> None ->
        exists c, cost_of key r = Some c).

Definition min_invariant (self : NelderMead) : Prop :=
  mapping_inv (result_key self) (_result_mapping self)
  /\ (next_update self = None \/ next_update self = Some Finalize ->
      pending (_result_mapping self) = [])
  /\ (forall x c, dict_get (extra_points self) "xr" = Some (x, c) ->
        delivered self c)
  /\ exists st, stage_of self = Some st /\ stage_inv (delivered self) st self.

(** What an update phase establishes, on the state [s0] in which the batch
    has been recorded. *)
Definition update_post (s0 self' : NelderMead) : Prop :=
  _result_mapping self' = _result_mapping s0
  /\ result_key self' = result_key s0
  /\ next_update self' = None
  /\ (forall x c, dict_get (extra_points self') "xr" = Some (x, c) -> delivered s0 c)
  /\ exists st', stage_of self' = Some st' /\ stage_inv (delivered s0) st' self'.

Definition min_step (best it : Z * float) : Z * float :=
  if snd it <? snd best then it else best.

Definition entry_cost (key : string) (kr : Z * Result) : option (Z * float) :=
  out <- Result_output (snd kr) ;; c <- dict_get out key ;; Some (fst kr, c).


(** The steps of a run between two sorts: any update phase but
    update-initialize and any submit phase but new-iteration, in any order;
    the collaborator may record results in between. *)
Inductive between_sorts (argsort : Np.vec -> list nat) (s : NelderMead)
    : NelderMead -> Prop :=
  | between_refl : between_sorts argsort s s
  | between_update (s1 s2 : NelderMead) (outs : outputs) :
      between_sorts argsort s s1 ->
      next_update s1 <> Some Update_initialize ->
      _update s1 outs = Some s2 ->
      between_sorts argsort s s2
  | between_submit (s1 s2 : NelderMead) (ins : list input) :
      between_sorts argsort s s1 ->
      next_submit s1 <> Some New_iter ->
      _create_inputs argsort s1 = Some (s2, ins) ->
      between_sorts argsort s s2
  | between_record (s1 : NelderMead) (rm : ResultMapping) :
      between_sorts argsort s s1 ->
      between_sorts argsort s (set_result_mapping s1 rm).

(** ** Example states *)

Definition cost (c : float) : result := [("cost_value"%string, c)].

Definition flat_kwargs : kwargs :=
  {| kw_simplex := [[0]; [0x1p-20]];
     kw_fun_simplex := None; kw_xtol := None; kw_ftol := None;
     kw_num_iter := None; kw_max_iter := None; kw_extra_points := None;
     kw_result_key := None; kw_next_submit := None; kw_next_update := None;
     kw_finished := None |}.

Definition flat_outputs : outputs := [(0%Z, cost 1); (1%Z, cost 1)].

Definition run_step {A : Type} (d : A) (o : option A) : A :=
  match o with Some a => a | None => d end.

Definition flat0 : NelderMead :=
  Eval vm_compute in
    run_step (set_simplex
                {| simplex := []; fun_simplex := None; xtol := 0; ftol := 0;
                   max_iter := 0; num_iter := 0; extra_points := [];
                   result_key := ""%string; next_submit := None;
                   next_update := None; finished := false;
                   _result_mapping := [] |} [])
             (__init__ flat_kwargs None).

Definition flat1 : NelderMead :=
  Eval vm_compute in
    run_step flat0 (option_map fst (create_inputs argsort_insertion [0%Z; 1%Z] flat0)).

Definition flat2 : NelderMead :=
  Eval vm_compute in
    run_step flat1 (update flat1 flat_outputs).

(** The state in which [finalize] is pending, and the terminal state. *)
Definition flat3 : NelderMead :=
  Eval vm_compute in
    run_step flat2 (option_map fst (create_inputs argsort_insertion [] flat2)).

Definition flat4 : NelderMead :=
  Eval vm_compute in run_step flat3 (update flat3 []).









(** The first steps of a run on [(x - 1)^2] from the simplex
    [[0.0], [2.5]]. *)
Definition quad_kwargs : kwargs :=
  {| kw_simplex := [[0]; [2.5]];
     kw_fun_simplex := None; kw_xtol := None; kw_ftol := None;
     kw_num_iter := None; kw_max_iter := None; kw_extra_points := None;
     kw_result_key := None; kw_next_submit := None; kw_next_update := None;
     kw_finished := None |}.

Definition quad0 : NelderMead :=
  Eval vm_compute in run_step flat0 (__init__ quad_kwargs None).

Definition quad1 : NelderMead :=
  Eval vm_compute in
    run_step quad0 (option_map fst (create_inputs argsort_insertion [0%Z; 1%Z] quad0)).

(** The same batch of results in two iteration orders. *)
Definition quad_outputs : outputs := [(1%Z, cost 2.25); (0%Z, cost 1)].

Definition quad2 : NelderMead :=
  Eval vm_compute in run_step quad1 (update quad1 quad_outputs).

Definition quad2_checked : NelderMead :=
  Eval vm_compute in run_step quad2 (check_finished quad2).

(** A run in which the collaborator numbers the vertices of the first
    batch downwards. *)
Definition swapped1 : NelderMead :=
  Eval vm_compute in
    run_step quad0 (option_map fst (create_inputs argsort_insertion [1%Z; 0%Z] quad0)).

(** A triangle whose reflected point, of cost 1.5, is awaited under the
    identifier 7. *)
Definition triangle : NelderMead :=
  {| simplex := [[0; 0]; [1; 0]; [0; 1]];
     fun_simplex := Some [1; 2; 3];
     xtol := 0x1.a36e2eb1c432dp-14; ftol := 0x1.a36e2eb1c432dp-14;
     max_iter := 1000; num_iter := 1; extra_points := [];
     result_key := "cost_value"%string;
     next_submit := None; next_update := Some Choose_step; finished := false;
     _result_mapping :=
       [(7%Z, {| Result_input := _to_input_list [1; -1];
                 Result_output := Some (cost 1.5) |})] |}.

(** Eighteen vertices in seventeen dimensions, all of cost 1: vertex [i] has
    all its coordinates equal to [i]. *)
Definition ties : NelderMead :=
  {| simplex := map (fun i => repeat (Np.of_count i) 17) (seq 0 18);
     fun_simplex := Some (repeat 1 18);
     xtol := 0x1.a36e2eb1c432dp-14; ftol := 0x1.a36e2eb1c432dp-14;
     max_iter := 1000; num_iter := 0; extra_points := [];
     result_key := "cost_value"%string;
     next_submit := Some New_iter; next_update := None; finished := false;
     _result_mapping := [] |}.

(** The triangle later in its iteration: the reflected point, of cost
    [fxr], is cached, and the point [x] of cost [c] is awaited under the
    identifier 8 by the update phase [next]. *)
Definition awaiting (fxr : float) (x : Np.vec) (c : float) (next : phase)
    : NelderMead :=
  {| simplex := [[0; 0]; [1; 0]; [0; 1]];
     fun_simplex := Some [1; 2; 3];
     xtol := 0x1.a36e2eb1c432dp-14; ftol := 0x1.a36e2eb1c432dp-14;
     max_iter := 1000; num_iter := 1;
     extra_points := [("xr"%string, ([1; -1], fxr))];
     result_key := "cost_value"%string;
     next_submit := None; next_update := Some next; finished := false;
     _result_mapping :=
       [(7%Z, {| Result_input := _to_input_list [1; -1];
                 Result_output := Some (cost fxr) |});
        (8%Z, {| Result_input := _to_input_list x;
                 Result_output := Some (cost c) |})] |}.

(** The triangle after choose-step has accepted the reflected point, and
    after the sort that follows. *)
Definition triangle_reflected : NelderMead :=
  Eval vm_compute in run_step triangle (_update triangle [(7%Z, cost 1.5)]).

Definition triangle_sorted : NelderMead :=
  Eval vm_compute in
    run_step triangle_reflected (do_sort argsort_insertion triangle_reflected).

(** An expansion round on the triangle: the reflected point costs 0.5,
    below the best value, and the expansion point, awaited under the
    identifier 8, costs 0.25. *)
Definition expansion_mapping : ResultMapping :=
  [(7%Z, {| Result_input := _to_input_list [1; -1];
            Result_output := Some (cost 0.5) |});
   (8%Z, {| Result_input := _to_input_list [1.5; -2];
            Result_output := Some (cost 0.25) |})].

Definition expansion1 : NelderMead :=
  Eval vm_compute in run_step triangle (choose_step triangle [(7%Z, cost 0.5)]).

Definition expansion2 : NelderMead :=
  Eval vm_compute in
    run_step expansion1 (option_map fst (submit_expansion expansion1)).

Definition expansion3 : NelderMead :=
  Eval vm_compute in
    run_step expansion2
      (update_expansion (set_result_mapping expansion2 expansion_mapping)
         [(8%Z, cost 0.25)]).

(** The triangle after submit-shrink. *)
Definition triangle_shrunk : NelderMead :=
  Eval vm_compute in run_step triangle (option_map fst (submit_shrink triangle)).

(** A result mapping whose first entry has a NaN for its cost. *)
Definition nan_first : NelderMead :=
  set_result_mapping flat4
    [(0%Z, {| Result_input := _to_input_list [0];
              Result_output := Some (cost nan) |});
     (1%Z, {| Result_input := _to_input_list [0x1p-20];
              Result_output := Some (cost 1) |})].

(** ** Tactics *)

Ltac fold_pos_compare :=
  repeat match goal with
         | |- context [PosDef.Pos.compare_cont Eq ?a ?b] =>
             change (PosDef.Pos.compare_cont Eq a b) with (Pos.compare a b)
         | H : context [PosDef.Pos.compare_cont Eq ?a ?b] |- _ =>
             change (PosDef.Pos.compare_cont Eq a b) with (Pos.compare a b) in H
         end.

Ltac to_spec :=
  rewrite ?ltb_spec, ?leb_spec, ?eqb_spec in *;
  unfold SFltb, SFleb, SFeqb in *.

(** Projections of updated records. *)
Ltac fields_goal :=
  cbn [simplex fun_simplex xtol ftol max_iter num_iter extra_points result_key
       next_submit next_update finished _result_mapping
       set_simplex set_fun_simplex set_max_iter set_num_iter set_extra_points
       set_next_submit set_next_update set_finished set_result_mapping].

Ltac fields_in H :=
  cbn [simplex fun_simplex xtol ftol max_iter num_iter extra_points result_key
       next_submit next_update finished _result_mapping
       set_simplex set_fun_simplex set_max_iter set_num_iter set_extra_points
       set_next_submit set_next_update set_finished set_result_mapping] in H.

Ltac fields :=
  cbn [simplex fun_simplex xtol ftol max_iter num_iter extra_points result_key
       next_submit next_update finished _result_mapping
       set_simplex set_fun_simplex set_max_iter set_num_iter set_extra_points
       set_next_submit set_next_update set_finished set_result_mapping] in *.

Ltac open_option H :=
  repeat match type of H with
         | match ?e with Some _ => _ | None => None end = Some _ =>
             let E := fresh "E" in destruct e eqn:E; [|discriminate H]
         end.

Ltac inv_option H :=
  match type of H with
  | match ?e with Some _ => _ | None => None end = Some _ =>
      let E := fresh "E" in destruct e eqn:E; [|discriminate H]
  | (if ?e then _ else _) = Some _ =>
      let E := fresh "E" in destruct e eqn:E
  | Some _ = Some _ => injection H as H
  end.

(** * Properties *)

(** ** Order facts about binary64 comparisons *)

(** [x < y], [x <= y] and [x == y] on Python floats are [ltb], [leb] and
    [eqb]; every comparison with a NaN is false. *)
Module FloatOrder.

Lemma SFcompare_opp (x y : spec_float) :
  SFcompare y x = option_map CompOpp (SFcompare x y).
Proof.
  destruct x as [[]|[]| |[] m1 e1], y as [[]|[]| |[] m2 e2]; cbn; try reflexivity;
    fold_pos_compare; rewrite (Z.compare_antisym e1 e2), (Pos.compare_antisym m1 m2);
    destruct (e1 ?= e2)%Z, (m1 ?= m2)%positive; reflexivity.
Qed.

Lemma SFcompare_none (x y : spec_float) :
  SFcompare x y = None <-> x = S754_nan \/ y = S754_nan.
Proof.
  destruct x as [[]|[]| |[] m1 e1], y as [[]|[]| |[] m2 e2]; cbn;
    split; intros H; try discriminate; auto;
    destruct H; discriminate.
Qed.

Lemma sf_le_trans (x y z : spec_float) : sf_le x y -> sf_le y z -> sf_le x z.
Proof.
  unfold sf_le.
  destruct x as [[]|[]| |[] m1 e1], y as [[]|[]| |[] m2 e2], z as [[]|[]| |[] m3 e3];
    cbn; fold_pos_compare; intros [H|H] [K|K];
    try discriminate; auto;
    destruct (Z.compare_spec e1 e2), (Z.compare_spec e2 e3), (Z.compare_spec e1 e3);
    try discriminate; auto; try lia; subst;
    destruct (Pos.compare_spec m1 m2), (Pos.compare_spec m2 m3), (Pos.compare_spec m1 m3);
    cbn in *; try discriminate; auto; try lia.
Qed.

Lemma SFcompare_refl (x : spec_float) :
  x <> S754_nan -> SFcompare x x = Some Eq.
Proof.
  destruct x as [[]|[]| |[] m e]; cbn; intros H; try reflexivity; try congruence;
    fold_pos_compare; rewrite Z.compare_refl, Pos.compare_refl; reflexivity.
Qed.

Lemma is_nan_false (x : float) : is_nan x = false <-> Prim2SF x <> S754_nan.
Proof.
  unfold is_nan. rewrite eqb_spec. unfold SFeqb. split.
  - intros H E. rewrite E in H. discriminate.
  - intros H. rewrite (SFcompare_refl _ H). reflexivity.
Qed.

Lemma is_nan_true (x : float) : is_nan x = true <-> Prim2SF x = S754_nan.
Proof.
  split; intros H.
  - destruct (Prim2SF x) eqn:E; try reflexivity;
      assert (K : is_nan x = false) by (apply is_nan_false; rewrite E; discriminate);
      congruence.
  - destruct (is_nan x) eqn:E; [reflexivity|].
    apply is_nan_false in E. contradiction.
Qed.

Lemma leb_sf_le (a b : float) :
  (a <=? b) = true <-> sf_le (Prim2SF a) (Prim2SF b).
Proof.
  rewrite leb_spec. unfold SFleb, sf_le.
  destruct (SFcompare (Prim2SF a) (Prim2SF b)) as [[]|]; split;
    intros H; try reflexivity; try discriminate; auto;
    destruct H; discriminate.
Qed.

Lemma ltb_leb (a b : float) : (a <? b) = true -> (a <=? b) = true.
Proof.
  to_spec. destruct (SFcompare (Prim2SF a) (Prim2SF b)) as [[]|]; auto.
Qed.

Lemma eqb_leb (a b : float) : (a =? b) = true -> (a <=? b) = true.
Proof.
  to_spec. destruct (SFcompare (Prim2SF a) (Prim2SF b)) as [[]|]; auto.
Qed.

Lemma leb_trans (a b c : float) :
  (a <=? b) = true -> (b <=? c) = true -> (a <=? c) = true.
Proof.
  rewrite !leb_sf_le. apply sf_le_trans.
Qed.

Lemma ltb_not_leb (a b : float) : (a <? b) = true -> (b <=? a) = false.
Proof.
  to_spec. rewrite (SFcompare_opp (Prim2SF a) (Prim2SF b)).
  destruct (SFcompare (Prim2SF a) (Prim2SF b)) as [[]|]; cbn; auto; discriminate.
Qed.

Lemma leb_not_ltb (a b : float) : (a <=? b) = true -> (b <? a) = false.
Proof.
  to_spec. rewrite (SFcompare_opp (Prim2SF a) (Prim2SF b)).
  destruct (SFcompare (Prim2SF a) (Prim2SF b)) as [[]|]; cbn; auto; discriminate.
Qed.

Lemma ltb_not_nan (a b : float) :
  (a <? b) = true -> is_nan a = false /\ is_nan b = false.
Proof.
  intros H. rewrite !is_nan_false. to_spec.
  split; intros E; rewrite E in H;
    [|destruct (Prim2SF a)]; discriminate.
Qed.

Lemma leb_not_nan (a b : float) :
  (a <=? b) = true -> is_nan a = false /\ is_nan b = false.
Proof.
  intros H. rewrite !is_nan_false. to_spec.
  split; intros E; rewrite E in H;
    [|destruct (Prim2SF a)]; discriminate.
Qed.

Lemma leb_refl (a : float) : is_nan a = false -> (a <=? a) = true.
Proof.
  rewrite is_nan_false. intros H. to_spec.
  rewrite (SFcompare_refl _ H). reflexivity.
Qed.

Lemma leb_total (a b : float) :
  is_nan a = false -> is_nan b = false -> (a <=? b) = false -> (b <? a) = true.
Proof.
  rewrite !is_nan_false. intros Ha Hb. to_spec.
  rewrite (SFcompare_opp (Prim2SF a) (Prim2SF b)).
  destruct (SFcompare (Prim2SF a) (Prim2SF b)) as [[]|] eqn:E; cbn; auto.
  apply SFcompare_none in E. destruct E; contradiction.
Qed.

Lemma ltb_total (a b : float) :
  is_nan a = false -> is_nan b = false -> (a <? b) = false -> (b <=? a) = true.
Proof.
  rewrite !is_nan_false. intros Ha Hb. to_spec.
  rewrite (SFcompare_opp (Prim2SF a) (Prim2SF b)).
  destruct (SFcompare (Prim2SF a) (Prim2SF b)) as [[]|] eqn:E; cbn; auto.
  apply SFcompare_none in E. destruct E; contradiction.
Qed.


Lemma leb_ltb_trans (a b c : float) :
  (a <=? b) = true -> (b <? c) = true -> (a <? c) = true.
Proof.
  intros Hab Hbc.
  destruct (leb_not_nan _ _ Hab) as [Na _].
  destruct (ltb_not_nan _ _ Hbc) as [_ Nc].
  destruct (c <=? a) eqn:E.
  - pose proof (leb_trans _ _ _ E Hab) as Hcb.
    apply ltb_not_leb in Hbc. congruence.
  - apply leb_total; assumption.
Qed.

Lemma ltb_leb_trans (a b c : float) :
  (a <? b) = true -> (b <=? c) = true -> (a <? c) = true.
Proof.
  intros Hab Hbc.
  destruct (ltb_not_nan _ _ Hab) as [Na _].
  destruct (leb_not_nan _ _ Hbc) as [_ Nc].
  destruct (c <=? a) eqn:E.
  - pose proof (leb_trans _ _ _ Hbc E) as Hba.
    apply ltb_not_leb in Hab. congruence.
  - apply leb_total; assumption.
Qed.

Lemma ltb_trans (a b c : float) :
  (a <? b) = true -> (b <? c) = true -> (a <? c) = true.
Proof.
  intros Hab Hbc. apply ltb_leb in Hab. eapply leb_ltb_trans; eassumption.
Qed.

Lemma is_finite_false (x : float) :
  is_finite x = false -> not_finite (Prim2SF x).
Proof.
  unfold is_finite. intros H. apply negb_false_iff, orb_true_iff in H.
  destruct H as [H|H].
  - apply is_nan_true in H. rewrite H. exact I.
  - unfold is_infinity in H. rewrite eqb_spec, abs_spec in H.
    change (Prim2SF infinity) with (S754_infinity false) in H.
    destruct (Prim2SF x) as [[]|[]| |[] m e]; cbn in H; try discriminate; exact I.
Qed.

Lemma not_finite_mul (x : float) :
  not_finite (Prim2SF x) -> not_finite (Prim2SF (x * x)).
Proof.
  rewrite mul_spec. destruct (Prim2SF x) as [[]|[]| |[] m e]; cbn; tauto.
Qed.

Lemma not_finite_add (x y : float) :
  not_finite (Prim2SF x) \/ not_finite (Prim2SF y) ->
  not_finite (Prim2SF (x + y)).
Proof.
  rewrite add_spec.
  destruct (Prim2SF x) as [[]|[]| |[] m e], (Prim2SF y) as [[]|[]| |[] m' e'];
    cbn; tauto.
Qed.

Lemma not_finite_sqrt_ltb (x t : float) :
  not_finite (Prim2SF x) -> (sqrt x <? t) = false.
Proof.
  rewrite ltb_spec, sqrt_spec. unfold SFltb.
  destruct (Prim2SF x) as [[]|[]| |[] m e]; cbn; try tauto; intros _;
    destruct (Prim2SF t) as [[]|[]| |[] m' e']; reflexivity.
Qed.

End FloatOrder.

(** ** Basic facts about the building blocks *)

Lemma broadcast_to_same (n : nat) (x : Np.vec) :
  length x = n -> Np.broadcast_to n x = Some x.
Proof.
  intros H. unfold Np.broadcast_to. rewrite H, Nat.eqb_refl. reflexivity.
Qed.

Lemma set_last_row_same (m : Np.matrix) (w x : Np.vec) :
  Np.last_opt m = Some w -> length x = length w ->
  Np.set_last_row m x = Some (Np.but_last m ++ [x]).
Proof.
  intros Hw Hx. unfold Np.set_last_row. rewrite Hw.
  rewrite (broadcast_to_same _ _ Hx).
  destruct m; [discriminate|reflexivity].
Qed.

Lemma last_opt_some_set_last {A : Type} (l : list A) (a x : A) :
  Np.last_opt l = Some a -> Np.set_last l x = Some (Np.but_last l ++ [x]).
Proof.
  destruct l; [discriminate|reflexivity].
Qed.

Lemma map2_length (g : float -> float -> float) (a b : Np.vec) :
  length b = length a -> length (Np.map2 g a b) = length a.
Proof.
  revert b. induction a as [|x a IH]; intros [|y b] H; cbn in *; try lia.
  rewrite IH; lia.
Qed.

(** ** C1: the branches of [choose_step] *)

(** C1.  In the choose-step state, with [(xr, fxr)] the reflected point and
    its cost and [f_best], [f_second_worst], [f_worst] the first, the
    last-but-one and the last function value: if [fxr < f_best] the next
    submit phase is submit-expansion; else if [fxr < f_second_worst] the
    worst vertex and its value are replaced by [(xr, fxr)] and the next
    submit phase is new-iteration, no update being pending; else if
    [fxr < f_worst] it is submit-contraction; else it is
    submit-inside-contraction.  The reflected point is cached in every case,
    and outside the second branch the simplex and its values are untouched.
    Nothing here depends on the values being sorted. *)
Theorem choose_step_branches
    (self : NelderMead) (outs : outputs) (xr w : Np.vec) (fxr : float)
    (f : Np.vec) (f_best f_second_worst f_worst : float) :
  _get_single_result self outs = Some (xr, fxr) ->
  fun_simplex self = Some f ->
  hd_error f = Some f_best ->
  Np.last2_opt f = Some f_second_worst ->
  Np.last_opt f = Some f_worst ->
  Np.last_opt (simplex self) = Some w ->
  length xr = length w ->
  exists self',
    choose_step self outs = Some self'
    /\ next_update self' = None
    /\ extra_points self' = [("xr"%string, (xr, fxr))]
    /\ (if fxr <? f_best then
          next_submit self' = Some Submit_expansion
          /\ simplex self' = simplex self /\ fun_simplex self' = Some f
        else if fxr <? f_second_worst then
          next_submit self' = Some New_iter
          /\ simplex self' = Np.but_last (simplex self) ++ [xr]
          /\ fun_simplex self' = Some (Np.but_last f ++ [fxr])
        else if fxr <? f_worst then
          next_submit self' = Some Submit_contraction
          /\ simplex self' = simplex self /\ fun_simplex self' = Some f
        else
          next_submit self' = Some Submit_inside_contraction
          /\ simplex self' = simplex self /\ fun_simplex self' = Some f).
Proof.
  intros Hres Hf Hbest Hsw Hworst Hw Hlen.
  unfold choose_step, update_method.
  unfold _get_single_result in *. fields.
  destruct outs as [|[idx res] [|]]; try discriminate.
  rewrite Hres. fields. rewrite Hf, Hbest.
  destruct (fxr <? f_best).
  - eexists; repeat split; fields; auto.
  - rewrite Hsw. destruct (fxr <? f_second_worst).
    + unfold _update_last. fields.
      rewrite (set_last_row_same _ _ _ Hw Hlen), Hf.
      rewrite (last_opt_some_set_last _ _ fxr Hworst).
      eexists; repeat split; fields; auto.
    + rewrite Hworst. destruct (fxr <? f_worst);
        eexists; repeat split; fields; auto.
Qed.

Lemma choose_step_branches_witness :
  exists self',
    choose_step triangle [(7%Z, cost 1.5)] = Some self'
    /\ next_update self' = None
    /\ extra_points self' = [("xr"%string, ([1; -1], 1.5))]
    /\ (if 1.5 <? 1 then
          next_submit self' = Some Submit_expansion
          /\ simplex self' = simplex triangle /\ fun_simplex self' = Some [1; 2; 3]
        else if 1.5 <? 2 then
          next_submit self' = Some New_iter
          /\ simplex self' = Np.but_last (simplex triangle) ++ [[1; -1]]
          /\ fun_simplex self' = Some (Np.but_last [1; 2; 3] ++ [1.5])
        else if 1.5 <? 3 then
          next_submit self' = Some Submit_contraction
          /\ simplex self' = simplex triangle /\ fun_simplex self' = Some [1; 2; 3]
        else
          next_submit self' = Some Submit_inside_contraction
          /\ simplex self' = simplex triangle /\ fun_simplex self' = Some [1; 2; 3]).
Proof.
  apply (choose_step_branches triangle [(7%Z, cost 1.5)] [1; -1] [0; 1] 1.5
           [1; 2; 3] 1 2 3); reflexivity.
Defined.

(** ** C5: the termination check and the iteration cap *)

(** C5.  The convergence check never reads the iteration counters: on two
    states that differ at most in [num_iter] and [max_iter] it raises on
    both or returns the same [finished] flag on both, and so does the whole
    new-iteration phase that runs it.  A large [num_iter] alone therefore
    never makes [is_finished] true. *)
Theorem check_finished_ignores_iteration_cap
    (argsort : Np.vec -> list nat) (self : NelderMead) (n m : Z) :
  option_map is_finished (check_finished (set_max_iter (set_num_iter self n) m))
  = option_map is_finished (check_finished self)
  /\ option_map (fun r => is_finished (fst r))
       (new_iter argsort (set_max_iter (set_num_iter self n) m))
     = option_map (fun r => is_finished (fst r)) (new_iter argsort self).
Proof.
  assert (Hc : forall s : NelderMead,
             check_finished (set_max_iter (set_num_iter s n) m)
             = option_map (fun s' => set_max_iter (set_num_iter s' n) m)
                          (check_finished s)).
  { intros s. unfold check_finished. fields.
    destruct (hd_error (simplex s)); [|reflexivity].
    destruct (Np.norm_rows _); [|reflexivity].
    destruct (Np.max _); [|reflexivity].
    destruct (_ <? xtol s); [|reflexivity].
    destruct (fun_simplex s) as [fs|]; [|reflexivity].
    destruct (hd_error fs); [|reflexivity].
    destruct (Np.max _); reflexivity. }
  split.
  - rewrite Hc. destruct (check_finished self); reflexivity.
  - unfold new_iter, submit_method, do_sort. fields.
    destruct (fun_simplex self) as [f|]; [|reflexivity].
    destruct (Np.take f (argsort f)) as [f'|]; [|reflexivity].
    destruct (Np.take (simplex self) (argsort f)) as [m'|]; [|reflexivity].
    match goal with
    | |- context [check_finished ?s] =>
        match s with
        | context [set_max_iter] =>
            change s with (set_max_iter (set_num_iter
              (set_simplex (set_fun_simplex
                 (set_next_update (set_next_submit self None) None) (Some f')) m') n) m)
        end
    end.
    rewrite Hc.
    destruct (check_finished _) as [s'|]; [|reflexivity].
    cbn [option_map]. fields.
    destruct (finished s'); [reflexivity|].
    destruct (Np.last_opt (simplex s')); reflexivity.
Qed.

(** ** C3: the convergence test *)

Lemma maximum_ltb (x y t : float) :
  (Np.maximum x y <? t) = true <-> (x <? t) = true /\ (y <? t) = true.
Proof.
  unfold Np.maximum.
  destruct (y <=? x) eqn:Hyx; cbn [orb].
  - split; [|tauto]. intros H. split; [assumption|].
    eapply FloatOrder.leb_ltb_trans; eassumption.
  - destruct (is_nan x) eqn:Hx.
    + split; [|tauto]. intros H.
      destruct (FloatOrder.ltb_not_nan _ _ H). congruence.
    + split; [|tauto]. intros H. split; [|assumption].
      destruct (FloatOrder.ltb_not_nan _ _ H) as [Hy _].
      eapply FloatOrder.ltb_trans; [|eassumption].
      apply FloatOrder.leb_total; assumption.
Qed.

Lemma fold_maximum_ltb (l : Np.vec) (x t : float) :
  (fold_left Np.maximum l x <? t) = true
  <-> (x <? t) = true /\ Forall (fun y => (y <? t) = true) l.
Proof.
  revert x. induction l as [|y l IH]; intros x; cbn [fold_left].
  - split; [auto|tauto].
  - rewrite IH, maximum_ltb, Forall_cons_iff. tauto.
Qed.

(** [np.max(a) < t] says that every entry of [a] is below [t]; a NaN entry
    is below nothing and makes the maximum a NaN. *)
Lemma max_ltb (a : Np.vec) (m t : float) :
  Np.max a = Some m ->
  ((m <? t) = true <-> Forall (fun y => (y <? t) = true) a).
Proof.
  destruct a as [|x a]; [discriminate|].
  cbn [Np.max]. intros [= <-].
  rewrite fold_maximum_ltb, Forall_cons_iff. tauto.
Qed.

Lemma max_some (a : Np.vec) : a <> [] -> exists m, Np.max a = Some m.
Proof.
  destruct a; [congruence|]. intros _. eexists. reflexivity.
Qed.

Lemma sum_not_finite (l : Np.vec) (acc : float) :
  not_finite (Prim2SF acc)
  \/ (exists x, In x l /\ not_finite (Prim2SF x)) ->
  not_finite (Prim2SF (fold_left add l acc)).
Proof.
  revert acc. induction l as [|y l IH]; intros acc H; cbn [fold_left].
  - destruct H as [H|(x & [] & _)]. exact H.
  - apply IH. destruct H as [H|(x & [<-|Hx] & Hn)].
    + left. apply FloatOrder.not_finite_add. left. exact H.
    + left. apply FloatOrder.not_finite_add. right. exact Hn.
    + right. exists x. auto.
Qed.

(** *** numpy's pairwise summation *)

Lemma has_not_finite_split (k : nat) (a : Np.vec) :
  has_not_finite a -> has_not_finite (firstn k a) \/ has_not_finite (skipn k a).
Proof.
  intros (x & Hx & Hn). rewrite <- (firstn_skipn k a) in Hx.
  apply in_app_or in Hx. destruct Hx as [Hx|Hx]; [left|right]; exists x; auto.
Qed.

Lemma map2_add_not_finite (r c : Np.vec) :
  length c = length r ->
  has_not_finite r \/ has_not_finite c -> has_not_finite (Np.map2 add r c).
Proof.
  revert c. induction r as [|x r IH]; intros [|y c] Hl H; cbn in Hl; try lia.
  - destruct H as [(z & [] & _)|(z & [] & _)].
  - cbn [Np.map2].
    assert (Hhd : not_finite (Prim2SF x) \/ not_finite (Prim2SF y)
                  \/ has_not_finite r \/ has_not_finite c).
    { destruct H as [(z & [<-|Hz] & Hn)|(z & [<-|Hz] & Hn)]; auto.
      - right. right. left. exists z. auto.
      - right. right. right. exists z. auto. }
    destruct Hhd as [Hx|[Hy|Hrest]].
    + exists (x + y). split; [left; reflexivity|].
      apply FloatOrder.not_finite_add. left. exact Hx.
    + exists (x + y). split; [left; reflexivity|].
      apply FloatOrder.not_finite_add. right. exact Hy.
    + destruct (IH c ltac:(lia) Hrest) as (z & Hz & Hn).
      exists z. split; [right; exact Hz|exact Hn].
Qed.

Lemma accumulate_not_finite (g : nat) :
  forall (r a r' rest : Np.vec),
    Np.accumulate g r a = (r', rest) ->
    8 * g <= length a -> length r = 8%nat ->
    length r' = 8%nat
    /\ (has_not_finite r \/ has_not_finite a ->
        has_not_finite r' \/ has_not_finite rest).
Proof.
  induction g as [|g IH]; intros r a r' rest H Hlen Hr; cbn [Np.accumulate] in H.
  - injection H as <- <-. auto.
  - assert (H8 : length (firstn 8 a) = 8%nat) by (rewrite length_firstn; lia).
    apply IH in H.
    + destruct H as [Hr' Hnf]. split; [exact Hr'|]. intros Hin. apply Hnf.
      destruct Hin as [Hin|Hin].
      * left. apply map2_add_not_finite; [lia|left; exact Hin].
      * destruct (has_not_finite_split 8 a Hin) as [Hf|Hs]; [|right; exact Hs].
        left. apply map2_add_not_finite; [lia|right; exact Hf].
    + rewrite length_skipn. lia.
    + rewrite map2_length; lia.
Qed.

Ltac not_finite_sum :=
  first [ assumption
        | apply FloatOrder.not_finite_add;
          first [ left; not_finite_sum | right; not_finite_sum ] ].

Lemma block_sum_not_finite (a : Np.vec) :
  8 <= length a -> has_not_finite a -> not_finite (Prim2SF (Np.block_sum a)).
Proof.
  intros Hlen Hnf. unfold Np.block_sum.
  destruct (Np.accumulate _ _ _) as [r rest] eqn:E.
  apply accumulate_not_finite in E.
  - destruct E as [Hr H]. apply sum_not_finite.
    destruct (H (has_not_finite_split 8 a Hnf)) as [(x & Hx & Hn)|Hrest];
      [left|right; exact Hrest].
    do 9 (destruct r as [|? r]; try discriminate Hr).
    cbn [nth].
    destruct Hx as [<-|[<-|[<-|[<-|[<-|[<-|[<-|[<-|[]]]]]]]]]; not_finite_sum.
  - rewrite length_skipn.
    pose proof (Nat.div_mod_eq (length a) 8). lia.
  - rewrite length_firstn. lia.
Qed.

Lemma pairwise_sum_not_finite (fuel : nat) :
  forall a, has_not_finite a -> not_finite (Prim2SF (Np.pairwise_sum fuel a)).
Proof.
  induction fuel as [|fuel IH]; intros a Hnf; cbn [Np.pairwise_sum];
    destruct (Nat.ltb_spec (length a) 8) as [H8|H8];
    try (apply sum_not_finite; right; exact Hnf);
    destruct (Nat.leb_spec (length a) Np.PW_BLOCKSIZE) as [Hb|Hb];
    try (apply block_sum_not_finite; assumption).
  apply FloatOrder.not_finite_add.
  destruct (has_not_finite_split
              (Nat.div (length a) 2 - Nat.modulo (Nat.div (length a) 2) 8) a Hnf)
    as [H|H]; [left|right]; apply IH, H.
Qed.

(** The depth of the cuts never reaches the length of the array. *)
Lemma pairwise_sum_fuel (fuel : nat) :
  forall fuel' a, length a <= fuel -> length a <= fuel' ->
                  Np.pairwise_sum fuel a = Np.pairwise_sum fuel' a.
Proof.
  induction fuel as [|fuel IH]; intros fuel' a H H';
    destruct fuel' as [|fuel']; cbn [Np.pairwise_sum];
    destruct (Nat.ltb_spec (length a) 8) as [H8|H8]; try reflexivity;
    destruct (Nat.leb_spec (length a) Np.PW_BLOCKSIZE) as [Hb|Hb];
    try reflexivity; unfold Np.PW_BLOCKSIZE in Hb; try lia.
  pose proof (Nat.div_mod_eq (length a) 2) as E2.
  pose proof (Nat.mod_upper_bound (length a) 2 ltac:(lia)) as U2.
  pose proof (Nat.div_mod_eq (Nat.div (length a) 2) 8) as E8.
  pose proof (Nat.mod_upper_bound (Nat.div (length a) 2) 8 ltac:(lia)) as U8.
  f_equal; apply IH; rewrite ?length_firstn, ?length_skipn; lia.
Qed.

(** A row of eight entries, where the pairwise sum and the sum from left to
    right differ. *)
Example add_reduce_pairwise :
  Np.add_reduce (repeat 0x1p-53 7 ++ [1]) = 0x1.0000000000003p+0
  /\ fold_left add (repeat 0x1p-53 7 ++ [1]) 0 = 0x1.0000000000004p+0.
Proof. split; reflexivity. Qed.

Lemma add_reduce_not_finite (a : Np.vec) :
  has_not_finite a -> not_finite (Prim2SF (Np.add_reduce a)).
Proof.
  intros H. unfold Np.add_reduce. apply FloatOrder.not_finite_add. right.
  apply pairwise_sum_not_finite, H.
Qed.

(** *** The distance of the statement and the norm of the code *)

Lemma differences_vsub (v best : Np.vec) : differences v best = Np.vsub v best.
Proof.
  revert best. induction v as [|x v IH]; intros [|b best]; cbn; try reflexivity.
  rewrite IH. reflexivity.
Qed.

Lemma squares_map (d : Np.vec) : squares d = map (fun t => t * t) d.
Proof. induction d as [|x d IH]; cbn; [reflexivity|]. rewrite IH. reflexivity. Qed.

Lemma norm2_distance (v best : Np.vec) :
  Np.norm2 (Np.vsub v best) = distance v best.
Proof.
  unfold Np.norm2, distance.
  rewrite <- (differences_vsub v best), <- (squares_map (differences v best)).
  reflexivity.
Qed.

Lemma all_finite_differences (others : Np.matrix) (best : Np.vec) :
  Np.all_finite (map (fun r => Np.vsub r best) others)
  = differences_finite others best.
Proof.
  unfold Np.all_finite, differences_finite.
  induction others as [|v m IH]; cbn; [reflexivity|].
  rewrite IH, differences_vsub. reflexivity.
Qed.

(** The distance of a vertex that differs from the best one by an infinity
    or a NaN is below nothing. *)
Lemma distance_not_finite (v best : Np.vec) (t : float) :
  forallb is_finite (differences v best) = false -> (distance v best <? t) = false.
Proof.
  intros H. unfold distance.
  apply FloatOrder.not_finite_sqrt_ltb, add_reduce_not_finite.
  induction (differences v best) as [|x d IH]; [discriminate|]. cbn in H.
  cbn [squares].
  destruct (is_finite x) eqn:E; cbn in H.
  - destruct (IH H) as (y & Hy & Hn). exists y. split; [right; exact Hy|exact Hn].
  - exists (x * x). split; [left; reflexivity|].
    apply FloatOrder.not_finite_mul, FloatOrder.is_finite_false, E.
Qed.

Lemma differences_finite_false (others : Np.matrix) (best : Np.vec) :
  differences_finite others best = false ->
  exists v, In v others /\ forallb is_finite (differences v best) = false.
Proof.
  unfold differences_finite. induction others as [|v m IH]; [discriminate|]. cbn.
  destruct (forallb is_finite (differences v best)) eqn:E; cbn.
  - intros H. destruct (IH H) as (v' & Hv' & E'). exists v'. auto.
  - intros _. exists v. auto.
Qed.

(** C3.  On a simplex with best vertex [best] and other vertices [others],
    with costs [f_best] and [f_others], the convergence check sets
    [finished] to the conjunction of two tests: the largest Euclidean
    distance from another vertex to the best one is strictly below [xtol],
    and the largest absolute difference between another cost and the best
    cost is strictly below [ftol].  So [finished] becomes true if and only
    if every other vertex is at a distance strictly below [xtol] from the
    best one and every other cost is strictly within [ftol] of the best
    cost; nothing else of the state changes.  The distance is the square
    root of the sum of the squares of the coordinate differences.  The
    check raises, and sets nothing, when a vertex differs from the best one
    by an infinite or NaN coordinate; the distances are not all below
    [xtol] then. *)
Theorem check_finished_conjunction
    (self : NelderMead) (best : Np.vec) (others : Np.matrix)
    (f_best : float) (f_others : Np.vec) :
  simplex self = best :: others ->
  fun_simplex self = Some (f_best :: f_others) ->
  others <> [] ->
  f_others <> [] ->
  (differences_finite others best = true
   /\ exists (size spread : float) (b : bool),
        Np.max (map (fun v => distance v best) others) = Some size
        /\ Np.max (map (fun t => abs (t - f_best)) f_others) = Some spread
        /\ b = (size <? xtol self) && (spread <? ftol self)
        /\ check_finished self = Some (set_finished self b)
        /\ (b = true <->
            Forall (fun v => (distance v best <? xtol self) = true) others
            /\ Forall (fun t => (abs (t - f_best) <? ftol self) = true) f_others))
  \/ (differences_finite others best = false
      /\ check_finished self = None
      /\ ~ Forall (fun v => (distance v best <? xtol self) = true) others).
Proof.
  intros Hs Hf Ho Hfo.
  unfold check_finished. rewrite Hs, Hf. cbn [hd_error tl].
  unfold Np.norm_rows. rewrite all_finite_differences.
  destruct (differences_finite others best) eqn:Hfin.
  - left. split; [reflexivity|].
    destruct (max_some (map (fun v => distance v best) others)) as [size Hsize].
    { destruct others; [congruence|discriminate]. }
    destruct (max_some (map (fun t => abs (t - f_best)) f_others))
      as [spread Hspread].
    { destruct f_others; [congruence|discriminate]. }
    exists size, spread, ((size <? xtol self) && (spread <? ftol self)).
    split; [exact Hsize|]. split; [exact Hspread|]. split; [reflexivity|].
    rewrite map_map.
    rewrite (map_ext (fun v => Np.norm2 (Np.vsub v best))
                     (fun v => distance v best)) by (intros; apply norm2_distance).
    rewrite Hsize, Hspread.
    pose proof (max_ltb _ _ (xtol self) Hsize) as Hx.
    pose proof (max_ltb _ _ (ftol self) Hspread) as Hy.
    rewrite Forall_map in Hx, Hy.
    destruct (size <? xtol self); cbn [andb].
    + split; [reflexivity|].
      rewrite Hy. split; [|tauto]. intros H. split; [|assumption].
      apply Hx. reflexivity.
    + split; [reflexivity|].
      split; [discriminate|]. intros [H _]. apply Hx in H. discriminate.
  - right. split; [reflexivity|]. split; [reflexivity|].
    destruct (differences_finite_false _ _ Hfin) as (v & Hv & E).
    intros H. rewrite Forall_forall in H. specialize (H v Hv).
    rewrite (distance_not_finite _ _ _ E) in H. discriminate.
Qed.

Lemma check_finished_conjunction_witness :
  (differences_finite [[0x1p-20]] [0] = true
   /\ exists (size spread : float) (b : bool),
        Np.max (map (fun v => distance v [0]) [[0x1p-20]]) = Some size
        /\ Np.max (map (fun t => abs (t - 1)) [1]) = Some spread
        /\ b = (size <? xtol flat2) && (spread <? ftol flat2)
        /\ check_finished flat2 = Some (set_finished flat2 b)
        /\ (b = true <->
            Forall (fun v => (distance v [0] <? xtol flat2) = true) [[0x1p-20]]
            /\ Forall (fun t => (abs (t - 1) <? ftol flat2) = true) [1]))
  \/ (differences_finite [[0x1p-20]] [0] = false
      /\ check_finished flat2 = None
      /\ ~ Forall (fun v => (distance v [0] <? xtol flat2) = true) [[0x1p-20]]).
Proof.
  apply (check_finished_conjunction flat2 [0] [[0x1p-20]] 1 [1]);
    try reflexivity; discriminate.
Defined.

(** ** Coordinates of sums and averages *)

Lemma map2_nth (g : float -> float -> float) (a b : Np.vec) (j : nat) :
  length b = length a -> j < length a ->
  nth j (Np.map2 g a b) 0 = g (nth j a 0) (nth j b 0).
Proof.
  revert b j. induction a as [|x a IH]; intros [|y b] j H Hj; cbn in *; try lia.
  destruct j; [reflexivity|]. apply IH; lia.
Qed.

Lemma map_nth_float (g : float -> float) (a : Np.vec) (j : nat) :
  j < length a -> nth j (map g a) 0 = g (nth j a 0).
Proof.
  intros Hj. rewrite (nth_indep _ 0 (g 0)) by (rewrite length_map; exact Hj).
  apply map_nth.
Qed.

Lemma fold_vadd_length (rows : Np.matrix) (acc : Np.vec) :
  Forall (fun r => length r = length acc) rows ->
  length (fold_left Np.vadd rows acc) = length acc.
Proof.
  revert acc. induction rows as [|r rows IH]; intros acc H; cbn; [reflexivity|].
  inversion H as [|? ? Hr Hrows]; subst.
  assert (Hl : length (Np.vadd acc r) = length acc) by (apply map2_length; exact Hr).
  rewrite IH; [exact Hl|].
  rewrite Hl. exact Hrows.
Qed.

Lemma fold_vadd_nth (rows : Np.matrix) (acc : Np.vec) (j : nat) :
  Forall (fun r => length r = length acc) rows -> j < length acc ->
  nth j (fold_left Np.vadd rows acc) 0
  = fold_left add (column j rows) (nth j acc 0).
Proof.
  revert acc. induction rows as [|r rows IH]; intros acc H Hj; cbn; [reflexivity|].
  inversion H as [|? ? Hr Hrows]; subst.
  assert (Hl : length (Np.vadd acc r) = length acc) by (apply map2_length; exact Hr).
  rewrite IH.
  - unfold Np.vadd. rewrite map2_nth by assumption. reflexivity.
  - rewrite Hl. exact Hrows.
  - rewrite Hl. exact Hj.
Qed.

Lemma average_rows_nth (n : nat) (rows : Np.matrix) (j : nat) :
  Forall (fun r => length r = n) rows -> j < n ->
  length (Np.average_rows n rows) = n
  /\ nth j (Np.average_rows n rows) 0 = centroid_coord rows j.
Proof.
  intros H Hj. unfold Np.average_rows, centroid_coord, Np.sum.
  assert (H' : Forall (fun r => length r = length (repeat 0 n)) rows)
    by (rewrite repeat_length; exact H).
  pose proof (fold_vadd_length rows _ H') as Hl. rewrite repeat_length in Hl.
  split.
  - rewrite length_map. exact Hl.
  - rewrite map_nth_float by lia.
    rewrite fold_vadd_nth by (rewrite ?repeat_length; assumption).
    rewrite nth_repeat. reflexivity.
Qed.

Lemma check_finished_converged (s : NelderMead) :
  check_finished s
  = option_map (set_finished s)
      (converged (simplex s) (fun_simplex s) (xtol s) (ftol s)).
Proof.
  unfold check_finished, converged.
  destruct (hd_error (simplex s)); [|reflexivity].
  destruct (Np.norm_rows _); [|reflexivity].
  destruct (Np.max _); [|reflexivity].
  destruct (_ <? xtol s); [|reflexivity].
  destruct (fun_simplex s) as [fs|]; [|reflexivity].
  destruct (hd_error fs); [|reflexivity].
  destruct (Np.max _); reflexivity.
Qed.

Lemma last_opt_app {A : Type} (l : list A) (a : A) : Np.last_opt (l ++ [a]) = Some a.
Proof. unfold Np.last_opt. rewrite rev_app_distr. reflexivity. Qed.

Lemma but_last_app {A : Type} (l : list A) (a : A) : Np.but_last (l ++ [a]) = l.
Proof. apply removelast_last. Qed.

(** ** Sorted lists and permutations *)

(** A list sorted for [le] and a list sorted for [lt] that hold the same
    elements are equal, when [lt] excludes the converse of [le]. *)
Lemma sorted_perm_unique {A : Type} (le lt : A -> A -> Prop) (l1 l2 : list A) :
  (forall a b, In a l1 -> In b l1 -> le a b -> lt b a -> False) ->
  Permutation l1 l2 -> StronglySorted le l1 -> StronglySorted lt l2 -> l1 = l2.
Proof.
  revert l1.
  induction l2 as [|b l2 IH]; intros l1 Hex Hp H1 H2.
  - apply Permutation_sym, Permutation_nil in Hp. exact Hp.
  - destruct l1 as [|a l1].
    { apply Permutation_nil in Hp. discriminate. }
    inversion H1 as [|? ? H1' Ha]; subst.
    inversion H2 as [|? ? H2' Hb]; subst.
    assert (Hab : a = b).
    { assert (Ia : In a (b :: l2)) by (eapply Permutation_in; [exact Hp|left; reflexivity]).
      assert (Ib : In b (a :: l1))
        by (eapply Permutation_in; [apply Permutation_sym; exact Hp|left; reflexivity]).
      destruct Ia as [->|Ia]; [reflexivity|].
      destruct Ib as [->|Ib]; [reflexivity|].
      rewrite Forall_forall in Ha, Hb.
      exfalso. apply (Hex a b); auto; [left; reflexivity|right; exact Ib]. }
    subst b. f_equal. apply IH; auto.
    + intros x y Hx Hy. apply Hex; right; assumption.
    + eapply Permutation_cons_inv. exact Hp.
Qed.

Lemma insert_item_perm {V : Type} (kv : Z * V) (l : list (Z * V)) :
  Permutation (insert_item kv l) (kv :: l).
Proof.
  induction l as [|kv' l IH]; cbn; [reflexivity|].
  destruct (fst kv <=? fst kv')%Z; [reflexivity|].
  rewrite IH. apply perm_swap.
Qed.

Lemma insert_item_sorted {V : Type} (kv : Z * V) (l : list (Z * V)) :
  StronglySorted key_le l -> StronglySorted key_le (insert_item kv l).
Proof.
  induction l as [|kv' l IH]; intros H; cbn.
  - constructor; constructor.
  - inversion H as [|? ? Hl Hall]; subst.
    destruct (Z.leb_spec (fst kv) (fst kv')) as [Hle|Hgt].
    + constructor; [exact H|].
      constructor; [exact Hle|].
      eapply Forall_impl; [|exact Hall].
      unfold key_le. intros; lia.
    + constructor; [apply IH; exact Hl|].
      rewrite (Forall_forall). intros x Hx.
      apply (Permutation_in _ (insert_item_perm kv l)) in Hx.
      destruct Hx as [<-|Hx].
      * unfold key_le. lia.
      * rewrite Forall_forall in Hall. apply Hall. exact Hx.
Qed.

Lemma sorted_items_perm {V : Type} (d : dict Z V) : Permutation (sorted_items d) d.
Proof.
  induction d as [|kv d IH]; cbn; [reflexivity|].
  rewrite insert_item_perm. constructor. exact IH.
Qed.

Lemma sorted_items_sorted {V : Type} (d : dict Z V) :
  StronglySorted key_le (sorted_items d).
Proof.
  induction d as [|kv d IH]; cbn; [constructor|].
  apply insert_item_sorted. exact IH.
Qed.

Lemma combine_key_sorted {V : Type} (keys : list Z) (vs : list V) :
  StronglySorted Z.lt keys -> StronglySorted key_lt (combine keys vs).
Proof.
  revert vs. induction keys as [|k keys IH]; intros vs H; cbn; [constructor|].
  destruct vs as [|v vs]; [constructor|].
  inversion H as [|? ? Hk Hall]; subst.
  constructor; [apply IH; exact Hk|].
  rewrite Forall_forall in *. intros [k' v'] Hin.
  apply in_combine_l in Hin. unfold key_lt. cbn. apply Hall. exact Hin.
Qed.

(** Whatever the iteration order of the dictionary, sorting the items of a
    batch whose identifiers increase gives the batch back in that order. *)
Lemma sorted_items_increasing {V : Type} (keys : list Z) (vs : list V) (d : dict Z V) :
  StronglySorted Z.lt keys -> Permutation d (combine keys vs) ->
  sorted_items d = combine keys vs.
Proof.
  intros Hk Hp.
  apply (sorted_perm_unique key_le key_lt).
  - unfold key_le, key_lt. intros; lia.
  - rewrite sorted_items_perm. exact Hp.
  - apply sorted_items_sorted.
  - apply combine_key_sorted. exact Hk.
Qed.

Lemma mapM_costs (key : string) (keys : list Z) (results : list result)
    (costs : Np.vec) :
  length results = length keys ->
  Forall2 (fun res c => dict_get res key = Some c) results costs ->
  mapM (fun kv : Z * result => dict_get (snd kv) key) (combine keys results)
  = Some costs.
Proof.
  intros Hlen H. revert keys Hlen.
  induction H as [|res c results costs Hc _ IH]; intros keys Hlen.
  - destruct keys; reflexivity.
  - destruct keys as [|k keys]; [discriminate|].
    cbn. rewrite Hc, IH; [reflexivity|]. cbn in Hlen. lia.
Qed.

(** ** C7: the function values recorded by [update_initialize] *)

(** C7 (amended).  When the identifiers of a batch of n+1 results increase
    in the order in which the vertices were submitted, update-initialize
    returns, the function-value vector has as many entries as the simplex
    has vertices, and its i-th entry is the cost returned for the i-th
    submitted vertex; the iteration order of the batch does not matter.
    The values are ordered by identifier, not by submission. *)
Theorem update_initialize_order
    (self : NelderMead) (keys : list Z) (results : list result)
    (costs : Np.vec) (outs : outputs) :
  StronglySorted Z.lt keys ->
  length keys = length (simplex self) ->
  length results = length keys ->
  Forall2 (fun res c => dict_get res (result_key self) = Some c) results costs ->
  Permutation outs (combine keys results) ->
  exists self',
    update_initialize self outs = Some self'
    /\ fun_simplex self' = Some costs
    /\ length costs = length (simplex self')
    /\ next_submit self' = Some New_iter
    /\ next_update self' = None.
Proof.
  intros Hk Hlen Hres Hcosts Hp.
  unfold update_initialize, update_method, _get_values. fields.
  rewrite (sorted_items_increasing keys results outs Hk Hp).
  pose proof (mapM_costs (result_key self) _ _ _ Hres Hcosts) as E.
  match goal with
  | |- context [mapM ?g ?l] =>
      replace (mapM g l) with (Some costs) by (symmetry; exact E)
  end.
  eexists. split; [reflexivity|]. fields.
  repeat split.
  rewrite <- Hlen, <- Hres. symmetry. exact (Forall2_length Hcosts).
Qed.

Lemma update_initialize_order_witness :
  exists self',
    update_initialize quad1 quad_outputs = Some self'
    /\ fun_simplex self' = Some [1; 2.25]
    /\ length [1; 2.25] = length (simplex self')
    /\ next_submit self' = Some New_iter
    /\ next_update self' = None.
Proof.
  apply (update_initialize_order quad1 [0%Z; 1%Z] [cost 1; cost 2.25]
           [1; 2.25] quad_outputs).
  - repeat constructor.
  - reflexivity.
  - reflexivity.
  - repeat constructor.
  - apply perm_swap.
Defined.

(** C7, the claim as stated fails: when the collaborator gives the first
    vertex the identifier 1 and the second vertex the identifier 0, the
    first function value is the cost of the second vertex. *)
Lemma update_initialize_order_counterexample :
  exists ins self',
    create_inputs argsort_insertion [1%Z; 0%Z] quad0 = Some (swapped1, ins)
    /\ ins = [(1%Z, _to_input_list [0]); (0%Z, _to_input_list [2.5])]
    /\ update_initialize swapped1 [(1%Z, cost 1); (0%Z, cost 2.25)] = Some self'
    /\ fun_simplex self' = Some [2.25; 1]
    /\ fun_simplex self' <> Some [1; 2.25].
Proof.
  eexists. eexists. split; [reflexivity|]. split; [reflexivity|].
  split; [reflexivity|]. split; [reflexivity|].
  cbn. intros H.
  apply (f_equal (fun o => match o with Some (c :: _) => c <? 2 | _ => false end)) in H.
  vm_compute in H. discriminate.
Qed.

(** ** numpy's sorting order and [np.argsort] *)

Lemma np_le_cases (a b : float) :
  np_le a b <-> is_nan b = true \/ (a <=? b) = true.
Proof.
  unfold np_le, Np.lt. split.
  - intros H. apply orb_false_elim in H. destruct H as [H1 H2].
    destruct (is_nan b) eqn:Hb; [left; reflexivity|right].
    destruct (is_nan a) eqn:Ha; [discriminate|].
    apply FloatOrder.ltb_total; assumption.
  - intros [Hb|Hab].
    + rewrite Hb, andb_false_r, orb_false_r.
      destruct (b <? a) eqn:E; [|reflexivity].
      destruct (FloatOrder.ltb_not_nan _ _ E). congruence.
    + destruct (FloatOrder.leb_not_nan _ _ Hab) as [Ha Hb].
      rewrite Ha, (FloatOrder.leb_not_ltb _ _ Hab). reflexivity.
Qed.

Lemma np_le_trans (a b c : float) : np_le a b -> np_le b c -> np_le a c.
Proof.
  rewrite !np_le_cases. intros [Hb|Hab] [Hc|Hbc]; auto.
  - destruct (FloatOrder.leb_not_nan _ _ Hbc). congruence.
  - right. eapply FloatOrder.leb_trans; eassumption.
Qed.

Lemma np_lt_le (a b : float) : Np.lt a b = true -> np_le a b.
Proof.
  unfold np_le, Np.lt. intros H. apply orb_true_iff in H.
  destruct H as [H|H].
  - destruct (FloatOrder.ltb_not_nan _ _ H) as [Ha Hb].
    rewrite Ha, andb_false_l, orb_false_r.
    apply FloatOrder.leb_not_ltb, FloatOrder.ltb_leb. exact H.
  - apply andb_true_iff in H. destruct H as [Hb Ha].
    apply negb_true_iff in Ha. rewrite Ha, andb_false_l, orb_false_r.
    destruct (b <? a) eqn:E; [|reflexivity].
    destruct (FloatOrder.ltb_not_nan _ _ E). congruence.
Qed.

Lemma insert_index_perm (v : Np.vec) (i : nat) (l : list nat) :
  Permutation (insert_index v i l) (i :: l).
Proof.
  induction l as [|j l IH]; cbn; [reflexivity|].
  destruct (Np.lt _ _); [reflexivity|].
  rewrite IH. apply perm_swap.
Qed.

Lemma insert_index_sorted (v : Np.vec) (i : nat) (l : list nat) :
  StronglySorted (idx_le v) l -> StronglySorted (idx_le v) (insert_index v i l).
Proof.
  induction l as [|j l IH]; intros H; cbn.
  - constructor; constructor.
  - inversion H as [|? ? Hl Hall]; subst.
    destruct (Np.lt (nth i v 0) (nth j v 0)) eqn:E.
    + constructor; [exact H|].
      assert (Hij : idx_le v i j) by (apply np_lt_le; exact E).
      constructor; [exact Hij|].
      eapply Forall_impl; [|exact Hall].
      intros k Hjk. unfold idx_le in *. eapply np_le_trans; eassumption.
    + constructor; [apply IH; exact Hl|].
      rewrite Forall_forall. intros k Hk.
      apply (Permutation_in _ (insert_index_perm v i l)) in Hk.
      destruct Hk as [<-|Hk].
      * exact E.
      * rewrite Forall_forall in Hall. apply Hall. exact Hk.
Qed.

Lemma fold_insert_index (v : Np.vec) (todo acc : list nat) :
  StronglySorted (idx_le v) acc ->
  Permutation (fold_left (fun a i => insert_index v i a) todo acc) (acc ++ todo)
  /\ StronglySorted (idx_le v) (fold_left (fun a i => insert_index v i a) todo acc).
Proof.
  revert acc. induction todo as [|i todo IH]; intros acc H; cbn.
  - rewrite app_nil_r. split; [reflexivity|exact H].
  - destruct (IH (insert_index v i acc) (insert_index_sorted v i acc H)) as [Hp Hs].
    split; [|exact Hs].
    rewrite Hp, insert_index_perm. cbn. apply Permutation_middle.
Qed.

Lemma argsort_insertion_spec : argsort_spec argsort_insertion.
Proof.
  intros v. unfold argsort_insertion.
  destruct (fold_insert_index v (seq 0 (length v)) []) as [Hp Hs]; [constructor|].
  split; assumption.
Qed.

Lemma strongly_sortedb_sound {A : Type} (r : A -> A -> bool) (l : list A) :
  strongly_sortedb r l = true -> StronglySorted (fun a b => r a b = true) l.
Proof.
  induction l as [|a l IH]; cbn; intros H; [constructor|].
  apply andb_true_iff in H. destruct H as [Ha Hl].
  constructor; [apply IH; exact Hl|].
  rewrite forallb_forall in Ha. rewrite Forall_forall. exact Ha.
Qed.

Lemma sortsb_sound (v : Np.vec) (idx : list nat) :
  sortsb v idx = true -> sorts v idx.
Proof.
  unfold sortsb. intros H.
  apply andb_true_iff in H. destruct H as [H Hs].
  apply andb_true_iff in H. destruct H as [Hlen Hin].
  apply Nat.eqb_eq in Hlen. split.
  - apply Permutation_sym, NoDup_Permutation_bis.
    + apply seq_NoDup.
    + rewrite length_seq. lia.
    + intros i Hi. rewrite forallb_forall in Hin.
      specialize (Hin i Hi). apply existsb_exists in Hin.
      destruct Hin as [j [Hj E]]. apply Nat.eqb_eq in E. subst j. exact Hj.
  - apply strongly_sortedb_sound in Hs.
    eapply StronglySorted_ind with (P := StronglySorted (idx_le v)); [| |exact Hs].
    + constructor.
    + intros a l _ IH Hall. constructor; [exact IH|].
      eapply Forall_impl; [|exact Hall].
      intros b Hb. apply negb_true_iff in Hb. exact Hb.
Qed.

Lemma argsort_quick_spec : argsort_spec argsort_quick.
Proof.
  intros v. unfold argsort_quick.
  destruct (sortsb v (Quicksort.aquicksort v)) eqn:E.
  - apply sortsb_sound. exact E.
  - apply argsort_insertion_spec.
Qed.

Example aquicksort_small :
  Quicksort.aquicksort [3; 1; 2; 1; nan; 0] = [5; 1; 3; 2; 0; 4]%nat.
Proof. vm_compute. reflexivity. Qed.

Example aquicksort_ties :
  Quicksort.aquicksort (repeat 1 18)
  = [0; 15; 14; 13; 12; 11; 10; 9; 8; 7; 6; 5; 4; 3; 2; 1; 16; 17]%nat.
Proof. vm_compute. reflexivity. Qed.

(** ** C9: sorting a sorted simplex *)

Lemma StronglySorted_nth {A : Type} (r : A -> A -> Prop) (l : list A) (d : A) :
  StronglySorted r l ->
  forall i j, i < j -> j < length l -> r (nth i l d) (nth j l d).
Proof.
  induction 1 as [|a l Hl IH Ha]; intros i j Hij Hj; cbn in *; [lia|].
  destruct j as [|j]; [lia|]. destruct i as [|i].
  - rewrite Forall_forall in Ha. apply Ha, nth_In. lia.
  - apply IH; lia.
Qed.

Lemma mapM_nth_error_seq {A : Type} (pre a : list A) :
  mapM (nth_error (pre ++ a)) (seq (length pre) (length a)) = Some a.
Proof.
  revert pre. induction a as [|x a IH]; intros pre; cbn [length seq mapM]; [reflexivity|].
  rewrite nth_error_app2, Nat.sub_diag by lia. cbn [nth_error].
  replace (pre ++ x :: a) with ((pre ++ [x]) ++ a) by (rewrite <- app_assoc; reflexivity).
  replace (S (length pre)) with (length (pre ++ [x])) by (rewrite length_app; cbn; lia).
  rewrite IH. reflexivity.
Qed.

Lemma take_seq {A : Type} (a : list A) : Np.take a (seq 0 (length a)) = Some a.
Proof. exact (mapM_nth_error_seq [] a). Qed.

(** An argsort of a strictly ascending vector is the identity. *)
Lemma sorts_strictly_ascending (v : Np.vec) (idx : list nat) :
  StronglySorted (fun a b => Np.lt a b = true) v ->
  sorts v idx -> idx = seq 0 (length v).
Proof.
  intros Hv [Hp Hs].
  apply (sorted_perm_unique (idx_le v) Nat.lt); auto.
  - intros a b Ha _ Hab Hba.
    apply (Permutation_in _ Hp), in_seq in Ha.
    pose proof (StronglySorted_nth _ _ 0 Hv b a Hba ltac:(lia)) as Hlt.
    unfold idx_le, np_le in Hab. cbn beta in Hlt. congruence.
  - clear. generalize 0%nat as start.
    induction (length v) as [|n IH]; intros start; cbn; constructor.
    + apply IH.
    + rewrite Forall_forall. intros x Hx. apply in_seq in Hx. unfold Nat.lt. lia.
Qed.

(** C9 (amended).  For every simplex and function-value vector sorted
    strictly ascending by cost (in numpy's order, so that a single NaN may
    stand last), [do_sort] leaves both the simplex rows and the
    function-value vector unchanged, for every [np.argsort] that sorts.
    With equal costs the rows of the tied vertices may change places. *)
Theorem do_sort_strictly_sorted
    (argsort : Np.vec -> list nat) (self : NelderMead) (f : Np.vec) :
  argsort_spec argsort ->
  fun_simplex self = Some f ->
  length f = length (simplex self) ->
  StronglySorted (fun a b => Np.lt a b = true) f ->
  do_sort argsort self = Some self.
Proof.
  intros Hspec Hf Hlen Hsorted.
  unfold do_sort. rewrite Hf.
  rewrite (sorts_strictly_ascending f (argsort f) Hsorted (Hspec f)).
  rewrite take_seq. fields. rewrite Hlen, take_seq.
  destruct self; cbn in *; subst; reflexivity.
Qed.

Lemma do_sort_strictly_sorted_witness :
  do_sort argsort_insertion quad2 = Some quad2.
Proof.
  apply (do_sort_strictly_sorted argsort_insertion quad2 [1; 2.25]).
  - exact argsort_insertion_spec.
  - reflexivity.
  - reflexivity.
  - repeat constructor.
Defined.

(** C9, the claim as stated fails: on eighteen vertices of equal cost,
    sorted as they stand, numpy's quicksort moves the rows of the simplex;
    the second row becomes the former row 15. *)
Lemma do_sort_ties_counterexample :
  argsort_spec argsort_quick
  /\ fun_simplex ties = Some (repeat 1 18)
  /\ length (repeat 1 18) = length (simplex ties)
  /\ StronglySorted (fun a b => (a <=? b) = true) (repeat 1 18)
  /\ exists self',
       do_sort argsort_quick ties = Some self'
       /\ fun_simplex self' = fun_simplex ties
       /\ nth_error (simplex self') 1 = nth_error (simplex ties) 15
       /\ self' <> ties.
Proof.
  split; [exact argsort_quick_spec|].
  split; [reflexivity|]. split; [reflexivity|].
  split; [apply strongly_sortedb_sound; vm_compute; reflexivity|].
  eexists. split; [vm_compute; reflexivity|].
  split; [reflexivity|]. split; [reflexivity|].
  intros H.
  apply (f_equal (fun s => match simplex s with
                           | _ :: (c :: _) :: _ => c <? 2
                           | _ => false
                           end)) in H.
  vm_compute in H. discriminate.
Qed.

(** ** What a phase leaves untouched *)

Lemma check_finished_inv (s s' : NelderMead) :
  check_finished s = Some s' -> s' = set_finished s (finished s').
Proof.
  rewrite check_finished_converged.
  destruct (converged _ _ _ _); cbn; [|discriminate].
  intros [= <-]. reflexivity.
Qed.

Lemma do_sort_inv (argsort : Np.vec -> list nat) (s s' : NelderMead) :
  do_sort argsort s = Some s' ->
  exists f f' m,
    fun_simplex s = Some f
    /\ Np.take f (argsort f) = Some f'
    /\ Np.take (simplex s) (argsort f) = Some m
    /\ s' = set_simplex (set_fun_simplex s (Some f')) m.
Proof.
  unfold do_sort. destruct (fun_simplex s) as [f|]; [|discriminate].
  destruct (Np.take f (argsort f)) as [f'|] eqn:Ef; [|discriminate]. fields.
  destruct (Np.take (simplex s) (argsort f)) as [m|] eqn:Em; [|discriminate].
  intros [= <-]. exists f, f', m. auto.
Qed.

Lemma update_last_inv (s s' : NelderMead) (x : Np.vec) (c : float) :
  _update_last s x c = Some s' ->
  exists w x' f,
    Np.last_opt (simplex s) = Some w
    /\ Np.broadcast_to (length w) x = Some x'
    /\ fun_simplex s = Some f
    /\ f <> []
    /\ s' = set_fun_simplex (set_simplex s (Np.but_last (simplex s) ++ [x']))
                            (Some (Np.but_last f ++ [c])).
Proof.
  unfold _update_last, Np.set_last_row.
  destruct (Np.last_opt (simplex s)) as [w|] eqn:Ew; [|discriminate].
  destruct (Np.broadcast_to (length w) x) as [x'|] eqn:Ex; [|discriminate].
  destruct (simplex s) as [|r m] eqn:Es; [discriminate|]. cbn [Np.set_last].
  destruct (fun_simplex s) as [f|]; [|discriminate].
  destruct f as [|f0 f]; [discriminate|]. cbn [Np.set_last].
  intros [= <-]. exists w, x', (f0 :: f).
  split; [reflexivity|]. split; [exact Ex|]. split; [reflexivity|].
  split; [discriminate|reflexivity].
Qed.

(** ** C2: the two control-flow pointers *)

(** A submit phase clears the submit pointer and sets the update pointer. *)
Lemma create_inputs_pointers
    (argsort : Np.vec -> list nat) (self self' : NelderMead) (ins : list input) :
  _create_inputs argsort self = Some (self', ins) ->
  next_submit self' = None
  /\ next_update self' <> None
  /\ (next_update self' = Some Finalize -> finished self' = true)
  /\ (next_update self' <> Some Finalize -> finished self' = finished self
                                           \/ next_submit self = Some New_iter).
Proof.
  unfold _create_inputs.
  destruct (next_submit self) as [[]|] eqn:Ens; try discriminate;
    unfold submit_initialize, new_iter, submit_expansion, submit_contraction,
      submit_inside_contraction, submit_shrink, submit_method; intros H.
  - injection H as <- <-. fields. repeat split; auto; discriminate.
  - destruct (do_sort argsort _) as [s1|] eqn:E1; [|discriminate].
    destruct (check_finished s1) as [s2|] eqn:E2; [|discriminate].
    apply do_sort_inv in E1. destruct E1 as (f & f' & m & _ & _ & _ & ->).
    apply check_finished_inv in E2. rewrite E2 in H. fields.
    destruct (finished s2) eqn:Efin.
    + injection H as <- <-. fields. repeat split; auto; discriminate.
    + inv_option H. injection H as <- <-. fields.
      repeat split; auto; discriminate.
  - inv_option H. injection H as <- <-. fields. repeat split; auto; discriminate.
  - inv_option H. injection H as <- <-. fields. repeat split; auto; discriminate.
  - inv_option H. injection H as <- <-. fields. repeat split; auto; discriminate.
  - inv_option H. inv_option H. injection H as <- <-. fields.
    repeat split; auto; discriminate.
Qed.

(** An update phase clears the update pointer and sets the submit pointer,
    except for [finalize], which leaves both cleared. *)
Lemma update_pointers (self self' : NelderMead) (outs : outputs) :
  _update self outs = Some self' ->
  next_update self' = None
  /\ finished self' = finished self
  /\ (next_update self <> Some Finalize -> next_submit self' <> None)
  /\ (next_update self = Some Finalize -> next_submit self' = None).
Proof.
  unfold _update.
  destruct (next_update self) as [[]|] eqn:Enu; try discriminate;
    unfold update_initialize, finalize, choose_step, update_expansion,
      update_contraction, update_inside_contraction, update_shrink,
      update_method; intros H;
    repeat match type of H with
      | match ?e with Some _ => _ | None => None end = Some _ =>
          let E := fresh "E" in destruct e eqn:E; [|discriminate H]
      | (let '(_, _) := ?p in _) = Some _ => destruct p
      | (if ?e then _ else _) = Some _ => destruct e
      end;
    repeat match goal with
      | E : _update_last _ _ _ = Some _ |- _ =>
          apply update_last_inv in E;
          destruct E as (? & ? & ? & _ & _ & _ & _ & ->)
      end;
    try (injection H as <-); fields;
    repeat split; auto; try discriminate; try congruence.
Qed.

Lemma fresh_init (kw : kwargs) (self : NelderMead) :
  fresh kw -> __init__ kw None = Some self ->
  simplex self = kw_simplex kw
  /\ simplex_shape_ok (simplex self) = true
  /\ fun_simplex self = None
  /\ extra_points self = []
  /\ next_submit self = Some Submit_initialize
  /\ next_update self = None
  /\ finished self = false
  /\ _result_mapping self = [].
Proof.
  intros (Hf & He & Hs & Hu & Hd). unfold __init__.
  destruct (simplex_shape_ok (kw_simplex kw)) eqn:E; [|discriminate].
  intros [= <-]. fields. rewrite Hf, He, Hs, Hu, Hd. cbn. auto 10.
Qed.

Lemma create_inputs_inv (argsort : Np.vec -> list nat) (keys : list Z)
    (self self' : NelderMead) (ins : dict Z input) :
  create_inputs argsort keys self = Some (self', ins) ->
  exists s xs,
    _create_inputs argsort self = Some (s, xs)
    /\ length keys = length xs
    /\ ins = combine keys xs
    /\ self' = set_result_mapping s (add_inputs (_result_mapping s) keys xs).
Proof.
  unfold create_inputs.
  destruct (_create_inputs argsort self) as [[s xs]|]; [|discriminate].
  destruct (Nat.eqb_spec (length keys) (length xs)); [|discriminate].
  intros [= <- <-]. exists s, xs. auto.
Qed.

Lemma pointer_invariant
    (argsort : Np.vec -> list nat) (ok : float -> Prop) (self : NelderMead) :
  reachable argsort ok self ->
  (next_submit self <> None /\ next_update self = None)
  \/ (next_submit self = None /\ next_update self <> None
      /\ (next_update self = Some Finalize -> finished self = true))
  \/ (next_submit self = None /\ next_update self = None /\ finished self = true).
Proof.
  intros H.
  induction H as [kw self Hfresh Hinit
                 |self self' keys ins _ IH _ _ Hstep
                 |self self' outs _ IH _ Hstep].
  - destruct (fresh_init kw self Hfresh Hinit) as (_ & _ & _ & _ & Hs & Hu & _).
    left. rewrite Hs, Hu. split; [discriminate|reflexivity].
  - apply create_inputs_inv in Hstep. destruct Hstep as (s & xs & Hs & _ & _ & ->).
    apply create_inputs_pointers in Hs. fields. tauto.
  - unfold update in Hstep. apply update_pointers in Hstep. fields.
    destruct Hstep as (Hu & Hfin & Hn & Hf).
    destruct (next_update self) as [[]|] eqn:E;
      try (left; split; [apply Hn; discriminate|exact Hu]).
    right; right. rewrite Hfin.
    destruct IH as [[_ IH]|[(_ & _ & IH)|(_ & IH & _)]]; try discriminate.
    auto.
Qed.

(** C2 (amended).  In every state of a run exactly one of the two pointers
    [next_submit] and [next_update] is set, up to and including the state
    in which [finalize] is the pending update; once [finalize] has run both
    pointers are cleared and the engine is finished.  A submit phase clears
    the submit pointer and sets the update pointer; an update phase clears
    the update pointer and sets the submit pointer, except for [finalize],
    which sets none. *)
Theorem pointers_exactly_one
    (argsort : Np.vec -> list nat) (ok : float -> Prop) (self : NelderMead) :
  reachable argsort ok self ->
  ((next_submit self <> None /\ next_update self = None)
   \/ (next_submit self = None /\ next_update self <> None)
   \/ (next_submit self = None /\ next_update self = None /\ finished self = true))
  /\ (forall self' ins,
        _create_inputs argsort self = Some (self', ins) ->
        next_submit self' = None /\ next_update self' <> None)
  /\ (forall outs self',
        _update self outs = Some self' ->
        next_update self' = None
        /\ (next_update self <> Some Finalize -> next_submit self' <> None)
        /\ (next_update self = Some Finalize -> next_submit self' = None)).
Proof.
  intros H. split; [|split].
  - pose proof (pointer_invariant argsort ok self H). tauto.
  - intros self' ins Hs. apply create_inputs_pointers in Hs. tauto.
  - intros outs self' Hu. apply update_pointers in Hu. tauto.
Qed.

Lemma flat3_reachable (ok : float -> Prop) :
  ok 1 -> reachable argsort_insertion ok flat3.
Proof.
  intros Hok.
  apply (reachable_submit _ _ flat2 flat3 [] []); [|constructor|intros k []|reflexivity].
  apply (reachable_update _ _ flat1 flat2 flat_outputs); [| |reflexivity].
  - apply (reachable_submit _ _ flat0 flat1 [0%Z; 1%Z]
             [(0%Z, _to_input_list [0]); (1%Z, _to_input_list [0x1p-20])]).
    + apply (reachable_init _ _ flat_kwargs); [|reflexivity].
      repeat split.
    + repeat constructor; cbn; intuition discriminate.
    + intros k _ [].
    + reflexivity.
  - split; [apply Permutation_refl|].
    constructor; [exists 1; split; [reflexivity|exact Hok]|].
    constructor; [exists 1; split; [reflexivity|exact Hok]|].
    constructor.
Qed.

Lemma flat4_reachable (ok : float -> Prop) :
  ok 1 -> reachable argsort_insertion ok flat4.
Proof.
  intros Hok.
  apply (reachable_update _ _ flat3 flat4 []); [| |reflexivity].
  - apply flat3_reachable. exact Hok.
  - split; [apply Permutation_refl|constructor].
Qed.

(** C2, the claim as stated fails: after [finalize] has run, neither
    pointer is set. *)
Lemma pointers_both_null_after_finalize :
  reachable argsort_insertion (fun _ => True) flat4
  /\ next_submit flat4 = None /\ next_update flat4 = None.
Proof.
  split; [apply flat4_reachable; exact I|].
  split; reflexivity.
Qed.

Lemma pointers_exactly_one_witness :
  ((next_submit flat3 <> None /\ next_update flat3 = None)
   \/ (next_submit flat3 = None /\ next_update flat3 <> None)
   \/ (next_submit flat3 = None /\ next_update flat3 = None /\ finished flat3 = true))
  /\ (forall self' ins,
        _create_inputs argsort_insertion flat3 = Some (self', ins) ->
        next_submit self' = None /\ next_update self' <> None)
  /\ (forall outs self',
        _update flat3 outs = Some self' ->
        next_update self' = None
        /\ (next_update flat3 <> Some Finalize -> next_submit self' <> None)
        /\ (next_update flat3 = Some Finalize -> next_submit self' = None)).
Proof.
  apply (pointers_exactly_one argsort_insertion (fun _ => True) flat3).
  apply flat3_reachable. exact I.
Defined.

(** ** The shape of the simplex along a run *)

Lemma simplex_shape_ok_iff (m : Np.matrix) :
  simplex_shape_ok m = true <-> exists n, shape n m.
Proof.
  unfold simplex_shape_ok, shape. destruct m as [|r m].
  - split; [discriminate|]. intros (n & _ & H). cbn in H. lia.
  - rewrite andb_true_iff, forallb_forall, Nat.eqb_eq. split.
    + intros [Hall Hlen]. exists (length r). split; [|exact Hlen].
      rewrite Forall_forall. intros x Hx. apply Nat.eqb_eq, Hall, Hx.
    + intros (n & Hall & Hlen).
      assert (Hr : length r = n) by (inversion Hall; assumption).
      rewrite Hr. split; [|exact Hlen].
      intros x Hx. rewrite Forall_forall in Hall. apply Nat.eqb_eq, Hall, Hx.
Qed.

Lemma mapM_length {A B : Type} (g : A -> option B) (l : list A) (r : list B) :
  mapM g l = Some r -> length r = length l.
Proof.
  revert r. induction l as [|a l IH]; cbn; intros r H.
  - injection H as <-. reflexivity.
  - destruct (g a); [|discriminate]. destruct (mapM g l); [|discriminate].
    injection H as <-. cbn. f_equal. apply IH. reflexivity.
Qed.

Lemma mapM_In {A B : Type} (g : A -> option B) (l : list A) (r : list B) (b : B) :
  mapM g l = Some r -> In b r -> exists a, In a l /\ g a = Some b.
Proof.
  revert r. induction l as [|a l IH]; cbn; intros r H Hb.
  - injection H as <-. destruct Hb.
  - destruct (g a) as [b'|] eqn:Ea; [|discriminate].
    destruct (mapM g l) as [r'|]; [|discriminate].
    injection H as <-. destruct Hb as [<-|Hb].
    + exists a. auto.
    + destruct (IH r' eq_refl Hb) as (a' & Ha' & E). exists a'. auto.
Qed.

Lemma mapM_In_inv {A B : Type} (g : A -> option B) (l : list A) (r : list B) (a : A) :
  mapM g l = Some r -> In a l -> exists b, In b r /\ g a = Some b.
Proof.
  revert r. induction l as [|a' l IH]; cbn; intros r H Ha; [destruct Ha|].
  destruct (g a') as [b'|] eqn:Ea; [|discriminate].
  destruct (mapM g l) as [r'|]; [|discriminate].
  injection H as <-. destruct Ha as [->|Ha].
  - exists b'. split; [left; reflexivity|exact Ea].
  - destruct (IH r' eq_refl Ha) as (b & Hb & E). exists b. split; [right|]; assumption.
Qed.

Lemma take_In {A : Type} (a : list A) (idx : list nat) (r : list A) (x : A) :
  Np.take a idx = Some r -> In x r -> In x a.
Proof.
  intros H Hx. destruct (mapM_In _ _ _ _ H Hx) as (i & _ & E).
  eapply nth_error_In. exact E.
Qed.

Lemma sorts_length (v : Np.vec) (idx : list nat) : sorts v idx -> length idx = length v.
Proof.
  intros [Hp _]. rewrite (Permutation_length Hp). apply length_seq.
Qed.

Lemma shape_take (n : nat) (m m' : Np.matrix) (idx : list nat) :
  shape n m -> length idx = length m -> Np.take m idx = Some m' -> shape n m'.
Proof.
  intros [Hall Hlen] Hidx Ht. split.
  - rewrite Forall_forall in *. intros x Hx. apply Hall.
    eapply take_In; eassumption.
  - rewrite (mapM_length _ _ _ Ht). lia.
Qed.

Lemma but_last_length {A : Type} (l : list A) (x : A) :
  l <> [] -> length (Np.but_last l ++ [x]) = length l.
Proof.
  intros H. destruct (exists_last H) as (l' & a & ->).
  rewrite but_last_app, !length_app. reflexivity.
Qed.

Lemma last_opt_In {A : Type} (l : list A) (a : A) : Np.last_opt l = Some a -> In a l.
Proof.
  unfold Np.last_opt. intros H. apply nth_error_In in H.
  apply in_rev. exact H.
Qed.

Lemma but_last_In {A : Type} (l : list A) (a : A) : In a (Np.but_last l) -> In a l.
Proof.
  destruct l as [|x l]; [auto|]. intros H.
  destruct (exists_last (l := x :: l)) as (l' & b & E); [discriminate|].
  rewrite E in *. rewrite but_last_app in H. apply in_or_app. auto.
Qed.

Lemma broadcast_to_length (n : nat) (x x' : Np.vec) :
  Np.broadcast_to n x = Some x' -> length x' = n.
Proof.
  unfold Np.broadcast_to. destruct (Nat.eqb_spec (length x) n) as [E|_].
  - intros [= <-]. exact E.
  - destruct x as [|c [|]]; try discriminate.
    intros [= <-]. apply repeat_length.
Qed.

Lemma shape_set_last (n : nat) (m : Np.matrix) (w x x' : Np.vec) :
  shape n m -> Np.last_opt m = Some w -> Np.broadcast_to (length w) x = Some x' ->
  shape n (Np.but_last m ++ [x']).
Proof.
  intros [Hall Hlen] Hw Hx. split.
  - rewrite Forall_forall in *. intros r Hr. apply in_app_or in Hr.
    destruct Hr as [Hr|[<-|[]]].
    + apply Hall, but_last_In, Hr.
    + rewrite (broadcast_to_length _ _ _ Hx). apply Hall, last_opt_In, Hw.
  - rewrite but_last_length; [exact Hlen|].
    destruct m; [discriminate|discriminate].
Qed.

Lemma shape_shrink (n : nat) (best : Np.vec) (m : Np.matrix) :
  shape n (best :: m) ->
  shape n (best :: map (fun r => Np.vadd best (Np.scale SIGMA (Np.vsub r best))) m).
Proof.
  intros [Hall Hlen]. inversion Hall as [|? ? Hb Hm]; subst. split.
  - constructor; [reflexivity|].
    rewrite Forall_map. eapply Forall_impl; [|exact Hm].
    intros r Hr. cbn beta. unfold Np.vadd, Np.vsub, Np.scale.
    rewrite map2_length; [reflexivity|].
    rewrite length_map, map2_length; congruence.
  - cbn in *. rewrite length_map. exact Hlen.
Qed.

Lemma set_tail_length (a v a' : Np.vec) : set_tail a v = Some a' -> length a' = length a.
Proof.
  unfold set_tail.
  destruct (Np.broadcast_to (length (tl a)) v) as [v'|] eqn:E; [|discriminate].
  intros [= <-]. apply broadcast_to_length in E.
  rewrite length_app, E. destruct a; reflexivity.
Qed.

Lemma pending_app (rm rm' : ResultMapping) : pending (rm ++ rm') = pending rm ++ pending rm'.
Proof. unfold pending. rewrite filter_app, map_app. reflexivity. Qed.

Lemma pending_new (keys : list Z) (xs : list input) :
  length keys = length xs ->
  pending (map (fun ki => (fst ki, {| Result_input := snd ki; Result_output := None |}))
               (combine keys xs)) = keys.
Proof.
  revert xs. induction keys as [|k keys IH]; intros [|x xs] H; cbn in *; try lia; auto.
  unfold pending in *. cbn. f_equal. apply IH. lia.
Qed.

Lemma pending_add_inputs (rm : ResultMapping) (keys : list Z) (xs : list input) :
  length keys = length xs ->
  pending (add_inputs rm keys xs) = pending rm ++ keys.
Proof.
  intros H. unfold add_inputs. rewrite pending_app, pending_new; auto.
Qed.

Lemma get_values_length (self : NelderMead) (outs : outputs) (values : Np.vec) :
  _get_values self outs = Some values -> length values = length outs.
Proof.
  unfold _get_values. intros H. rewrite (mapM_length _ _ _ H).
  apply Permutation_length, sorted_items_perm.
Qed.

Lemma update_last_shape (s s' : NelderMead) (x : Np.vec) (c : float) (n : nat) :
  _update_last s x c = Some s' ->
  shape n (simplex s) ->
  (exists f, fun_simplex s = Some f /\ length f = length (simplex s)) ->
  shape n (simplex s')
  /\ (exists f, fun_simplex s' = Some f /\ length f = length (simplex s'))
  /\ next_submit s' = next_submit s /\ next_update s' = next_update s
  /\ _result_mapping s' = _result_mapping s.
Proof.
  intros H Hshape (f & Hf & Hlen).
  apply update_last_inv in H.
  destruct H as (w & x' & f' & Hw & Hx & Hf' & Hne & ->). fields.
  rewrite Hf in Hf'. injection Hf' as <-.
  pose proof (shape_set_last n _ _ _ _ Hshape Hw Hx) as Hs.
  split; [exact Hs|]. split; [|auto].
  exists (Np.but_last f ++ [c]). split; [reflexivity|].
  rewrite but_last_length by exact Hne.
  destruct Hs as [_ Hs]. destruct Hshape as [_ Hshape]. lia.
Qed.

Lemma shape_invariant_reachable
    (argsort : Np.vec -> list nat) (ok : float -> Prop) (self : NelderMead) :
  argsort_spec argsort -> reachable argsort ok self -> shape_invariant self.
Proof.
  intros Hspec H.
  induction H as [kw self Hfresh Hinit
                 |self self' keys ins Hreach IH _ _ Hstep
                 |self self' outs Hreach IH Hdel Hstep].
  - destruct (fresh_init kw self Hfresh Hinit)
      as (_ & Hok & _ & _ & Hs & _ & _ & Hrm).
    split; [apply simplex_shape_ok_iff; exact Hok|].
    rewrite Hs. exact Hrm.
  - apply create_inputs_inv in Hstep.
    destruct Hstep as (s & xs & Hs & Hlen & _ & ->).
    destruct IH as [[n Hshape] IH].
    pose proof (pointer_invariant _ _ _ Hreach) as Hptr.
    unfold _create_inputs in Hs.
    destruct (next_submit self) as [[]|] eqn:Ens; try discriminate;
      (destruct Hptr as [[_ Hnu]|[(Hptr & _)|(Hptr & _)]]; [|discriminate Hptr..]);
      try rewrite Hnu in IH;
      unfold submit_initialize, new_iter, submit_expansion, submit_contraction,
        submit_inside_contraction, submit_shrink, submit_method in Hs.
    + injection Hs as <- <-. unfold shape_invariant. fields.
      split; [exists n; exact Hshape|].
      rewrite IH, pending_add_inputs by exact Hlen. cbn [pending filter map app].
      rewrite Hlen, length_map. reflexivity.
    + destruct (do_sort argsort _) as [s1|] eqn:E1; [|discriminate].
      destruct (check_finished s1) as [s2|] eqn:E2; [|discriminate].
      apply do_sort_inv in E1. destruct E1 as (f & f' & m & Hf & Hf' & Hm & ->).
      apply check_finished_inv in E2. rewrite E2 in Hs. fields.
      destruct IH as (f0 & Hf0 & Hlen0). rewrite Hf in Hf0. injection Hf0 as <-.
      pose proof (sorts_length _ _ (Hspec f)) as Hidx.
      assert (Hshape' : shape n m)
        by (eapply shape_take; [exact Hshape| |exact Hm]; congruence).
      assert (Hlen' : length f' = length m).
      { rewrite (mapM_length _ _ _ Hf'), (mapM_length _ _ _ Hm). reflexivity. }
      destruct (finished s2).
      * injection Hs as <- <-. unfold shape_invariant. fields.
        split; [exists n; exact Hshape'|]. exists f'. auto.
      * destruct (Np.last_opt m); [|discriminate].
        injection Hs as <- <-. unfold shape_invariant. fields.
        split; [exists n; exact Hshape'|]. exists f'. auto.
    + destruct (Np.last_opt _); [|discriminate].
      injection Hs as <- <-. unfold shape_invariant. fields.
      split; [exists n; exact Hshape|exact IH].
    + destruct (Np.last_opt _); [|discriminate].
      injection Hs as <- <-. unfold shape_invariant. fields.
      split; [exists n; exact Hshape|exact IH].
    + destruct (Np.last_opt _); [|discriminate].
      injection Hs as <- <-. unfold shape_invariant. fields.
      split; [exists n; exact Hshape|exact IH].
    + fields. destruct (simplex self) as [|best m] eqn:Em; [discriminate|].
      cbn [hd_error tl] in Hs.
      destruct (fun_simplex self) as [f|] eqn:Ef; [|discriminate].
      injection Hs as <- <-. unfold shape_invariant. fields.
      split; [exists n; apply shape_shrink; exact Hshape|].
      destruct IH as (f0 & Hf0 & Hlen0). injection Hf0 as <-.
      eexists. split; [reflexivity|].
      cbn [length]. rewrite length_app, !length_map.
      cbn [length] in Hlen0. rewrite <- Hlen0. destruct f; reflexivity.
  - unfold update in Hstep.
    destruct IH as [[n Hshape] IH].
    pose proof (pointer_invariant _ _ _ Hreach) as Hptr.
    destruct Hdel as [Hperm _].
    unfold _update in Hstep. fields.
    destruct (next_update self) as [[]|] eqn:Enu; try discriminate;
      (destruct Hptr as [[_ Hptr]|[(Hns & _)|(_ & Hptr & _)]];
         [discriminate Hptr| |discriminate Hptr]);
      try rewrite Hns in IH;
      unfold update_initialize, finalize, choose_step, update_expansion,
        update_contraction, update_inside_contraction, update_shrink,
        update_method in Hstep; fields.
    + destruct (_get_values _ outs) as [values|] eqn:Ev; [|discriminate].
      injection Hstep as <-. unfold shape_invariant. fields.
      split; [exists n; exact Hshape|].
      exists values. split; [reflexivity|].
      rewrite (get_values_length _ _ _ Ev), <- IH.
      rewrite <- (Permutation_length Hperm). symmetry. apply length_map.
    + injection Hstep as <-. unfold shape_invariant. fields.
      split; [exists n; exact Hshape|exact IH].
    + destruct (_get_single_result _ outs) as [[xr fxr]|]; [|discriminate]. fields.
      destruct IH as (f & Hf & Hlen). rewrite Hf in Hstep.
      destruct (hd_error f); [|discriminate].
      destruct (fxr <? _).
      { injection Hstep as <-. unfold shape_invariant. fields.
        split; [exists n; exact Hshape|]. exists f. auto. }
      destruct (Np.last2_opt f); [|discriminate].
      destruct (fxr <? _).
      { destruct (_update_last _ xr fxr) as [s1|] eqn:E1; [|discriminate].
        injection Hstep as <-.
        eapply update_last_shape in E1; fields; eauto.
        destruct E1 as (Hs1 & Hf1 & Hns1 & Hnu1 & Hrm1).
        unfold shape_invariant. fields. rewrite Hnu1.
        split; [exists n; exact Hs1|exact Hf1]. }
      destruct (Np.last_opt f); [|discriminate].
      destruct (fxr <? _); injection Hstep as <-; unfold shape_invariant; fields;
        (split; [exists n; exact Hshape|]; exists f; auto).
    + destruct (_get_single_result _ outs) as [[xe fxe]|]; [|discriminate]. fields.
      destruct (dict_get (extra_points self) "xr") as [[xr fxr]|]; [|discriminate].
      destruct (fxe <? fxr);
        (eapply update_last_shape in Hstep; fields; eauto;
         destruct Hstep as (Hs1 & Hf1 & Hns1 & Hnu1 & Hrm1);
         unfold shape_invariant; rewrite Hns1, Hnu1; fields;
         split; [exists n; exact Hs1|exact Hf1]).
    + destruct (_get_single_result _ outs) as [[xc fxc]|]; [|discriminate]. fields.
      destruct (dict_get (extra_points self) "xr") as [[xr fxr]|]; [|discriminate].
      destruct (fxc <? fxr).
      { destruct (_update_last _ xc fxc) as [s1|] eqn:E1; [|discriminate].
        injection Hstep as <-.
        eapply update_last_shape in E1; fields; eauto.
        destruct E1 as (Hs1 & Hf1 & Hns1 & Hnu1 & Hrm1).
        unfold shape_invariant. fields. rewrite Hnu1.
        split; [exists n; exact Hs1|exact Hf1]. }
      injection Hstep as <-. unfold shape_invariant. fields.
      split; [exists n; exact Hshape|exact IH].
    + destruct (_get_single_result _ outs) as [[xcc fxcc]|]; [|discriminate]. fields.
      destruct IH as (f & Hf & Hlen). rewrite Hf in Hstep.
      destruct (Np.last_opt f); [|discriminate].
      destruct (fxcc <? _).
      { destruct (_update_last _ xcc fxcc) as [s1|] eqn:E1; [|discriminate].
        injection Hstep as <-.
        eapply update_last_shape in E1; fields; eauto.
        destruct E1 as (Hs1 & Hf1 & Hns1 & Hnu1 & Hrm1).
        unfold shape_invariant. fields. rewrite Hnu1.
        split; [exists n; exact Hs1|exact Hf1]. }
      injection Hstep as <-. unfold shape_invariant. fields.
      split; [exists n; exact Hshape|]. exists f. auto.
    + destruct (_get_values _ outs) as [values|] eqn:Ev; [|discriminate].
      destruct IH as (f & Hf & Hlen). rewrite Hf in Hstep.
      destruct (set_tail f values) as [f'|] eqn:Et; [|discriminate].
      injection Hstep as <-. unfold shape_invariant. fields.
      split; [exists n; exact Hshape|].
      exists f'. split; [reflexivity|].
      rewrite (set_tail_length _ _ _ Et). exact Hlen.
Qed.

(** ** C6: the round trip through the serialised state *)

Lemma init_state (self : NelderMead) :
  simplex_shape_ok (simplex self) = true ->
  __init__ (_state self) (Some (_result_mapping self)) = Some self.
Proof.
  intros H. unfold __init__, _state. cbn. rewrite H.
  destruct self; reflexivity.
Qed.

Lemma flat1_reachable (ok : float -> Prop) : reachable argsort_insertion ok flat1.
Proof.
  apply (reachable_submit _ _ flat0 flat1 [0%Z; 1%Z]
           [(0%Z, _to_input_list [0]); (1%Z, _to_input_list [0x1p-20])]).
  - apply (reachable_init _ _ flat_kwargs); [|reflexivity].
    repeat split.
  - repeat constructor; cbn; intuition discriminate.
  - intros k _ [].
  - reflexivity.
Qed.

(** An engine that waits for results is resumed by the update that reads
    them.  The update phases read the submitted point in the result
    mapping: without the mapping, choose-step raises. *)
Example replay_resumes :
  next_update flat1 = Some Update_initialize
  /\ replay argsort_insertion flat1 [Update flat_outputs; Create_inputs []]
     = [Some []]
  /\ replay argsort_insertion triangle
       [Update [(7%Z, cost 1.5)]; Create_inputs [8%Z]]
     = [Some [(8%Z, _to_input_list [0; -1])]]
  /\ replay argsort_insertion (set_result_mapping triangle [])
       [Update [(7%Z, cost 1.5)]; Create_inputs [8%Z]]
     = [None].
Proof. repeat split. Qed.

(** C6.  In every state of a run, whether it waits for a call of
    [create_inputs] or for the results of a batch, the constructor applied
    to the serialised state (and to the result mapping, which the
    collaborator keeps) returns an engine with the same fields and the same
    result mapping, whose outputs of [create_inputs] are those of the
    original engine on every sequence of calls replayed to both. *)
Theorem state_round_trip
    (argsort : Np.vec -> list nat) (ok : float -> Prop) (self : NelderMead) :
  argsort_spec argsort ->
  reachable argsort ok self ->
  exists self',
    __init__ (_state self) (Some (_result_mapping self)) = Some self'
    /\ _state self' = _state self
    /\ _result_mapping self' = _result_mapping self
    /\ forall calls, replay argsort self' calls = replay argsort self calls.
Proof.
  intros Hspec H.
  destruct (shape_invariant_reachable argsort ok self Hspec H) as [Hshape _].
  apply simplex_shape_ok_iff in Hshape.
  exists self. split; [apply init_state; exact Hshape|].
  repeat split.
Qed.

Lemma state_round_trip_witness :
  exists self',
    __init__ (_state flat1) (Some (_result_mapping flat1)) = Some self'
    /\ _state self' = _state flat1
    /\ _result_mapping self' = _result_mapping flat1
    /\ forall calls,
         replay argsort_insertion self' calls = replay argsort_insertion flat1 calls.
Proof.
  apply (state_round_trip argsort_insertion (fun _ => True) flat1).
  - exact argsort_insertion_spec.
  - apply flat1_reachable.
Defined.

(** ** The result mapping along a run *)

Lemma idx_get_In {V : Type} (d : dict Z V) (k : Z) (v : V) :
  idx_get d k = Some v -> In (k, v) d.
Proof.
  induction d as [|[k' v'] d IH]; cbn; [discriminate|].
  destruct (Z.eqb_spec k k') as [->|_].
  - intros [= ->]. left. reflexivity.
  - intros H. right. apply IH, H.
Qed.

Lemma idx_get_NoDup {V : Type} (d : dict Z V) (k : Z) (v : V) :
  NoDup (map fst d) -> In (k, v) d -> idx_get d k = Some v.
Proof.
  induction d as [|[k' v'] d IH]; cbn; intros Hnd Hin; [destruct Hin|].
  inversion Hnd as [|? ? Hk Hd]; subst.
  destruct Hin as [[= -> ->]|Hin].
  - rewrite Z.eqb_refl. reflexivity.
  - destruct (Z.eqb_spec k k') as [->|_]; [|apply IH; assumption].
    exfalso. apply Hk. apply (in_map fst) in Hin. exact Hin.
Qed.

Lemma idx_get_None {V : Type} (d : dict Z V) (k : Z) :
  ~ In k (map fst d) -> idx_get d k = None.
Proof.
  induction d as [|[k' v'] d IH]; cbn; intros H; [reflexivity|].
  destruct (Z.eqb_spec k k') as [->|_]; [exfalso; auto|].
  apply IH. auto.
Qed.

Lemma idx_get_None_inv {V : Type} (d : dict Z V) (k : Z) :
  idx_get d k = None -> ~ In k (map fst d).
Proof.
  induction d as [|[k' v'] d IH]; cbn; intros H; [tauto|].
  destruct (Z.eqb_spec k k') as [->|Hne]; [discriminate|].
  intros [E|Hin]; [congruence|]. apply IH; assumption.
Qed.

Lemma NoDup_keys_eq {V : Type} (d : dict Z V) (k : Z) (v v' : V) :
  NoDup (map fst d) -> In (k, v) d -> In (k, v') d -> v = v'.
Proof.
  intros Hnd H H'.
  pose proof (idx_get_NoDup d k v Hnd H) as E.
  pose proof (idx_get_NoDup d k v' Hnd H') as E'. congruence.
Qed.

Lemma pending_In (rm : ResultMapping) (k : Z) :
  In k (pending rm) <-> exists r, In (k, r) rm /\ Result_output r = None.
Proof.
  unfold pending. rewrite in_map_iff. split.
  - intros ([k' r] & <- & H). apply filter_In in H. destruct H as [H E].
    exists r. split; [exact H|]. unfold is_pending in E. cbn in *.
    destruct (Result_output r); [discriminate|reflexivity].
  - intros (r & H & E). exists (k, r). split; [reflexivity|].
    apply filter_In. split; [exact H|]. unfold is_pending. cbn. rewrite E. reflexivity.
Qed.

Lemma pending_nil_iff (rm : ResultMapping) :
  pending rm = [] <-> forall k r, In (k, r) rm -> Result_output r <> None.
Proof.
  split.
  - intros H k r Hin E.
    assert (Hk : In k (pending rm)) by (apply pending_In; eauto).
    rewrite H in Hk. destruct Hk.
  - intros H. destruct (pending rm) as [|k l] eqn:E; [reflexivity|].
    assert (Hk : In k (pending rm)) by (rewrite E; left; reflexivity).
    apply pending_In in Hk. destruct Hk as (r & Hin & Hr).
    exfalso. eapply H; eassumption.
Qed.

Lemma add_inputs_keys (rm : ResultMapping) (keys : list Z) (xs : list input) :
  length keys = length xs ->
  map fst (add_inputs rm keys xs) = map fst rm ++ keys.
Proof.
  intros H. unfold add_inputs. rewrite map_app, map_map. cbn. f_equal.
  revert xs H. induction keys as [|k keys IH]; intros [|x xs] H; cbn in *; try lia; auto.
  f_equal. apply IH. lia.
Qed.

Lemma add_inputs_In (rm : ResultMapping) (keys : list Z) (xs : list input)
    (k : Z) (r : Result) :
  In (k, r) (add_inputs rm keys xs) ->
  In (k, r) rm \/ (In k keys /\ Result_output r = None).
Proof.
  unfold add_inputs. intros H. apply in_app_or in H.
  destruct H as [H|H]; [left; exact H|right].
  apply in_map_iff in H. destruct H as ([k' x] & [= <- <-] & H).
  split; [|reflexivity]. apply in_combine_l in H. exact H.
Qed.

Lemma delivered_add_inputs (key : string) (rm : ResultMapping)
    (keys : list Z) (xs : list input) (c : float) :
  delivered_in key (add_inputs rm keys xs) c <-> delivered_in key rm c.
Proof.
  unfold delivered_in. split; intros (k & r & Hin & Hc).
  - apply add_inputs_In in Hin. destruct Hin as [Hin|[_ E]]; [eauto|].
    unfold cost_of in Hc. rewrite E in Hc. discriminate.
  - exists k, r. split; [|exact Hc]. unfold add_inputs. apply in_or_app. auto.
Qed.

Lemma add_outputs_keys (rm : ResultMapping) (outs : outputs) :
  map fst (add_outputs rm outs) = map fst rm.
Proof.
  unfold add_outputs. rewrite map_map. apply map_ext.
  intros [k r]. cbn. destruct (idx_get outs k); reflexivity.
Qed.

Lemma add_outputs_In (rm : ResultMapping) (outs : outputs) (k : Z) (r' : Result) :
  In (k, r') (add_outputs rm outs) <->
  exists r, In (k, r) rm
    /\ match idx_get outs k with
       | Some res => r' = {| Result_input := Result_input r; Result_output := Some res |}
       | None => r' = r
       end.
Proof.
  unfold add_outputs. rewrite in_map_iff. split.
  - intros ([k0 r] & E & Hin). cbn in E.
    destruct (idx_get outs k0) as [res|] eqn:Eg; injection E as -> <-;
      exists r; rewrite Eg; auto.
  - intros (r & Hin & E). exists (k, r). split; [|exact Hin]. cbn.
    destruct (idx_get outs k); subst; reflexivity.
Qed.

Section Delivery.

Variables (key : string) (rm : ResultMapping) (outs : outputs).
Hypothesis rm_keys : NoDup (map fst rm).
Hypothesis outs_keys : Permutation (map fst outs) (pending rm).

Lemma pending_NoDup : NoDup (pending rm).
Proof.
  unfold pending. clear outs_keys.
  induction rm as [|[k r] l IH]; cbn; [constructor|].
  inversion rm_keys as [|? ? Hk Hl]; subst.
  destruct (is_pending (k, r)); cbn; [|apply IH; exact Hl].
  constructor; [|apply IH; exact Hl].
  intros Hin. apply Hk. apply in_map_iff in Hin.
  destruct Hin as ([k' r'] & E & Hin). cbn in E. subst k'.
  apply filter_In in Hin. destruct Hin as [Hin _].
  apply (in_map fst) in Hin. exact Hin.
Qed.

Lemma outs_NoDup : NoDup (map fst outs).
Proof.
  eapply Permutation_NoDup; [apply Permutation_sym; exact outs_keys|].
  apply pending_NoDup.
Qed.

Lemma delivered_untouched (k : Z) (r : Result) :
  In (k, r) rm -> Result_output r <> None -> idx_get outs k = None.
Proof.
  intros Hin Hr. apply idx_get_None. intros Hk.
  apply (Permutation_in _ outs_keys), pending_In in Hk.
  destruct Hk as (r' & Hin' & E).
  rewrite (NoDup_keys_eq rm k r r' rm_keys Hin Hin') in Hr. contradiction.
Qed.

Lemma add_outputs_pending : pending (add_outputs rm outs) = [].
Proof.
  apply pending_nil_iff. intros k r' Hin.
  apply add_outputs_In in Hin. destruct Hin as (r & Hin & E).
  destruct (idx_get outs k) as [res|] eqn:Eg.
  - subst r'. discriminate.
  - subst r'. intros Hr. apply (idx_get_None_inv outs k Eg).
    apply (Permutation_in _ (Permutation_sym outs_keys)), pending_In. eauto.
Qed.

Lemma delivered_add_outputs (c : float) :
  delivered_in key (add_outputs rm outs) c
  <-> delivered_in key rm c \/ returned_in key outs c.
Proof.
  unfold delivered_in, returned_in. split.
  - intros (k & r' & Hin & Hc).
    apply add_outputs_In in Hin. destruct Hin as (r & Hin & E).
    destruct (idx_get outs k) as [res|] eqn:Eg; subst r'.
    + right. exists k, res. split; [apply idx_get_In; exact Eg|exact Hc].
    + left. eauto.
  - intros [(k & r & Hin & Hc)|(k & res & Hin & Hc)].
    + exists k, r. split; [|exact Hc].
      apply add_outputs_In. exists r. split; [exact Hin|].
      rewrite (delivered_untouched k r Hin); [reflexivity|].
      unfold cost_of in Hc. destruct (Result_output r); [discriminate|discriminate].
    + assert (Hk : In k (pending rm)).
      { apply (Permutation_in _ outs_keys).
        apply (in_map fst) in Hin. exact Hin. }
      apply pending_In in Hk. destruct Hk as (r & Hr & _).
      exists k, {| Result_input := Result_input r; Result_output := Some res |}.
      split; [|exact Hc].
      apply add_outputs_In. exists r. split; [exact Hr|].
      rewrite (idx_get_NoDup outs k res outs_NoDup Hin). reflexivity.
Qed.

End Delivery.

(** ** The least cost along a run *)

Lemma get_single_result_inv (s : NelderMead) (outs : outputs) (x : Np.vec) (c : float) :
  _get_single_result s outs = Some (x, c) ->
  exists k res, outs = [(k, res)] /\ dict_get res (result_key s) = Some c.
Proof.
  unfold _get_single_result.
  destruct outs as [|[k res] [|]]; try discriminate.
  destruct (idx_get _ k) as [r|]; [|discriminate].
  destruct (dict_get (Result_input r) "x"); [|discriminate].
  destruct (dict_get res (result_key s)) as [c'|] eqn:E; [|discriminate].
  intros [= <- <-]. exists k, res. auto.
Qed.

Lemma returned_single (key : string) (k : Z) (res : result) (c : float) :
  dict_get res key = Some c ->
  forall c', returned_in key [(k, res)] c' <-> c' = c.
Proof.
  intros E c'. unfold returned_in. split.
  - intros (k' & res' & [[= <- <-]|[]] & E'). congruence.
  - intros ->. exists k, res. split; [left; reflexivity|exact E].
Qed.

Lemma get_values_returned (s : NelderMead) (outs : outputs) (values : Np.vec) :
  _get_values s outs = Some values ->
  forall c, In c values <-> returned_in (result_key s) outs c.
Proof.
  unfold _get_values, returned_in. intros H c. split.
  - intros Hc. destruct (mapM_In _ _ _ _ H Hc) as ([k res] & Hin & E).
    exists k, res. split; [|exact E].
    eapply Permutation_in; [apply sorted_items_perm|exact Hin].
  - intros (k & res & Hin & E).
    assert (Hin' : In (k, res) (sorted_items outs))
      by (eapply Permutation_in; [apply Permutation_sym, sorted_items_perm|exact Hin]).
    destruct (mapM_In_inv _ _ _ _ H Hin') as (b & Hb & E'). cbn in E'.
    rewrite E in E'. injection E' as <-. exact Hb.
Qed.

Lemma take_map (f f' : Np.vec) (idx : list nat) :
  Np.take f idx = Some f' -> f' = map (fun i => nth i f 0) idx.
Proof.
  unfold Np.take. revert f'. induction idx as [|i idx IH]; cbn; intros f' H.
  - injection H as <-. reflexivity.
  - destruct (nth_error f i) as [x|] eqn:E; [|discriminate].
    destruct (mapM (nth_error f) idx) as [r|]; [|discriminate].
    injection H as <-. f_equal; [|apply IH; reflexivity].
    symmetry. apply nth_error_nth. exact E.
Qed.

(** After sorting, the first value is the least one. *)
Lemma sorted_head (f f' : Np.vec) (idx : list nat) :
  sorts f idx -> Np.take f idx = Some f' -> f <> [] ->
  Forall (fun x => is_nan x = false) f ->
  exists f0, hd_error f' = Some f0 /\ In f0 f
             /\ forall x, In x f -> (f0 <=? x) = true.
Proof.
  intros [Hp Hs] Ht Hne Hnan.
  rewrite (take_map _ _ _ Ht).
  destruct idx as [|i0 rest].
  { apply Permutation_nil in Hp. destruct f; [congruence|discriminate]. }
  assert (Hi0 : i0 < length f).
  { assert (H : In i0 (seq 0 (length f)))
      by (eapply Permutation_in; [exact Hp|left; reflexivity]).
    apply in_seq in H. lia. }
  exists (nth i0 f 0). split; [reflexivity|]. split; [apply nth_In; exact Hi0|].
  rewrite Forall_forall in Hnan.
  intros x Hx. destruct (In_nth _ _ 0 Hx) as (i & Hi & <-).
  assert (Hin : In i (i0 :: rest)).
  { eapply Permutation_in; [apply Permutation_sym; exact Hp|]. apply in_seq. lia. }
  destruct Hin as [<-|Hin].
  - apply FloatOrder.leb_refl, Hnan, nth_In, Hi.
  - inversion Hs as [|? ? _ Hall]; subst. rewrite Forall_forall in Hall.
    specialize (Hall i Hin). unfold idx_le in Hall.
    apply np_le_cases in Hall. destruct Hall as [Hn|Hle]; [|exact Hle].
    rewrite (Hnan (nth i f 0)) in Hn by (apply nth_In; exact Hi). discriminate.
Qed.

Lemma hd_but_last (f : Np.vec) (c f0 : float) :
  2 <= length f -> hd_error f = Some f0 ->
  hd_error (Np.but_last f ++ [c]) = Some f0.
Proof.
  destruct f as [|a [|b f]]; cbn; intros H E; try lia. exact E.
Qed.

Lemma Forall_but_last (D : float -> Prop) (f : Np.vec) (c : float) :
  Forall D f -> D c -> Forall D (Np.but_last f ++ [c]).
Proof.
  intros Hf Hc. apply Forall_app. split.
  - rewrite Forall_forall in *. intros x Hx. apply Hf, but_last_In, Hx.
  - constructor; [exact Hc|constructor].
Qed.

Lemma hd_error_In {A : Type} (l : list A) (a : A) : hd_error l = Some a -> In a l.
Proof. destruct l; [discriminate|]. intros [= ->]. left. reflexivity. Qed.

(** Replacing the worst value by a new cost keeps the least cost among the
    values, when the first value was the least cost so far. *)
Lemma accept_covers (D D' : float -> Prop) (f : Np.vec) (f0 c : float) :
  2 <= length f -> hd_error f = Some f0 ->
  lower_bound D f0 -> is_nan c = false ->
  (forall c', D' c' -> D c' \/ c' = c) ->
  forall c', D' c' -> exists x, In x (Np.but_last f ++ [c]) /\ (x <=? c') = true.
Proof.
  intros Hlen Hhd Hlb Hc HD c' Hc'.
  destruct (HD c' Hc') as [Hold| ->].
  - exists f0. split; [|apply Hlb; exact Hold].
    apply hd_error_In. apply hd_but_last; assumption.
  - exists c. split; [|apply FloatOrder.leb_refl; exact Hc].
    apply in_or_app. right. left. reflexivity.
Qed.

Lemma converged_length (m : Np.matrix) (fs : option Np.vec) (xt ft : float) (b : bool) :
  converged m fs xt ft = Some b -> 2 <= length m.
Proof.
  unfold converged. destruct m as [|best [|r m]]; cbn [hd_error tl map]; try discriminate.
  intros _. cbn. lia.
Qed.

Lemma stage_inv_ext (D D' : float -> Prop) (st : stage) (s : NelderMead) :
  (forall c, D c <-> D' c) -> stage_inv D st s -> stage_inv D' st s.
Proof.
  intros HD.
  assert (HF : forall f, Forall D f -> Forall D' f).
  { intros f Hf. eapply Forall_impl; [|exact Hf]. intros; apply HD; assumption. }
  assert (HL : forall c0, lower_bound D c0 -> lower_bound D' c0).
  { intros c0 H c Hc. apply H, HD, Hc. }
  destruct st; cbn.
  - intros [H1 H2]. split; [|exact H2]. intros c Hc. apply (H1 c), HD, Hc.
  - intros [H1 H2]. split; [|exact H2]. intros c Hc. apply (H1 c), HD, Hc.
  - intros (H1 & f & Hf & Hall & Hc). split; [exact H1|].
    exists f. split; [exact Hf|]. split; [apply HF; exact Hall|].
    intros c Hc'. apply Hc, HD, Hc'.
  - intros (H1 & f & f0 & Hf & Hlen & Hhd & Hall & Hlb). split; [exact H1|].
    exists f, f0. auto 10.
  - intros (H1 & f & xr & fxr & Hf & Hlen & Hall & Hx & Hlb). split; [exact H1|].
    exists f, xr, fxr. auto 10.
  - intros (H1 & f & f0 & Hf & Hlen & Hhd & Hd & Hlb). split; [exact H1|].
    exists f, f0. repeat split; auto. apply HD, Hd.
  - intros (f & f0 & Hf & Hlen & Hhd & Hall & Hlb).
    exists f, f0. auto 10.
Qed.

Lemma stage_inv_rm (D : float -> Prop) (st : stage) (s : NelderMead)
    (rm : ResultMapping) :
  stage_inv D st (set_result_mapping s rm) <-> stage_inv D st s.
Proof. destruct st; reflexivity. Qed.

(** A submit phase keeps the least cost where the stage says it is. *)
Lemma submit_phase_inv
    (argsort : Np.vec -> list nat) (self s : NelderMead) (xs : list input)
    (D : float -> Prop) :
  argsort_spec argsort ->
  (forall c, D c -> is_nan c = false) ->
  (exists st, stage_of self = Some st /\ stage_inv D st self) ->
  _create_inputs argsort self = Some (s, xs) ->
  _result_mapping s = _result_mapping self
  /\ result_key s = result_key self
  /\ extra_points s = extra_points self
  /\ next_update s <> None
  /\ (next_update s = Some Finalize -> xs = [])
  /\ exists st', stage_of s = Some st' /\ stage_inv D st' s.
Proof.
  intros Hspec Hnan (st & Hst & Hinv) Hs.
  unfold _create_inputs in Hs. unfold stage_of in Hst.
  destruct (next_submit self) as [[]|] eqn:Ens; try discriminate;
    destruct (next_update self) as [nu|] eqn:Enu; try discriminate;
    injection Hst as <-;
    unfold submit_initialize, new_iter, submit_expansion, submit_contraction,
      submit_inside_contraction, submit_shrink, submit_method in Hs.
  - injection Hs as <- <-. fields.
    repeat (split; [first [reflexivity|discriminate]|]).
    exists Wait_initialize. split; [reflexivity|exact Hinv].
  - destruct (do_sort argsort _) as [s1|] eqn:E1; [|discriminate].
    destruct (check_finished s1) as [s2|] eqn:E2; [|discriminate].
    apply do_sort_inv in E1. destruct E1 as (f & f' & m & Hf & Hf' & Hm & ->).
    rewrite check_finished_converged in E2. fields.
    destruct (converged m (Some f') _ _) as [b|] eqn:Ec; [|discriminate].
    cbn [option_map] in E2. injection E2 as <-. fields.
    destruct Hinv as (_ & f0 & Hf0 & Hall & Hcov). rewrite Hf in Hf0. injection Hf0 as <-.
    assert (Hlen : 2 <= length f').
    { apply converged_length in Ec.
      rewrite (mapM_length _ _ _ Hf'), <- (mapM_length _ _ _ Hm). exact Ec. }
    assert (Hne : f <> []).
    { intros ->. pose proof (sorts_length _ _ (Hspec [])) as Hl.
      rewrite (mapM_length _ _ _ Hf'), Hl in Hlen. cbn in Hlen. lia. }
    assert (Hnan' : Forall (fun x => is_nan x = false) f).
    { eapply Forall_impl; [|exact Hall]. exact Hnan. }
    destruct (sorted_head f f' _ (Hspec f) Hf' Hne Hnan') as (f0 & Hhd & Hin0 & Hle).
    assert (Hsorted : sorted_inv D
              (set_simplex (set_fun_simplex
                 (set_next_update (set_next_submit self None) None) (Some f')) m)).
    { exists f', f0. fields. repeat split; auto.
      - rewrite Forall_forall in *. intros x Hx. apply Hall.
        eapply take_In; eassumption.
      - intros c Hc. destruct (Hcov c Hc) as (x & Hx & Hxc).
        eapply FloatOrder.leb_trans; [apply Hle; exact Hx|exact Hxc]. }
    destruct b.
    + injection Hs as <- <-. fields.
      repeat (split; [first [reflexivity|discriminate]|]).
      exists Done. split; [reflexivity|exact Hsorted].
    + destruct (Np.last_opt m); [|discriminate].
      injection Hs as <- <-. fields.
      repeat (split; [first [reflexivity|discriminate]|]).
      exists Sorted. split; [reflexivity|]. split; [reflexivity|exact Hsorted].
  - destruct (Np.last_opt _); [|discriminate].
    injection Hs as <- <-. fields.
    repeat (split; [first [reflexivity|discriminate]|]).
    exists Expanding. split; [reflexivity|exact Hinv].
  - destruct (Np.last_opt _); [|discriminate].
    injection Hs as <- <-. fields.
    repeat (split; [first [reflexivity|discriminate]|]).
    exists Sorted. split; [reflexivity|exact Hinv].
  - destruct (Np.last_opt _); [|discriminate].
    injection Hs as <- <-. fields.
    repeat (split; [first [reflexivity|discriminate]|]).
    exists Sorted. split; [reflexivity|exact Hinv].
  - fields. destruct (hd_error (simplex self)) as [best|]; [|discriminate].
    destruct Hinv as (Hfin & f & f0 & Hf & Hlen & Hhd & Hall & Hlb).
    rewrite Hf in Hs. injection Hs as <- <-. fields.
    repeat (split; [first [reflexivity|discriminate]|]).
    exists Shrunk. split; [reflexivity|]. split; [exact Hfin|].
    exists (firstn 1 f ++ map (fun _ => nan) (tl f)), f0. fields.
    split; [reflexivity|].
    destruct f as [|a f]; [discriminate|]. cbn in Hhd. injection Hhd as ->.
    cbn [firstn tl app hd_error length] in *. rewrite length_map.
    repeat split; auto.
    inversion Hall; assumption.
Qed.

Lemma broadcast_to_In (n : nat) (x x' : Np.vec) :
  Np.broadcast_to n x = Some x' ->
  (forall c, In c x' -> In c x) /\ (0 < n -> forall c, In c x -> In c x').
Proof.
  unfold Np.broadcast_to. destruct (Nat.eqb_spec (length x) n) as [E|_].
  - intros [= <-]. auto.
  - destruct x as [|c0 [|]]; try discriminate.
    intros [= <-]. split.
    + intros c Hc. apply repeat_spec in Hc. subst. left. reflexivity.
    + intros Hn c [<-|[]]. destruct n; [lia|]. left. reflexivity.
Qed.

(** The stage reached when the worst vertex is replaced by a point of cost
    [c]. *)
Lemma accept_unsorted (D' : float -> Prop) (s s' : NelderMead)
    (x : Np.vec) (c : float) (f : Np.vec) :
  _update_last s x c = Some s' ->
  fun_simplex s = Some f ->
  finished s = false ->
  Forall D' f -> D' c ->
  (forall c', D' c' -> exists y, In y (Np.but_last f ++ [c]) /\ (y <=? c') = true) ->
  stage_inv D' Unsorted s'
  /\ _result_mapping s' = _result_mapping s /\ result_key s' = result_key s
  /\ next_submit s' = next_submit s /\ next_update s' = next_update s
  /\ extra_points s' = extra_points s.
Proof.
  intros H Hf Hfin Hall Hc Hcov.
  apply update_last_inv in H.
  destruct H as (w & x' & f' & _ & _ & Hf' & _ & ->).
  rewrite Hf in Hf'. injection Hf' as <-. cbn [stage_inv]. fields.
  repeat split; auto.
  exists (Np.but_last f ++ [c]). split; [reflexivity|].
  split; [apply Forall_but_last; assumption|exact Hcov].
Qed.

Section UpdatePhase.

(** [s0] is the state in which the batch [outs] has just been recorded:
    the returned costs are those of before, [D], and those of the batch. *)
Variables (s0 : NelderMead) (outs : outputs) (D : float -> Prop).

Hypothesis Hnan : forall c, delivered s0 c -> is_nan c = false.
Hypothesis Hsplit :
  forall c, delivered s0 c -> D c \/ returned_in (result_key s0) outs c.
Hypothesis Hold : forall c, D c -> delivered s0 c.
Hypothesis Hnew : forall c, returned_in (result_key s0) outs c -> delivered s0 c.
Hypothesis Hextra :
  forall x c, dict_get (extra_points s0) "xr" = Some (x, c) -> D c.

Lemma Forall_old (f : Np.vec) : Forall D f -> Forall (delivered s0) f.
Proof. intros H. eapply Forall_impl; [|exact H]. exact Hold. Qed.

Lemma extra_old (x : Np.vec) (c : float) :
  dict_get (extra_points s0) "xr" = Some (x, c) -> delivered s0 c.
Proof. intros H. eapply Hold, Hextra, H. Qed.

Lemma update_initialize_post (self' : NelderMead) :
  stage_inv D Wait_initialize s0 ->
  update_initialize s0 outs = Some self' -> update_post s0 self'.
Proof.
  intros [Hempty Hfin]. unfold update_initialize, update_method.
  destruct (_get_values _ outs) as [values|] eqn:Ev; [|discriminate].
  intros [= <-]. unfold update_post. fields_goal.
  repeat (split; [first [reflexivity|exact extra_old]|]).
  exists Unsorted. split; [reflexivity|]. cbn [stage_inv]. fields_goal.
  split; [exact Hfin|]. exists values. split; [reflexivity|].
  pose proof (get_values_returned _ _ _ Ev) as Hv. fields_goal.
  split.
  - rewrite Forall_forall. intros c Hc. apply Hnew, Hv, Hc.
  - intros c Hc. exists c. split; [|apply FloatOrder.leb_refl, Hnan, Hc].
    destruct (Hsplit c Hc) as [Hd|Hr]; [destruct (Hempty c Hd)|].
    apply Hv, Hr.
Qed.

Lemma finalize_post (self' : NelderMead) :
  (forall c, ~ returned_in (result_key s0) outs c) ->
  stage_inv D Done s0 ->
  finalize s0 outs = Some self' -> update_post s0 self'.
Proof.
  intros Hnone (f & f0 & Hf & Hlen & Hhd & Hall & Hlb).
  unfold finalize, update_method. intros [= <-]. unfold update_post. fields_goal.
  repeat (split; [first [reflexivity|exact extra_old]|]).
  exists Done. split; [reflexivity|].
  exists f, f0. fields_goal. repeat split; auto using Forall_old.
  intros c Hc. destruct (Hsplit c Hc) as [Hd|Hr]; [apply Hlb, Hd|].
  destruct (Hnone c Hr).
Qed.

Lemma single_result (s : NelderMead) (x : Np.vec) (c : float) :
  result_key s = result_key s0 ->
  _get_single_result s outs = Some (x, c) ->
  delivered s0 c /\ is_nan c = false
  /\ forall c', delivered s0 c' -> D c' \/ c' = c.
Proof.
  intros Hkey H. apply get_single_result_inv in H.
  destruct H as (k & res & Eo & Ec). rewrite Hkey in Ec.
  assert (Hr : forall c', returned_in (result_key s0) outs c' <-> c' = c)
    by (rewrite Eo; apply returned_single; exact Ec).
  assert (Hc : delivered s0 c) by (apply Hnew, Hr; reflexivity).
  split; [exact Hc|]. split; [apply Hnan, Hc|].
  intros c' Hc'. destruct (Hsplit c' Hc') as [Hd|Hr']; [left; exact Hd|right].
  apply Hr, Hr'.
Qed.

Lemma choose_step_post (self' : NelderMead) :
  stage_inv D Sorted s0 ->
  choose_step s0 outs = Some self' -> update_post s0 self'.
Proof.
  intros (Hfin & f & f0 & Hf & Hlen & Hhd & Hall & Hlb).
  unfold choose_step, update_method.
  destruct (_get_single_result _ outs) as [[xr fxr]|] eqn:Er; [|discriminate].
  apply single_result in Er; [|reflexivity].
  destruct Er as (Hc & Hcn & Hone). fields_goal. rewrite Hf, Hhd.
  assert (Hextra' : forall x c,
             dict_get [("xr"%string, (xr, fxr))] "xr" = Some (x, c) -> delivered s0 c).
  { intros x c [= <- <-]. exact Hc. }
  assert (Hf0 : is_nan f0 = false).
  { apply Hnan, Hold. rewrite Forall_forall in Hall. apply Hall, hd_error_In, Hhd. }
  assert (Hkeep : (fxr <? f0) = false -> sorted_inv (delivered s0) s0).
  { intros E. exists f, f0. repeat split; auto using Forall_old.
    intros c Hc'. destruct (Hone c Hc') as [Hd| ->]; [apply Hlb, Hd|].
    apply FloatOrder.ltb_total; assumption. }
  destruct (fxr <? f0) eqn:E0.
  { intros [= <-]. unfold update_post. fields_goal.
    repeat (split; [first [reflexivity|exact Hextra']|]).
    exists Expanding. split; [reflexivity|]. cbn [stage_inv]. fields_goal.
    split; [exact Hfin|]. exists f, xr, fxr.
    repeat split; auto using Forall_old.
    intros c Hc'. destruct (Hone c Hc') as [Hd| ->].
    - apply FloatOrder.ltb_leb.
      eapply FloatOrder.ltb_leb_trans; [exact E0|apply Hlb, Hd].
    - apply FloatOrder.leb_refl, Hcn. }
  destruct (Np.last2_opt f) as [f2|]; [|discriminate].
  destruct (fxr <? f2).
  { destruct (_update_last _ xr fxr) as [s1|] eqn:E1; [|discriminate].
    intros [= <-].
    eapply (accept_unsorted (delivered s0) _ _ _ _ f) in E1;
      fields_goal; auto using Forall_old.
    - destruct E1 as (Hst & Hrm & Hkey & Hns & Hnu & Hex).
      unfold update_post. fields_goal. rewrite Hrm, Hkey, Hnu, Hex. fields_goal.
      repeat (split; [first [reflexivity|exact Hextra']|]).
      exists Unsorted. unfold stage_of. fields_goal. rewrite Hnu. fields_goal.
      split; [reflexivity|exact Hst].
    - eapply accept_covers; eassumption. }
  destruct (Np.last_opt f) as [f1|]; [|discriminate].
  destruct (fxr <? f1); intros [= <-]; unfold update_post; fields_goal;
    (repeat (split; [first [reflexivity|exact Hextra']|]));
    exists Sorted; (split; [reflexivity|]); cbn [stage_inv]; fields_goal;
    (split; [exact Hfin|]);
    destruct (Hkeep eq_refl) as (g & g0 & Hg & ?);
    exists g, g0; fields_goal; auto.
Qed.

(** The state that [_update_last] returns in an update phase that has set
    the pointers to the new iteration. *)
Lemma accepted_post (s s' : NelderMead) (x : Np.vec) (c : float) (f : Np.vec) :
  _update_last s x c = Some s' ->
  fun_simplex s = Some f -> finished s = false ->
  _result_mapping s = _result_mapping s0 -> result_key s = result_key s0 ->
  next_submit s = Some New_iter -> next_update s = None ->
  (forall x c, dict_get (extra_points s) "xr" = Some (x, c) -> delivered s0 c) ->
  Forall (delivered s0) f -> delivered s0 c ->
  (forall c', delivered s0 c' ->
     exists y, In y (Np.but_last f ++ [c]) /\ (y <=? c') = true) ->
  update_post s0 s'.
Proof.
  intros H Hf Hfin Hrm Hkey Hns Hnu Hex Hall Hc Hcov.
  destruct (accept_unsorted (delivered s0) s s' x c f H Hf Hfin Hall Hc Hcov)
    as (Hst & Hrm' & Hkey' & Hns' & Hnu' & Hex').
  unfold update_post. rewrite Hrm', Hkey', Hnu', Hex'.
  repeat (split; [assumption|]).
  exists Unsorted. unfold stage_of. rewrite Hns', Hnu', Hns, Hnu.
  split; [reflexivity|exact Hst].
Qed.

Lemma update_expansion_post (self' : NelderMead) :
  stage_inv D Expanding s0 ->
  update_expansion s0 outs = Some self' -> update_post s0 self'.
Proof.
  intros (Hfin & f & xr & fxr & Hf & Hlen & Hall & Hx & Hlb).
  unfold update_expansion, update_method.
  destruct (_get_single_result _ outs) as [[xe fxe]|] eqn:Er; [|discriminate].
  apply single_result in Er; [|reflexivity].
  destruct Er as (Hc & Hcn & Hone). fields_goal. rewrite Hx.
  pose proof (extra_old _ _ Hx) as Hr.
  pose proof (Hnan _ Hr) as Hrn.
  destruct (fxe <? fxr) eqn:E; intros E1;
    eapply (accepted_post _ _ _ _ f) in E1; fields_goal; auto;
    try exact extra_old; try (apply Forall_old; assumption).
  - intros c Hc'. exists fxe.
    split; [apply in_or_app; right; left; reflexivity|].
    destruct (Hone c Hc') as [Hd| ->].
    + apply FloatOrder.ltb_leb.
      eapply FloatOrder.ltb_leb_trans; [exact E|apply Hlb, Hd].
    + apply FloatOrder.leb_refl, Hcn.
  - intros c Hc'. exists fxr.
    split; [apply in_or_app; right; left; reflexivity|].
    destruct (Hone c Hc') as [Hd| ->]; [apply Hlb, Hd|].
    apply FloatOrder.ltb_total; assumption.
Qed.

Lemma update_contraction_post (self' : NelderMead) :
  stage_inv D Sorted s0 ->
  update_contraction s0 outs = Some self' -> update_post s0 self'.
Proof.
  intros (Hfin & f & f0 & Hf & Hlen & Hhd & Hall & Hlb).
  unfold update_contraction, update_method.
  destruct (_get_single_result _ outs) as [[xc fxc]|] eqn:Er; [|discriminate].
  apply single_result in Er; [|reflexivity].
  destruct Er as (Hc & Hcn & Hone). fields_goal.
  destruct (dict_get (extra_points s0) "xr") as [[xr fxr]|] eqn:Hx in |- *;
    [|discriminate].
  pose proof (extra_old _ _ Hx) as Hr.
  pose proof (Hnan _ Hr) as Hrn.
  destruct (fxc <? fxr) eqn:E.
  - destruct (_update_last _ xc fxc) as [s1|] eqn:E1; [|discriminate].
    intros [= <-].
    eapply (accept_unsorted (delivered s0) _ _ _ _ f) in E1;
      fields_goal; auto using Forall_old.
    + destruct E1 as (Hst & Hrm & Hkey & Hns & Hnu & Hex).
      unfold update_post. fields_goal. rewrite Hrm, Hkey, Hnu, Hex. fields_goal.
      repeat (split; [first [reflexivity|exact extra_old]|]).
      exists Unsorted. unfold stage_of. fields_goal. rewrite Hnu. fields_goal.
      split; [reflexivity|exact Hst].
    + eapply accept_covers; eassumption.
  - intros [= <-]. unfold update_post. fields_goal.
    repeat (split; [first [reflexivity|exact extra_old]|]).
    exists Sorted. split; [reflexivity|]. cbn [stage_inv]. fields_goal.
    split; [exact Hfin|]. exists f, f0. fields_goal.
    repeat split; auto using Forall_old.
    intros c Hc'. destruct (Hone c Hc') as [Hd| ->]; [apply Hlb, Hd|].
    eapply FloatOrder.leb_trans; [apply Hlb, Hextra with (x := xr); exact Hx|].
    apply FloatOrder.ltb_total; assumption.
Qed.

Lemma update_inside_contraction_post (self' : NelderMead) :
  stage_inv D Sorted s0 ->
  update_inside_contraction s0 outs = Some self' -> update_post s0 self'.
Proof.
  intros (Hfin & f & f0 & Hf & Hlen & Hhd & Hall & Hlb).
  unfold update_inside_contraction, update_method.
  destruct (_get_single_result _ outs) as [[xcc fxcc]|] eqn:Er; [|discriminate].
  apply single_result in Er; [|reflexivity].
  destruct Er as (Hc & Hcn & Hone). fields_goal. rewrite Hf.
  destruct (Np.last_opt f) as [f1|] eqn:Hl; [|discriminate].
  assert (Hd1 : D f1).
  { rewrite Forall_forall in Hall. apply Hall, last_opt_In, Hl. }
  destruct (fxcc <? f1) eqn:E.
  - destruct (_update_last _ xcc fxcc) as [s1|] eqn:E1; [|discriminate].
    intros [= <-].
    eapply (accept_unsorted (delivered s0) _ _ _ _ f) in E1;
      fields_goal; auto using Forall_old.
    + destruct E1 as (Hst & Hrm & Hkey & Hns & Hnu & Hex).
      unfold update_post. fields_goal. rewrite Hrm, Hkey, Hnu, Hex. fields_goal.
      repeat (split; [first [reflexivity|exact extra_old]|]).
      exists Unsorted. unfold stage_of. fields_goal. rewrite Hnu. fields_goal.
      split; [reflexivity|exact Hst].
    + eapply accept_covers; eassumption.
  - intros [= <-]. unfold update_post. fields_goal.
    repeat (split; [first [reflexivity|exact extra_old]|]).
    exists Sorted. split; [reflexivity|]. cbn [stage_inv]. fields_goal.
    split; [exact Hfin|]. exists f, f0. fields_goal.
    repeat split; auto using Forall_old.
    intros c Hc'. destruct (Hone c Hc') as [Hd| ->]; [apply Hlb, Hd|].
    eapply FloatOrder.leb_trans; [apply Hlb, Hd1|].
    apply FloatOrder.ltb_total; auto.
Qed.

Lemma update_shrink_post (self' : NelderMead) :
  stage_inv D Shrunk s0 ->
  update_shrink s0 outs = Some self' -> update_post s0 self'.
Proof.
  intros (Hfin & f & f0 & Hf & Hlen & Hhd & Hd0 & Hlb).
  unfold update_shrink, update_method.
  destruct (_get_values _ outs) as [values|] eqn:Ev; [|discriminate].
  pose proof (get_values_returned _ _ _ Ev) as Hv. fields_goal. rewrite Hf.
  unfold set_tail.
  destruct (Np.broadcast_to (length (tl f)) values) as [v'|] eqn:Eb; [|discriminate].
  intros [= <-]. unfold update_post. fields_goal.
  repeat (split; [first [reflexivity|exact extra_old]|]).
  exists Unsorted. split; [reflexivity|]. cbn [stage_inv]. fields_goal.
  split; [exact Hfin|]. eexists. split; [reflexivity|].
  destruct f as [|a f]; [discriminate|]. cbn in Hhd. injection Hhd as ->.
  cbn [firstn tl app length] in *.
  destruct (broadcast_to_In _ _ _ Eb) as [Hsub Hsup].
  split.
  - constructor; [apply Hold, Hd0|].
    rewrite Forall_forall. intros c Hc. apply Hnew, Hv, Hsub, Hc.
  - intros c Hc. destruct (Hsplit c Hc) as [Hd|Hr].
    + exists f0. split; [left; reflexivity|apply Hlb, Hd].
    + exists c. split; [|apply FloatOrder.leb_refl, Hnan, Hc].
      right. apply Hsup; [lia|]. apply Hv, Hr.
Qed.

(** An update phase on the recorded batch restores the invariant. *)
Lemma update_phase_inv (self' : NelderMead) :
  (next_update s0 = Some Finalize ->
   forall c, ~ returned_in (result_key s0) outs c) ->
  (exists st, stage_of s0 = Some st /\ stage_inv D st s0) ->
  _update s0 outs = Some self' -> update_post s0 self'.
Proof.
  intros Hfinal (st & Hst & Hinv). unfold _update. unfold stage_of in Hst.
  destruct (next_update s0) as [[]|] eqn:Enu; try discriminate;
    destruct (next_submit s0) as [ns|] eqn:Ens;
    try discriminate; try (destruct ns; discriminate);
    injection Hst as <-.
  - apply update_initialize_post; exact Hinv.
  - apply finalize_post; [apply Hfinal; reflexivity|exact Hinv].
  - apply choose_step_post; exact Hinv.
  - apply update_expansion_post; exact Hinv.
  - apply update_contraction_post; exact Hinv.
  - apply update_inside_contraction_post; exact Hinv.
  - apply update_shrink_post; exact Hinv.
Qed.

End UpdatePhase.

Lemma stage_of_submit (self : NelderMead) (st : stage) :
  stage_of self = Some st -> next_submit self <> None -> next_update self = None.
Proof.
  unfold stage_of. destruct (next_submit self) as [[]|], (next_update self) as [[]|];
    try discriminate; auto; intros _ H; contradiction.
Qed.

(** Every state of a run in which no NaN cost is returned satisfies the
    invariant. *)
Lemma min_invariant_reachable (argsort : Np.vec -> list nat) (self : NelderMead) :
  argsort_spec argsort ->
  reachable argsort (fun c => is_nan c = false) self ->
  min_invariant self.
Proof.
  intros Hspec H.
  induction H as [kw self Hfresh Hinit
                 |self self' keys ins Hreach IH Hnd Hfreshk Hstep
                 |self self' outs Hreach IH Hdel Hstep].
  - destruct (fresh_init kw self Hfresh Hinit)
      as (_ & _ & _ & Hex & Hs & Hu & Hfin & Hrm).
    unfold min_invariant, delivered. rewrite Hrm, Hex.
    split; [|split; [reflexivity|split; [discriminate|]]].
    + split; [constructor|]. split.
      * intros c (k & r & [] & _).
      * intros k r [].
    + exists Start. unfold stage_of. rewrite Hs, Hu. split; [reflexivity|].
      split; [|exact Hfin]. intros c (k & r & [] & _).
  - destruct IH as ((Hkeys & Hnan & Hcost) & Hpend & Hextra & Hstage).
    apply create_inputs_inv in Hstep.
    destruct Hstep as (s & xs & Hs & Hlen & _ & ->).
    assert (Hns : next_submit self <> None).
    { unfold _create_inputs in Hs. destruct (next_submit self); [discriminate|discriminate]. }
    assert (Hnu : next_update self = None).
    { destruct Hstage as (st & Hst & _). eapply stage_of_submit; eassumption. }
    destruct (submit_phase_inv argsort self s xs (delivered self) Hspec Hnan Hstage Hs)
      as (Hrm & Hkey & Hex & Hnu' & Hfinal & st' & Hst' & Hinv').
    assert (HD : forall c, delivered self c <->
                           delivered (set_result_mapping s
                                        (add_inputs (_result_mapping s) keys xs)) c).
    { intros c. unfold delivered. fields. rewrite Hkey, Hrm.
      symmetry. apply delivered_add_inputs. }
    unfold min_invariant.
    split; [|split; [|split]].
    + fields_goal. rewrite Hkey, Hrm. split; [|split].
      * rewrite add_inputs_keys by exact Hlen. apply NoDup_app; auto.
        intros a Ha Hk. apply (Hfreshk a Hk Ha).
      * intros c Hc. apply delivered_add_inputs in Hc. apply Hnan, Hc.
      * intros k r Hin Hr. apply add_inputs_In in Hin.
        destruct Hin as [Hin|[_ E]]; [eapply Hcost; eassumption|contradiction].
    + fields_goal. rewrite Hrm. intros [E|E]; [contradiction|].
      rewrite (Hfinal E) in *. destruct keys; [|discriminate].
      unfold add_inputs. cbn. rewrite app_nil_r. apply Hpend. left. exact Hnu.
    + intros x c Hx. fields_in Hx. rewrite Hex in Hx. apply HD, (Hextra x c Hx).
    + exists st'. split; [exact Hst'|].
      apply stage_inv_rm. eapply stage_inv_ext; [exact HD|exact Hinv'].
  - destruct IH as ((Hkeys & Hnan & Hcost) & Hpend & Hextra & Hstage).
    destruct Hdel as [Hperm Hok].
    unfold update in Hstep.
    set (s0 := set_result_mapping self (add_outputs (_result_mapping self) outs)) in *.
    assert (HD : forall c, delivered s0 c <->
                   delivered self c \/ returned_in (result_key self) outs c).
    { intros c. apply delivered_add_outputs; assumption. }
    assert (Hret : forall c, returned_in (result_key self) outs c -> is_nan c = false).
    { intros c (k & res & Hin & Hc). rewrite Forall_forall in Hok.
      destruct (Hok _ Hin) as (c' & Hc' & Hn). cbn in Hc'. congruence. }
    assert (Hnan0 : forall c, delivered s0 c -> is_nan c = false).
    { intros c Hc. apply HD in Hc. destruct Hc; auto. }
    assert (Hpost : update_post s0 self').
    { apply (update_phase_inv s0 outs (delivered self));
        [exact Hnan0| | | |exact Hextra| | |exact Hstep].
      - intros c Hc. apply HD, Hc.
      - intros c Hc. apply HD. left. exact Hc.
      - intros c Hc. apply HD. right. exact Hc.
      - intros E c (k & res & Hin & _).
        rewrite Hpend in Hperm by (right; exact E).
        apply Permutation_sym, Permutation_nil in Hperm.
        destruct outs; [destruct Hin|discriminate].
      - destruct Hstage as (st & Hst & Hinv). exists st. split; [exact Hst|].
        apply stage_inv_rm. exact Hinv. }
    destruct Hpost as (Hrm & Hkey & Hnu & Hex & st' & Hst' & Hinv').
    assert (HD' : forall c, delivered s0 c <-> delivered self' c).
    { intros c. unfold delivered. rewrite Hrm, Hkey. reflexivity. }
    unfold min_invariant.
    split; [|split; [|split]].
    + rewrite Hrm, Hkey. subst s0. fields_goal. split; [|split].
      * rewrite add_outputs_keys. exact Hkeys.
      * exact Hnan0.
      * intros k r' Hin Hr. apply add_outputs_In in Hin.
        destruct Hin as (r & Hin & E).
        destruct (idx_get outs k) as [res|] eqn:Eg; subst r'.
        -- apply idx_get_In in Eg. rewrite Forall_forall in Hok.
           destruct (Hok _ Eg) as (c & Hc & _). exists c. exact Hc.
        -- eapply Hcost; eassumption.
    + intros _. rewrite Hrm. subst s0. fields_goal.
      apply add_outputs_pending; assumption.
    + intros x c Hx. apply HD', (Hex x c Hx).
    + exists st'. split; [exact Hst'|].
      eapply stage_inv_ext; [exact HD'|exact Hinv'].
Qed.

(** ** C8 and C10: the best result of a finished run *)



Lemma entry_cost_some (key : string) (k : Z) (r : Result) (kc : Z * float) :
  entry_cost key (k, r) = Some kc <-> fst kc = k /\ cost_of key r = Some (snd kc).
Proof.
  unfold entry_cost, cost_of. cbn.
  destruct (Result_output r) as [out|]; [|split; [discriminate|intros [_ H]; discriminate]].
  destruct (dict_get out key) as [c|]; [|split; [discriminate|intros [_ H]; discriminate]].
  destruct kc as [k' c']. cbn. split.
  - intros [= -> ->]. auto.
  - intros [-> [= ->]]. reflexivity.
Qed.

Lemma mapM_total {A B : Type} (g : A -> option B) (l : list A) :
  (forall a, In a l -> exists b, g a = Some b) ->
  exists r, mapM g l = Some r /\ Forall2 (fun a b => g a = Some b) l r.
Proof.
  induction l as [|a l IH]; intros H; cbn.
  - exists []. split; [reflexivity|constructor].
  - destruct (H a (or_introl eq_refl)) as (b & Hb).
    destruct IH as (r & Hr & Hall); [intros; apply H; right; assumption|].
    exists (b :: r). rewrite Hb, Hr. split; [reflexivity|].
    constructor; assumption.
Qed.












(** ** The constructor and the first batch *)

(** X1.  The constructor returns exactly when the simplex has [n + 1] rows
    of [n] entries for some [n]: an empty simplex, rows of different lengths
    or a wrong number of rows make it raise, whatever the other arguments. *)
Theorem init_accepts_simplex_shapes
    (kw : kwargs) (result_state : option ResultMapping) :
  (exists self, __init__ kw result_state = Some self /\ simplex self = kw_simplex kw)
  <-> exists n, shape n (kw_simplex kw).
Proof.
  rewrite <- simplex_shape_ok_iff. unfold __init__.
  destruct (simplex_shape_ok (kw_simplex kw)); split.
  - reflexivity.
  - intros _. eexists. split; reflexivity.
  - intros [self [H _]]. discriminate H.
  - discriminate.
Qed.

(** X2.  An engine that is built without a [next_submit] argument first
    submits the vertices of its simplex, one input [{'x': vertex}] per row
    and in the order of the rows, and then waits for their costs in
    update-initialize; the simplex and the counters are as constructed. *)
Theorem first_batch_is_simplex
    (argsort : Np.vec -> list nat) (kw : kwargs)
    (result_state : option ResultMapping) :
  simplex_shape_ok (kw_simplex kw) = true ->
  kw_next_submit kw = None ->
  exists self self',
    __init__ kw result_state = Some self
    /\ _create_inputs argsort self
       = Some (self', map _to_input_list (kw_simplex kw))
    /\ self' = set_next_update (set_next_submit self None) (Some Update_initialize)
    /\ length (map _to_input_list (kw_simplex kw))
       = (length (hd [] (kw_simplex kw)) + 1)%nat.
Proof.
  intros Hshape Hnext. unfold __init__. rewrite Hshape, Hnext.
  eexists. eexists. split; [reflexivity|].
  unfold _create_inputs. fields. cbn [default].
  unfold submit_initialize, submit_method. fields.
  split; [reflexivity|]. split; [reflexivity|].
  rewrite length_map. unfold simplex_shape_ok in Hshape.
  destruct (kw_simplex kw) as [|r m]; [discriminate|].
  apply andb_true_iff in Hshape. destruct Hshape as [_ H].
  apply Nat.eqb_eq in H. exact H.
Qed.

Lemma first_batch_is_simplex_witness :
  exists self self',
    __init__ quad_kwargs None = Some self
    /\ _create_inputs argsort_insertion self
       = Some (self', map _to_input_list (kw_simplex quad_kwargs))
    /\ self' = set_next_update (set_next_submit self None) (Some Update_initialize)
    /\ length (map _to_input_list (kw_simplex quad_kwargs))
       = (length (hd [] (kw_simplex quad_kwargs)) + 1)%nat.
Proof.
  apply (first_batch_is_simplex argsort_insertion quad_kwargs None); reflexivity.
Defined.

(** ** The update phases that read one result *)

Lemma get_single_result_some (s : NelderMead) (outs : outputs) (x : Np.vec) (c : float) :
  _get_single_result s outs = Some (x, c) ->
  exists idx res r,
    outs = [(idx, res)]
    /\ idx_get (_result_mapping s) idx = Some r
    /\ dict_get (Result_input r) "x" = Some x
    /\ dict_get res (result_key s) = Some c.
Proof.
  unfold _get_single_result. intros H.
  destruct outs as [|[idx res] [|]]; try discriminate.
  destruct (idx_get (_result_mapping s) idx) as [r|] eqn:Er; [|discriminate].
  destruct (dict_get (Result_input r) "x") as [x'|] eqn:Ex; [|discriminate].
  destruct (dict_get res (result_key s)) as [c'|] eqn:Ec; [|discriminate].
  injection H as -> ->. exists idx, res, r. auto.
Qed.

(** X3.  The four update phases that read a single result (choose-step,
    update-expansion, update-contraction and update-inside-contraction)
    return only on a batch of exactly one result whose identifier is in the
    result mapping, with an input that has an ['x'] and an output that has
    the result key; on an empty batch, a batch of two results or more, an
    unknown identifier or a missing key they raise. *)
Theorem single_result_phases_need_one_result
    (self self' : NelderMead) (outs : outputs) :
  choose_step self outs = Some self'
  \/ update_expansion self outs = Some self'
  \/ update_contraction self outs = Some self'
  \/ update_inside_contraction self outs = Some self' ->
  exists idx res r x c,
    outs = [(idx, res)]
    /\ idx_get (_result_mapping self) idx = Some r
    /\ dict_get (Result_input r) "x" = Some x
    /\ dict_get res (result_key self) = Some c.
Proof.
  unfold choose_step, update_expansion, update_contraction,
    update_inside_contraction, update_method.
  intros H.
  assert (E : exists x c,
             _get_single_result
               (set_next_update (set_next_submit self None) None) outs = Some (x, c)
             \/ _get_single_result
                  (set_next_update (set_next_submit self (Some New_iter)) None) outs
                = Some (x, c)).
  { destruct H as [H|[H|[H|H]]];
      match type of H with
      | match ?e with Some _ => _ | None => None end = Some _ =>
          destruct e as [[x c]|] eqn:E; [|discriminate H]
      end; exists x, c; auto. }
  destruct E as (x & c & [E|E]);
    apply get_single_result_some in E; fields;
    destruct E as (idx & res & r & E); exists idx, res, r, x, c; exact E.
Qed.

Lemma single_result_phases_need_one_result_witness :
  exists idx res r x c,
    [(7%Z, cost 1.5)] = [(idx, res)]
    /\ idx_get (_result_mapping triangle) idx = Some r
    /\ dict_get (Result_input r) "x" = Some x
    /\ dict_get res (result_key triangle) = Some c.
Proof.
  eapply (single_result_phases_need_one_result triangle _ [(7%Z, cost 1.5)]).
  left. reflexivity.
Defined.

(** ** The trial points of the other submit phases *)

Lemma xbar_nth (self : NelderMead) (vertices : Np.matrix) (worst : Np.vec) :
  simplex self = vertices ++ [worst] ->
  Forall (fun r => length r = length worst) vertices ->
  length (xbar self) = length worst
  /\ forall j, j < length worst -> nth j (xbar self) 0 = centroid_coord vertices j.
Proof.
  intros Hs Hrows. unfold xbar. rewrite Hs, but_last_app.
  assert (Hn : length (hd [] (vertices ++ [worst])) = length worst).
  { destruct vertices as [|v vs]; [reflexivity|].
    inversion Hrows; subst. assumption. }
  rewrite Hn. split.
  - unfold Np.average_rows. rewrite length_map.
    rewrite fold_vadd_length; rewrite repeat_length; [reflexivity|assumption].
  - intros j Hj. apply (average_rows_nth _ _ _ Hrows Hj).
Qed.

(** The coordinates of [g (a * c) (b * w)], computed entry by entry. *)
Lemma combination_nth (g : float -> float -> float) (a b : float) (c w : Np.vec) :
  length c = length w ->
  length (Np.map2 g (Np.scale a c) (Np.scale b w)) = length w
  /\ forall j, j < length w ->
       nth j (Np.map2 g (Np.scale a c) (Np.scale b w)) 0
       = g (a * nth j c 0) (b * nth j w 0).
Proof.
  intros Hc.
  assert (Hl : length (Np.scale b w) = length (Np.scale a c))
    by (unfold Np.scale; rewrite !length_map; symmetry; exact Hc).
  assert (Ha : length (Np.scale a c) = length w)
    by (unfold Np.scale; rewrite length_map; exact Hc).
  split.
  - rewrite map2_length; assumption.
  - intros j Hj. rewrite map2_nth; [|exact Hl|rewrite Ha; exact Hj].
    unfold Np.scale. rewrite !map_nth_float by lia. reflexivity.
Qed.

(** X4.  The submit-expansion phase emits exactly one point [xe], whose
    coordinate [j] is [3 * c_j - 2 * worst_j] (that is [(1 + RHO * CHI) *
    c_j - RHO * CHI * worst_j]), with [c_j] the average of the coordinates
    [j] of all the vertices but the last; it sets the update pointer to
    update-expansion and changes nothing else of the state. *)
Theorem submit_expansion_point
    (self : NelderMead) (vertices : Np.matrix) (worst : Np.vec) :
  simplex self = vertices ++ [worst] ->
  Forall (fun r => length r = length worst) vertices ->
  exists xe,
    submit_expansion self
    = Some (set_next_update (set_next_submit self None) (Some Update_expansion),
            [_to_input_list xe])
    /\ length xe = length worst
    /\ forall j, j < length worst ->
         nth j xe 0 = 3 * centroid_coord vertices j - 2 * nth j worst 0.
Proof.
  intros Hs Hrows. unfold submit_expansion, submit_method. fields.
  rewrite Hs, last_opt_app. eexists. split; [reflexivity|].
  destruct (xbar_nth (set_next_update (set_next_submit self None)
                        (Some Update_expansion)) vertices worst Hs Hrows)
    as [Hl Hc].
  destruct (combination_nth sub (1 + RHO * CHI) (RHO * CHI) _ worst Hl) as [Hl' Hn].
  split; [exact Hl'|]. intros j Hj.
  unfold Np.vsub. rewrite (Hn j Hj), (Hc j Hj). reflexivity.
Qed.

Lemma submit_expansion_point_witness :
  exists xe,
    submit_expansion triangle
    = Some (set_next_update (set_next_submit triangle None) (Some Update_expansion),
            [_to_input_list xe])
    /\ length xe = length [0; 1]
    /\ forall j, j < length [0; 1] ->
         nth j xe 0 = 3 * centroid_coord [[0; 0]; [1; 0]] j - 2 * nth j [0; 1] 0.
Proof.
  apply (submit_expansion_point triangle [[0; 0]; [1; 0]] [0; 1]).
  - reflexivity.
  - repeat constructor.
Defined.

(** X5.  The submit-contraction phase emits exactly one point [xc], whose
    coordinate [j] is [1.5 * c_j - 0.5 * worst_j] (that is [(1 + PSI * RHO)
    * c_j - PSI * RHO * worst_j]); it sets the update pointer to
    update-contraction and changes nothing else of the state. *)
Theorem submit_contraction_point
    (self : NelderMead) (vertices : Np.matrix) (worst : Np.vec) :
  simplex self = vertices ++ [worst] ->
  Forall (fun r => length r = length worst) vertices ->
  exists xc,
    submit_contraction self
    = Some (set_next_update (set_next_submit self None) (Some Update_contraction),
            [_to_input_list xc])
    /\ length xc = length worst
    /\ forall j, j < length worst ->
         nth j xc 0 = 1.5 * centroid_coord vertices j - 0.5 * nth j worst 0.
Proof.
  intros Hs Hrows. unfold submit_contraction, submit_method. fields.
  rewrite Hs, last_opt_app. eexists. split; [reflexivity|].
  destruct (xbar_nth (set_next_update (set_next_submit self None)
                        (Some Update_contraction)) vertices worst Hs Hrows)
    as [Hl Hc].
  destruct (combination_nth sub (1 + PSI * RHO) (PSI * RHO) _ worst Hl) as [Hl' Hn].
  split; [exact Hl'|]. intros j Hj.
  unfold Np.vsub. rewrite (Hn j Hj), (Hc j Hj). reflexivity.
Qed.

Lemma submit_contraction_point_witness :
  exists xc,
    submit_contraction triangle
    = Some (set_next_update (set_next_submit triangle None) (Some Update_contraction),
            [_to_input_list xc])
    /\ length xc = length [0; 1]
    /\ forall j, j < length [0; 1] ->
         nth j xc 0 = 1.5 * centroid_coord [[0; 0]; [1; 0]] j - 0.5 * nth j [0; 1] 0.
Proof.
  apply (submit_contraction_point triangle [[0; 0]; [1; 0]] [0; 1]).
  - reflexivity.
  - repeat constructor.
Defined.

(** X6.  The submit-inside-contraction phase emits exactly one point [xcc],
    whose coordinate [j] is [0.5 * c_j + 0.5 * worst_j] (that is [(1 - PSI)
    * c_j + PSI * worst_j]), the midpoint of the centroid and the worst
    vertex; it sets the update pointer to update-inside-contraction and
    changes nothing else of the state. *)
Theorem submit_inside_contraction_point
    (self : NelderMead) (vertices : Np.matrix) (worst : Np.vec) :
  simplex self = vertices ++ [worst] ->
  Forall (fun r => length r = length worst) vertices ->
  exists xcc,
    submit_inside_contraction self
    = Some (set_next_update (set_next_submit self None)
              (Some Update_inside_contraction),
            [_to_input_list xcc])
    /\ length xcc = length worst
    /\ forall j, j < length worst ->
         nth j xcc 0 = 0.5 * centroid_coord vertices j + 0.5 * nth j worst 0.
Proof.
  intros Hs Hrows. unfold submit_inside_contraction, submit_method. fields.
  rewrite Hs, last_opt_app. eexists. split; [reflexivity|].
  destruct (xbar_nth (set_next_update (set_next_submit self None)
                        (Some Update_inside_contraction)) vertices worst Hs Hrows)
    as [Hl Hc].
  destruct (combination_nth add (1 - PSI) PSI _ worst Hl) as [Hl' Hn].
  split; [exact Hl'|]. intros j Hj.
  unfold Np.vadd. rewrite (Hn j Hj), (Hc j Hj). reflexivity.
Qed.

Lemma submit_inside_contraction_point_witness :
  exists xcc,
    submit_inside_contraction triangle
    = Some (set_next_update (set_next_submit triangle None)
              (Some Update_inside_contraction),
            [_to_input_list xcc])
    /\ length xcc = length [0; 1]
    /\ forall j, j < length [0; 1] ->
         nth j xcc 0 = 0.5 * centroid_coord [[0; 0]; [1; 0]] j + 0.5 * nth j [0; 1] 0.
Proof.
  apply (submit_inside_contraction_point triangle [[0; 0]; [1; 0]] [0; 1]).
  - reflexivity.
  - repeat constructor.
Defined.

(** ** The outcomes of the other update phases *)

(** X7.  Update-expansion replaces the worst vertex and its value by the
    expansion point when its cost [fxe] is strictly below the cached cost
    [fxr] of the reflected point, and by the reflected point otherwise (also
    when the two costs are equal or [fxe] is a NaN); the other vertices and
    values stay, and the next submit phase is new-iteration in both cases. *)
Theorem update_expansion_keeps_better
    (self : NelderMead) (outs : outputs) (xe xr w : Np.vec) (fxe fxr : float)
    (f : Np.vec) (f_worst : float) :
  _get_single_result self outs = Some (xe, fxe) ->
  dict_get (extra_points self) "xr" = Some (xr, fxr) ->
  Np.last_opt (simplex self) = Some w ->
  length xe = length w ->
  length xr = length w ->
  fun_simplex self = Some f ->
  Np.last_opt f = Some f_worst ->
  exists self',
    update_expansion self outs = Some self'
    /\ next_submit self' = Some New_iter
    /\ next_update self' = None
    /\ (if fxe <? fxr then
          simplex self' = Np.but_last (simplex self) ++ [xe]
          /\ fun_simplex self' = Some (Np.but_last f ++ [fxe])
        else
          simplex self' = Np.but_last (simplex self) ++ [xr]
          /\ fun_simplex self' = Some (Np.but_last f ++ [fxr])).
Proof.
  intros Hres Hxr Hw Hle Hlr Hf Hworst.
  unfold update_expansion, update_method.
  unfold _get_single_result in *. fields.
  destruct outs as [|[idx res] [|]]; try discriminate.
  rewrite Hres. fields. rewrite Hxr.
  unfold _update_last. fields. rewrite Hf.
  destruct (fxe <? fxr).
  - rewrite (set_last_row_same _ _ _ Hw Hle).
    rewrite (last_opt_some_set_last _ _ fxe Hworst).
    eexists; repeat split; fields; auto.
  - rewrite (set_last_row_same _ _ _ Hw Hlr).
    rewrite (last_opt_some_set_last _ _ fxr Hworst).
    eexists; repeat split; fields; auto.
Qed.

Lemma update_expansion_keeps_better_witness :
  exists self',
    update_expansion (awaiting 0.5 [1.5; -2] 0.25 Update_expansion)
      [(8%Z, cost 0.25)] = Some self'
    /\ next_submit self' = Some New_iter
    /\ next_update self' = None
    /\ (if 0.25 <? 0.5 then
          simplex self'
          = Np.but_last (simplex (awaiting 0.5 [1.5; -2] 0.25 Update_expansion))
            ++ [[1.5; -2]]
          /\ fun_simplex self' = Some (Np.but_last [1; 2; 3] ++ [0.25])
        else
          simplex self'
          = Np.but_last (simplex (awaiting 0.5 [1.5; -2] 0.25 Update_expansion))
            ++ [[1; -1]]
          /\ fun_simplex self' = Some (Np.but_last [1; 2; 3] ++ [0.5])).
Proof.
  apply (update_expansion_keeps_better
           (awaiting 0.5 [1.5; -2] 0.25 Update_expansion) [(8%Z, cost 0.25)]
           [1.5; -2] [1; -1] [0; 1] 0.25 0.5 [1; 2; 3] 3); reflexivity.
Defined.

(** X8.  An expansion round as a whole.  When choose-step asks for an
    expansion (the reflected point costs less than the first function value
    [f_best]), and submit-expansion and update-expansion follow, the worst
    function value is replaced by a cost strictly below [f_best] and the
    other function values are those from before the round. *)
Theorem expansion_round_improves_best
    (self s1 s2 s3 : NelderMead) (outs1 outs2 : outputs) (ins : list input)
    (rm : ResultMapping) (f : Np.vec) (f_best : float) :
  fun_simplex self = Some f ->
  hd_error f = Some f_best ->
  choose_step self outs1 = Some s1 ->
  next_submit s1 = Some Submit_expansion ->
  submit_expansion s1 = Some (s2, ins) ->
  update_expansion (set_result_mapping s2 rm) outs2 = Some s3 ->
  exists c,
    fun_simplex s3 = Some (Np.but_last f ++ [c])
    /\ (c <? f_best) = true
    /\ next_submit s3 = Some New_iter.
Proof.
  intros Hf Hbest H1 Hnext H2 H3.
  unfold choose_step, update_method in H1.
  destruct (_get_single_result _ outs1) as [[xr fxr]|]; [|discriminate].
  fields_in H1. rewrite Hf, Hbest in H1.
  destruct (fxr <? f_best) eqn:Hlt.
  2:{ exfalso.
      repeat match type of H1 with
        | match ?e with Some _ => _ | None => None end = Some _ =>
            let E := fresh "E" in destruct e eqn:E; [|discriminate H1]
        | (if ?e then _ else _) = Some _ => destruct e
        end;
      try match goal with
        | E : _update_last _ _ _ = Some _ |- _ =>
            apply update_last_inv in E;
            destruct E as (? & ? & ? & _ & _ & _ & _ & ->)
        end;
      injection H1 as <-; fields; discriminate. }
  injection H1 as <-.
  unfold submit_expansion, submit_method in H2. open_option H2.
  injection H2 as <- <-.
  unfold update_expansion, update_method in H3.
  destruct (_get_single_result _ outs2) as [[xe fxe]|]; [|discriminate].
  fields_in H3. cbn in H3.
  destruct (fxe <? fxr) eqn:Hlt';
    apply update_last_inv in H3;
    destruct H3 as (w & x' & f1 & _ & _ & Hf1 & _ & ->);
    fields; rewrite Hf in Hf1; injection Hf1 as <-;
    eexists; (split; [reflexivity|split; [|reflexivity]]).
  - apply (FloatOrder.ltb_trans _ _ _ Hlt' Hlt).
  - exact Hlt.
Qed.

Lemma expansion_round_improves_best_witness :
  exists c,
    fun_simplex expansion3 = Some (Np.but_last [1; 2; 3] ++ [c])
    /\ (c <? 1) = true
    /\ next_submit expansion3 = Some New_iter.
Proof.
  apply (expansion_round_improves_best triangle expansion1 expansion2 expansion3
           [(7%Z, cost 0.5)] [(8%Z, cost 0.25)] [_to_input_list [1.5; -2]]
           expansion_mapping [1; 2; 3] 1); reflexivity.
Defined.

(** X9.  Update-contraction accepts the contraction point, in place of the
    worst vertex and its value, when its cost [fxc] is strictly below the
    cached cost [fxr] of the reflected point, and goes on with
    new-iteration; otherwise it leaves the simplex and its values as they
    are and asks for a shrink. *)
Theorem update_contraction_branches
    (self : NelderMead) (outs : outputs) (xc xr w : Np.vec) (fxc fxr : float)
    (f : Np.vec) (f_worst : float) :
  _get_single_result self outs = Some (xc, fxc) ->
  dict_get (extra_points self) "xr" = Some (xr, fxr) ->
  Np.last_opt (simplex self) = Some w ->
  length xc = length w ->
  fun_simplex self = Some f ->
  Np.last_opt f = Some f_worst ->
  exists self',
    update_contraction self outs = Some self'
    /\ next_update self' = None
    /\ (if fxc <? fxr then
          next_submit self' = Some New_iter
          /\ simplex self' = Np.but_last (simplex self) ++ [xc]
          /\ fun_simplex self' = Some (Np.but_last f ++ [fxc])
        else
          next_submit self' = Some Submit_shrink
          /\ simplex self' = simplex self /\ fun_simplex self' = Some f).
Proof.
  intros Hres Hxr Hw Hlen Hf Hworst.
  unfold update_contraction, update_method.
  unfold _get_single_result in *. fields.
  destruct outs as [|[idx res] [|]]; try discriminate.
  rewrite Hres. fields. rewrite Hxr.
  destruct (fxc <? fxr).
  - unfold _update_last. fields. rewrite Hf.
    rewrite (set_last_row_same _ _ _ Hw Hlen).
    rewrite (last_opt_some_set_last _ _ fxc Hworst).
    eexists; repeat split; fields; auto.
  - eexists; repeat split; fields; auto.
Qed.

Lemma update_contraction_branches_witness :
  exists self',
    update_contraction (awaiting 2.5 [0.75; -0.5] 1.75 Update_contraction)
      [(8%Z, cost 1.75)] = Some self'
    /\ next_update self' = None
    /\ (if 1.75 <? 2.5 then
          next_submit self' = Some New_iter
          /\ simplex self'
             = Np.but_last (simplex (awaiting 2.5 [0.75; -0.5] 1.75 Update_contraction))
               ++ [[0.75; -0.5]]
          /\ fun_simplex self' = Some (Np.but_last [1; 2; 3] ++ [1.75])
        else
          next_submit self' = Some Submit_shrink
          /\ simplex self'
             = simplex (awaiting 2.5 [0.75; -0.5] 1.75 Update_contraction)
          /\ fun_simplex self' = Some [1; 2; 3]).
Proof.
  apply (update_contraction_branches
           (awaiting 2.5 [0.75; -0.5] 1.75 Update_contraction) [(8%Z, cost 1.75)]
           [0.75; -0.5] [1; -1] [0; 1] 1.75 2.5 [1; 2; 3] 3); reflexivity.
Defined.

(** X10.  Update-inside-contraction accepts the inside-contraction point, in
    place of the worst vertex and its value, when its cost [fxcc] is
    strictly below the worst function value, and goes on with new-iteration;
    otherwise it leaves the simplex and its values as they are and asks for
    a shrink.  The cached reflected point is not read. *)
Theorem update_inside_contraction_branches
    (self : NelderMead) (outs : outputs) (xcc w : Np.vec) (fxcc : float)
    (f : Np.vec) (f_worst : float) :
  _get_single_result self outs = Some (xcc, fxcc) ->
  Np.last_opt (simplex self) = Some w ->
  length xcc = length w ->
  fun_simplex self = Some f ->
  Np.last_opt f = Some f_worst ->
  exists self',
    update_inside_contraction self outs = Some self'
    /\ next_update self' = None
    /\ (if fxcc <? f_worst then
          next_submit self' = Some New_iter
          /\ simplex self' = Np.but_last (simplex self) ++ [xcc]
          /\ fun_simplex self' = Some (Np.but_last f ++ [fxcc])
        else
          next_submit self' = Some Submit_shrink
          /\ simplex self' = simplex self /\ fun_simplex self' = Some f).
Proof.
  intros Hres Hw Hlen Hf Hworst.
  unfold update_inside_contraction, update_method.
  unfold _get_single_result in *. fields.
  destruct outs as [|[idx res] [|]]; try discriminate.
  rewrite Hres. fields. rewrite Hf, Hworst.
  destruct (fxcc <? f_worst).
  - unfold _update_last. fields. rewrite Hf.
    rewrite (set_last_row_same _ _ _ Hw Hlen).
    rewrite (last_opt_some_set_last _ _ fxcc Hworst).
    eexists; repeat split; fields; auto.
  - eexists; repeat split; fields; auto.
Qed.

Lemma update_inside_contraction_branches_witness :
  exists self',
    update_inside_contraction
      (awaiting 3.5 [0.25; 0.5] 3.25 Update_inside_contraction)
      [(8%Z, cost 3.25)] = Some self'
    /\ next_update self' = None
    /\ (if 3.25 <? 3 then
          next_submit self' = Some New_iter
          /\ simplex self'
             = Np.but_last
                 (simplex (awaiting 3.5 [0.25; 0.5] 3.25 Update_inside_contraction))
               ++ [[0.25; 0.5]]
          /\ fun_simplex self' = Some (Np.but_last [1; 2; 3] ++ [3.25])
        else
          next_submit self' = Some Submit_shrink
          /\ simplex self'
             = simplex (awaiting 3.5 [0.25; 0.5] 3.25 Update_inside_contraction)
          /\ fun_simplex self' = Some [1; 2; 3]).
Proof.
  apply (update_inside_contraction_branches
           (awaiting 3.5 [0.25; 0.5] 3.25 Update_inside_contraction)
           [(8%Z, cost 3.25)] [0.25; 0.5] [0; 1] 3.25 [1; 2; 3] 3); reflexivity.
Defined.

(** ** The shrink step *)

Lemma nth_map_row (g : Np.vec -> Np.vec) (m : Np.matrix) (i : nat) :
  i < length m -> nth i (map g m) [] = g (nth i m []).
Proof.
  intros Hi. rewrite (nth_indep _ [] (g [])) by (rewrite length_map; exact Hi).
  apply map_nth.
Qed.

Lemma map_nan_repeat (l : Np.vec) : map (fun _ => nan) l = repeat nan (length l).
Proof. induction l as [|x l IH]; cbn; [reflexivity|]. rewrite IH. reflexivity. Qed.

Lemma shrunk_row_length (best r : Np.vec) :
  length r = length best ->
  length (Np.vadd best (Np.scale SIGMA (Np.vsub r best))) = length best.
Proof.
  intros Hr. apply map2_length.
  unfold Np.scale. rewrite length_map.
  unfold Np.vsub. rewrite map2_length; [exact Hr|symmetry; exact Hr].
Qed.

Lemma shrunk_row_nth (best r : Np.vec) (j : nat) :
  length r = length best -> j < length best ->
  nth j (Np.vadd best (Np.scale SIGMA (Np.vsub r best))) 0
  = nth j best 0 + 0.5 * (nth j r 0 - nth j best 0).
Proof.
  intros Hr Hj.
  assert (Hd : length (Np.vsub r best) = length r)
    by (apply map2_length; symmetry; exact Hr).
  assert (Hs : length (Np.scale SIGMA (Np.vsub r best)) = length best)
    by (unfold Np.scale; rewrite length_map, Hd; exact Hr).
  unfold Np.vadd. rewrite map2_nth by assumption.
  unfold Np.scale. rewrite map_nth_float by lia.
  unfold Np.vsub. rewrite map2_nth by lia. reflexivity.
Qed.

(** X11.  Submit-shrink keeps the first vertex [best] and moves every other
    vertex halfway towards it: coordinate [j] of the new vertex is [best_j +
    0.5 * (v_j - best_j)].  The first function value is kept and all the
    others become NaN until the new costs arrive; the batch holds exactly
    the moved vertices, in their order, and the update pointer is
    update-shrink. *)
Theorem submit_shrink_halves
    (self : NelderMead) (best : Np.vec) (others : Np.matrix)
    (f0 : float) (rest : Np.vec) :
  simplex self = best :: others ->
  Forall (fun r => length r = length best) others ->
  fun_simplex self = Some (f0 :: rest) ->
  exists self' shrunk,
    submit_shrink self = Some (self', map _to_input_list shrunk)
    /\ simplex self' = best :: shrunk
    /\ fun_simplex self' = Some (f0 :: repeat nan (length rest))
    /\ next_submit self' = None
    /\ next_update self' = Some Update_shrink
    /\ length shrunk = length others
    /\ forall i j, i < length others -> j < length best ->
         length (nth i shrunk []) = length best
         /\ nth j (nth i shrunk []) 0
            = nth j best 0 + 0.5 * (nth j (nth i others []) 0 - nth j best 0).
Proof.
  intros Hs Hrows Hf. unfold submit_shrink, submit_method. fields.
  rewrite Hs. cbn [hd_error tl]. rewrite Hf. fields. cbn [tl firstn app].
  rewrite map_nan_repeat.
  eexists. eexists. split; [reflexivity|]. fields.
  repeat (split; [reflexivity|]).
  split; [apply length_map|].
  intros i j Hi Hj. rewrite nth_map_row by exact Hi.
  assert (Hr : length (nth i others []) = length best)
    by (rewrite Forall_forall in Hrows; apply Hrows, nth_In, Hi).
  split; [apply shrunk_row_length, Hr|apply shrunk_row_nth; assumption].
Qed.

Lemma submit_shrink_halves_witness :
  exists self' shrunk,
    submit_shrink triangle = Some (self', map _to_input_list shrunk)
    /\ simplex self' = [0; 0] :: shrunk
    /\ fun_simplex self' = Some (1 :: repeat nan (length [2; 3]))
    /\ next_submit self' = None
    /\ next_update self' = Some Update_shrink
    /\ length shrunk = length [[1; 0]; [0; 1]]
    /\ forall i j, i < length [[1; 0]; [0; 1]] -> j < length [0; 0] ->
         length (nth i shrunk []) = length [0; 0]
         /\ nth j (nth i shrunk []) 0
            = nth j [0; 0] 0 + 0.5 * (nth j (nth i [[1; 0]; [0; 1]] []) 0 - nth j [0; 0] 0).
Proof.
  apply (submit_shrink_halves triangle [0; 0] [[1; 0]; [0; 1]] 1 [2; 3]).
  - reflexivity.
  - repeat constructor.
  - reflexivity.
Defined.

(** X12.  A shrink round: when the costs of the batch that submit-shrink
    emitted come back under identifiers that increase in the order of
    submission, update-shrink returns and the function values are the kept
    first value followed by the returned costs, in the order of the moved
    vertices; no NaN placeholder is left.  The iteration order of the batch
    and what the collaborator recorded in between do not matter. *)
Theorem shrink_round_trip
    (self s1 : NelderMead) (ins : list input) (rm : ResultMapping)
    (keys : list Z) (results : list result) (costs : Np.vec) (outs : outputs)
    (f0 : float) (rest : Np.vec) :
  fun_simplex self = Some (f0 :: rest) ->
  length rest = length (tl (simplex self)) ->
  submit_shrink self = Some (s1, ins) ->
  StronglySorted Z.lt keys ->
  length keys = length ins ->
  length results = length keys ->
  Forall2 (fun res c => dict_get res (result_key self) = Some c) results costs ->
  Permutation outs (combine keys results) ->
  exists s2,
    update_shrink (set_result_mapping s1 rm) outs = Some s2
    /\ fun_simplex s2 = Some (f0 :: costs)
    /\ simplex s2 = simplex s1
    /\ next_submit s2 = Some New_iter
    /\ next_update s2 = None.
Proof.
  intros Hf Hrest Hsub Hk Hkeys Hres Hcosts Hp.
  unfold submit_shrink, submit_method in Hsub. fields.
  destruct (hd_error (simplex self)) as [best|]; [|discriminate].
  rewrite Hf in Hsub. fields. cbn [tl firstn app] in Hsub.
  injection Hsub as <- <-. rewrite length_map, length_map in Hkeys.
  unfold update_shrink, update_method, _get_values. fields.
  rewrite (sorted_items_increasing keys results outs Hk Hp).
  pose proof (mapM_costs (result_key self) _ _ _ Hres Hcosts) as E.
  match goal with
  | |- context [mapM ?g ?l] =>
      replace (mapM g l) with (Some costs) by (symmetry; exact E)
  end.
  unfold set_tail. cbn [tl firstn app].
  rewrite broadcast_to_same.
  - eexists. split; [reflexivity|]. fields. repeat split.
  - rewrite length_map, Hrest, <- Hkeys, <- Hres.
    symmetry. exact (Forall2_length Hcosts).
Qed.

Lemma shrink_round_trip_witness :
  exists s2,
    update_shrink (set_result_mapping triangle_shrunk [])
      [(9%Z, cost 1.5); (8%Z, cost 1.25)] = Some s2
    /\ fun_simplex s2 = Some (1 :: [1.25; 1.5])
    /\ simplex s2 = simplex triangle_shrunk
    /\ next_submit s2 = Some New_iter
    /\ next_update s2 = None.
Proof.
  apply (shrink_round_trip triangle triangle_shrunk
           (map _to_input_list [[0.5; 0]; [0; 0.5]]) []
           [8%Z; 9%Z] [cost 1.25; cost 1.5] [1.25; 1.5]
           [(9%Z, cost 1.5); (8%Z, cost 1.25)] 1 [2; 3]).
  - reflexivity.
  - reflexivity.
  - reflexivity.
  - repeat constructor.
  - reflexivity.
  - reflexivity.
  - repeat constructor.
  - apply perm_swap.
Defined.

(** X13.  The number of results that update-shrink takes: with as many
    results as there are vertices after the first their costs become the
    function values after the first; a batch of a single result is taken as
    well, and its cost is copied to every vertex after the first; any other
    number of results raises. *)
Theorem update_shrink_batch_size
    (self : NelderMead) (outs : outputs) (values : Np.vec)
    (f0 : float) (rest : Np.vec) :
  fun_simplex self = Some (f0 :: rest) ->
  _get_values self outs = Some values ->
  (length values = length rest ->
   exists self', update_shrink self outs = Some self'
                 /\ fun_simplex self' = Some (f0 :: values))
  /\ (forall c, values = [c] ->
      exists self', update_shrink self outs = Some self'
                    /\ fun_simplex self' = Some (f0 :: repeat c (length rest)))
  /\ (length values <> length rest -> length values <> 1%nat ->
      update_shrink self outs = None).
Proof.
  intros Hf Hv. unfold update_shrink, update_method.
  unfold _get_values in *. fields. rewrite Hv, Hf.
  unfold set_tail, Np.broadcast_to. cbn [tl firstn app].
  split; [|split].
  - intros Hl. apply Nat.eqb_eq in Hl. rewrite Hl.
    eexists. split; reflexivity.
  - intros c ->. cbn [length].
    destruct (Nat.eqb_spec 1 (length rest)) as [E|E].
    + eexists. split; [reflexivity|]. fields. rewrite <- E. reflexivity.
    + eexists. split; reflexivity.
  - intros Hl H1. apply Nat.eqb_neq in Hl. rewrite Hl.
    destruct values as [|c [|]]; cbn in H1; try reflexivity. lia.
Qed.

Lemma update_shrink_batch_size_witness :
  (length [0.25] = length [2; 3] ->
   exists self',
     update_shrink (awaiting 3.5 [0.5; 0] 0.25 Update_shrink) [(8%Z, cost 0.25)]
     = Some self'
     /\ fun_simplex self' = Some (1 :: [0.25]))
  /\ (forall c, [0.25] = [c] ->
      exists self',
        update_shrink (awaiting 3.5 [0.5; 0] 0.25 Update_shrink) [(8%Z, cost 0.25)]
        = Some self'
        /\ fun_simplex self' = Some (1 :: repeat c (length [2; 3])))
  /\ (length [0.25] <> length [2; 3] -> length [0.25] <> 1%nat ->
      update_shrink (awaiting 3.5 [0.5; 0] 0.25 Update_shrink) [(8%Z, cost 0.25)]
      = None).
Proof.
  apply (update_shrink_batch_size (awaiting 3.5 [0.5; 0] 0.25 Update_shrink)
           [(8%Z, cost 0.25)] [0.25] 1 [2; 3]); reflexivity.
Defined.

(** ** What the sort step does to any simplex *)

Lemma take_nth {A : Type} (a : list A) (idx : list nat) (d : A) :
  Forall (fun i => i < length a) idx ->
  Np.take a idx = Some (map (fun i => nth i a d) idx).
Proof.
  unfold Np.take. induction 1 as [|i idx Hi _ IH]; cbn; [reflexivity|].
  rewrite (nth_error_nth' a d Hi), IH. reflexivity.
Qed.

Lemma mapM_none {A B : Type} (g : A -> option B) (l : list A) (a : A) :
  In a l -> g a = None -> mapM g l = None.
Proof.
  induction l as [|x l IH]; intros Hin Ha; [destruct Hin|].
  cbn. destruct Hin as [->|Hin].
  - rewrite Ha. reflexivity.
  - destruct (g x); [|reflexivity]. rewrite (IH Hin Ha). reflexivity.
Qed.

Lemma sorts_bounds (v : Np.vec) (idx : list nat) :
  sorts v idx -> Forall (fun i => i < length v) idx.
Proof.
  intros [Hp _]. rewrite Forall_forall. intros i Hi.
  apply (Permutation_in _ Hp), in_seq in Hi. lia.
Qed.

Lemma sorts_In (v : Np.vec) (idx : list nat) (i : nat) :
  sorts v idx -> i < length v -> In i idx.
Proof.
  intros [Hp _] Hi. apply (Permutation_in _ (Permutation_sym Hp)), in_seq. lia.
Qed.

Lemma combine_nth_seq {A B : Type} (a : list A) (b : list B) (da : A) (db : B) :
  length a = length b ->
  map (fun i => (nth i a da, nth i b db)) (seq 0 (length a)) = combine a b.
Proof.
  revert b. induction a as [|x a IH]; intros [|y b] H; try discriminate H.
  - reflexivity.
  - cbn [length seq map combine]. cbn [nth]. f_equal.
    rewrite <- seq_shift, map_map. cbn [nth]. apply IH.
    cbn in H. lia.
Qed.

Lemma sorted_values (v : Np.vec) (idx : list nat) :
  StronglySorted (idx_le v) idx ->
  StronglySorted np_le (map (fun i => nth i v 0) idx).
Proof.
  induction 1 as [|i idx _ IH Hall]; cbn; constructor; [exact IH|].
  rewrite Forall_forall in *. intros x Hx.
  apply in_map_iff in Hx. destruct Hx as (j & <- & Hj).
  apply Hall, Hj.
Qed.

Lemma do_sort_outcome
    (argsort : Np.vec -> list nat) (self : NelderMead) (f : Np.vec) :
  argsort_spec argsort ->
  fun_simplex self = Some f ->
  length (simplex self) = length f ->
  do_sort argsort self
  = Some (set_simplex
            (set_fun_simplex self (Some (reordered 0 f (argsort f))))
            (reordered [] (simplex self) (argsort f)))
  /\ StronglySorted np_le (reordered 0 f (argsort f))
  /\ Permutation (combine (reordered [] (simplex self) (argsort f))
                          (reordered 0 f (argsort f)))
                 (combine (simplex self) f)
  /\ length (reordered [] (simplex self) (argsort f)) = length f
  /\ length (reordered 0 f (argsort f)) = length f
  /\ (forall r, In r (reordered [] (simplex self) (argsort f)) ->
                In r (simplex self)).
Proof.
  intros Hspec Hf Hlen. unfold do_sort, reordered. rewrite Hf.
  pose proof (Hspec f) as Hsorts.
  pose proof (sorts_bounds _ _ Hsorts) as Hb.
  assert (Hb' : Forall (fun i => i < length (simplex self)) (argsort f))
    by (rewrite Hlen; exact Hb).
  rewrite (take_nth f (argsort f) 0 Hb). fields.
  rewrite (take_nth (simplex self) (argsort f) [] Hb').
  split; [reflexivity|].
  split; [apply sorted_values, Hsorts|].
  split; [|split; [|split]].
  - destruct Hsorts as [Hp _].
    rewrite <- (combine_nth_seq (simplex self) f [] 0 Hlen).
    rewrite Hlen.
    rewrite <- (Permutation_map (fun i => (nth i (simplex self) [], nth i f 0)) Hp).
    clear. induction (argsort f) as [|i idx IH]; cbn; [reflexivity|].
    constructor. exact IH.
  - rewrite length_map. apply sorts_length, Hsorts.
  - rewrite length_map. apply sorts_length, Hsorts.
  - intros r Hr. apply in_map_iff in Hr. destruct Hr as (i & <- & Hi).
    rewrite Forall_forall in Hb'. apply nth_In, Hb', Hi.
Qed.

Lemma sorted_last {A : Type} (R : A -> A -> Prop) (l : list A) (a : A) :
  StronglySorted R (l ++ [a]) -> Forall (fun c => R c a) l.
Proof.
  induction l as [|x l IH]; cbn; intros H; [constructor|].
  inversion H as [|? ? Hl Hall]; subst. constructor; [|apply IH, Hl].
  rewrite Forall_forall in Hall. apply Hall, in_or_app. right. left. reflexivity.
Qed.

(** X14.  On a simplex with one function value per vertex, the sort step
    returns; afterwards the function values never go down along the vector
    in numpy's order (a NaN comes last), and the vertices are still paired
    with their own values: the pairs (vertex, value) are those from before
    the sort, in another order.  Nothing else of the state changes. *)
Theorem do_sort_sorts_pairs
    (argsort : Np.vec -> list nat) (self : NelderMead) (f : Np.vec) :
  argsort_spec argsort ->
  fun_simplex self = Some f ->
  length (simplex self) = length f ->
  exists self' f',
    do_sort argsort self = Some self'
    /\ fun_simplex self' = Some f'
    /\ StronglySorted np_le f'
    /\ Permutation (combine (simplex self') f') (combine (simplex self) f)
    /\ self' = set_simplex (set_fun_simplex self (Some f')) (simplex self').
Proof.
  intros Hspec Hf Hlen. unfold do_sort. rewrite Hf.
  pose proof (Hspec f) as Hsorts.
  pose proof (sorts_bounds _ _ Hsorts) as Hb.
  rewrite (take_nth f (argsort f) 0 Hb). fields.
  rewrite (take_nth (simplex self) (argsort f) []) by (rewrite Hlen; exact Hb).
  eexists. eexists. split; [reflexivity|]. fields.
  split; [reflexivity|]. split; [apply sorted_values, Hsorts|].
  split; [|reflexivity].
  destruct Hsorts as [Hp _].
  rewrite <- (combine_nth_seq (simplex self) f [] 0 Hlen).
  rewrite Hlen.
  rewrite <- (Permutation_map (fun i => (nth i (simplex self) [], nth i f 0)) Hp).
  clear. induction (argsort f) as [|i idx IH]; cbn; [reflexivity|].
  constructor. exact IH.
Qed.

Lemma do_sort_sorts_pairs_witness :
  exists self' f',
    do_sort argsort_quick ties = Some self'
    /\ fun_simplex self' = Some f'
    /\ StronglySorted np_le f'
    /\ Permutation (combine (simplex self') f')
                   (combine (simplex ties) (repeat 1 18))
    /\ self' = set_simplex (set_fun_simplex ties (Some f')) (simplex self').
Proof.
  apply (do_sort_sorts_pairs argsort_quick ties (repeat 1 18)).
  - exact argsort_quick_spec.
  - reflexivity.
  - reflexivity.
Defined.

(** X15.  When the simplex and the function values differ in length: with
    fewer vertices than function values the sort step raises (an index is
    out of range); with more vertices than function values it returns and
    keeps only as many vertices as there are function values. *)
Theorem do_sort_length_mismatch
    (argsort : Np.vec -> list nat) (self : NelderMead) (f : Np.vec) :
  argsort_spec argsort ->
  fun_simplex self = Some f ->
  (length (simplex self) < length f -> do_sort argsort self = None)
  /\ (length f <= length (simplex self) ->
      exists self',
        do_sort argsort self = Some self'
        /\ length (simplex self') = length f
        /\ forall r, In r (simplex self') -> In r (simplex self)).
Proof.
  intros Hspec Hf. unfold do_sort. rewrite Hf.
  pose proof (Hspec f) as Hsorts.
  pose proof (sorts_bounds _ _ Hsorts) as Hb.
  rewrite (take_nth f (argsort f) 0 Hb). fields. split.
  - intros Hlt. unfold Np.take.
    rewrite (mapM_none _ _ (length (simplex self))); [reflexivity| |].
    + apply (sorts_In _ _ _ Hsorts Hlt).
    + apply nth_error_None. lia.
  - intros Hle.
    assert (Hb' : Forall (fun i => i < length (simplex self)) (argsort f)).
    { eapply Forall_impl; [|exact Hb]. cbn. intros; lia. }
    pose proof (take_nth (simplex self) (argsort f) [] Hb') as E.
    rewrite E.
    eexists. split; [reflexivity|]. fields. split.
    + rewrite length_map. apply sorts_length, Hsorts.
    + intros r Hr. apply (take_In _ _ _ _ E Hr).
Qed.

Lemma do_sort_length_mismatch_witness :
  (length (simplex triangle) < length [2; 1] ->
   do_sort argsort_insertion (set_fun_simplex triangle (Some [2; 1])) = None)
  /\ (length [2; 1] <= length (simplex triangle) ->
      exists self',
        do_sort argsort_insertion (set_fun_simplex triangle (Some [2; 1]))
        = Some self'
        /\ length (simplex self') = length [2; 1]
        /\ forall r, In r (simplex self') -> In r (simplex triangle)).
Proof.
  apply (do_sort_length_mismatch argsort_insertion
           (set_fun_simplex triangle (Some [2; 1])) [2; 1]).
  - exact argsort_insertion_spec.
  - reflexivity.
Defined.

(** ** C4: the reflected point of a new iteration *)

(** C4.  On a simplex with one function value per vertex, whose vertices
    have [n] coordinates each and which the convergence test does not
    accept once it is in the order that [np.argsort] gives for the function
    values, the new-iteration phase returns: the
    iteration count grows by one, exactly one point [xr] is emitted, the
    update pointer is choose-step and the submit pointer is cleared.  The
    simplex it leaves is sorted: the function values never go down in
    numpy's order (a NaN comes last), every vertex is still paired with its
    own value, and the last vertex [worst] has a value that none of the
    others exceeds.  With [vertices] the vertices before [worst], every
    coordinate [j] of [xr] is [(1 + RHO) * c_j - RHO * worst_j] with
    [RHO = 1], where [c_j] is the average of the coordinates [j] of
    [vertices]. *)
Theorem new_iter_reflection
    (argsort : Np.vec -> list nat) (self : NelderMead) (f : Np.vec) (n : nat) :
  argsort_spec argsort ->
  fun_simplex self = Some f ->
  length (simplex self) = length f ->
  Forall (fun r => length r = n) (simplex self) ->
  converged (reordered [] (simplex self) (argsort f))
            (Some (reordered 0 f (argsort f))) (xtol self) (ftol self)
  = Some false ->
  exists (self' : NelderMead) (xr : Np.vec)
         (vertices : Np.matrix) (worst : Np.vec) (fs : Np.vec) (f_worst : float),
    new_iter argsort self = Some (self', [_to_input_list xr])
    /\ simplex self' = vertices ++ [worst]
    /\ fun_simplex self' = Some (fs ++ [f_worst])
    /\ length fs = length vertices
    /\ Permutation (combine (vertices ++ [worst]) (fs ++ [f_worst]))
                   (combine (simplex self) f)
    /\ StronglySorted np_le (fs ++ [f_worst])
    /\ Forall (fun c => np_le c f_worst) fs
    /\ num_iter self' = (num_iter self + 1)%Z
    /\ next_update self' = Some Choose_step
    /\ next_submit self' = None
    /\ finished self' = false
    /\ RHO = 1
    /\ length xr = n
    /\ forall j, j < n ->
         nth j xr 0 = (1 + RHO) * centroid_coord vertices j - RHO * nth j worst 0.
Proof.
  intros Hspec Hf Hlen Hrows Hnc.
  destruct (do_sort_outcome argsort self f Hspec Hf Hlen)
    as (Hsort & Hsorted & Hperm & Hlm & Hlf & Hin).
  assert (H2 : 2 <= length f).
  { rewrite <- Hlm. exact (converged_length _ _ _ _ _ Hnc). }
  destruct (exists_last (l := reordered [] (simplex self) (argsort f)))
    as (vertices & worst & Em).
  { intros E. rewrite E in Hlm. cbn in Hlm. lia. }
  destruct (exists_last (l := reordered 0 f (argsort f)))
    as (fs & f_worst & Ef).
  { intros E. rewrite E in Hlf. cbn in Hlf. lia. }
  rewrite Em, Ef in *.
  assert (Hrows' : Forall (fun r => length r = n) (vertices ++ [worst])).
  { rewrite Forall_forall in *. intros r Hr. apply Hrows, Hin, Hr. }
  assert (Hw : length worst = n).
  { rewrite Forall_forall in Hrows'. apply Hrows', in_or_app.
    right. left. reflexivity. }
  assert (Hv : Forall (fun r => length r = length worst) vertices).
  { rewrite Hw. apply Forall_app in Hrows'. apply Hrows'. }
  unfold new_iter, submit_method.
  assert (Hsort0 :
            do_sort argsort (set_next_update (set_next_submit self None) None)
            = Some (set_simplex
                      (set_fun_simplex
                         (set_next_update (set_next_submit self None) None)
                         (Some (fs ++ [f_worst])))
                      (vertices ++ [worst]))).
  { unfold do_sort in *. fields. rewrite Hf in *.
    destruct (Np.take f (argsort f)) as [f0|]; [|discriminate].
    fields_in Hsort.
    destruct (Np.take (simplex self) (argsort f)) as [m0|]; [|discriminate].
    injection Hsort as -> ->. reflexivity. }
  rewrite Hsort0. rewrite check_finished_converged. fields.
  match goal with
  | |- context [converged ?a ?b ?c ?d] =>
      replace (converged a b c d) with (Some false) by (symmetry; exact Hnc)
  end.
  cbn [option_map]. fields.
  rewrite last_opt_app.
  exists (set_next_update
            (set_num_iter
               (set_finished
                  (set_simplex
                     (set_fun_simplex
                        (set_next_update (set_next_submit self None) None)
                        (Some (fs ++ [f_worst])))
                     (vertices ++ [worst])) false)
               (num_iter self + 1)%Z)
            (Some Choose_step)).
  eexists. exists vertices, worst, fs, f_worst.
  split; [reflexivity|]. fields.
  split; [reflexivity|]. split; [reflexivity|].
  split.
  { rewrite length_app in Hlm, Hlf. cbn in Hlm, Hlf.
    apply (proj1 (Nat.add_cancel_r _ _ 1%nat)).
    exact (eq_trans Hlf (eq_sym Hlm)). }
  split; [exact Hperm|]. split; [exact Hsorted|].
  split; [apply sorted_last, Hsorted|].
  repeat (split; [reflexivity|]).
  match goal with
  | |- context [xbar ?s] =>
      destruct (xbar_nth s vertices worst eq_refl Hv) as [Hl Hc]
  end.
  match goal with
  | |- context [Np.vsub (Np.scale ?a ?c) (Np.scale ?b worst)] =>
      destruct (combination_nth sub a b c worst Hl) as [Hl' Hn]
  end.
  split.
  - unfold Np.vsub. rewrite Hl'. exact Hw.
  - intros j Hj. rewrite <- Hw in Hj.
    unfold Np.vsub. rewrite (Hn j Hj), (Hc j Hj). reflexivity.
Qed.

Lemma new_iter_reflection_witness :
  exists (self' : NelderMead) (xr : Np.vec)
         (vertices : Np.matrix) (worst : Np.vec) (fs : Np.vec) (f_worst : float),
    new_iter argsort_insertion quad2 = Some (self', [_to_input_list xr])
    /\ simplex self' = vertices ++ [worst]
    /\ fun_simplex self' = Some (fs ++ [f_worst])
    /\ length fs = length vertices
    /\ Permutation (combine (vertices ++ [worst]) (fs ++ [f_worst]))
                   (combine (simplex quad2) [1; 2.25])
    /\ StronglySorted np_le (fs ++ [f_worst])
    /\ Forall (fun c => np_le c f_worst) fs
    /\ num_iter self' = (num_iter quad2 + 1)%Z
    /\ next_update self' = Some Choose_step
    /\ next_submit self' = None
    /\ finished self' = false
    /\ RHO = 1
    /\ length xr = 1%nat
    /\ forall j, j < 1 ->
         nth j xr 0 = (1 + RHO) * centroid_coord vertices j - RHO * nth j worst 0.
Proof.
  apply (new_iter_reflection argsort_insertion quad2 [1; 2.25] 1).
  - exact argsort_insertion_spec.
  - reflexivity.
  - reflexivity.
  - repeat constructor.
  - reflexivity.
Defined.

(** ** A simplex of a single vertex *)

(** X16.  On a simplex of at most one vertex the new-iteration phase
    raises, whatever the rest of the state: there is no other vertex to
    take the largest distance over.  The constructor accepts the simplex
    [[[]]], one vertex in dimension zero: such an engine is built, and
    fails at its first new-iteration. *)
Theorem new_iter_needs_two_vertices (argsort : Np.vec -> list nat) :
  argsort_spec argsort ->
  (forall self, length (simplex self) <= 1 -> new_iter argsort self = None)
  /\ (forall kw result_state,
        kw_simplex kw = [[]] ->
        exists self, __init__ kw result_state = Some self
                     /\ length (simplex self) <= 1).
Proof.
  intros Hspec. split.
  - intros self Hlen. unfold new_iter, submit_method.
    destruct (do_sort argsort _) as [s1|] eqn:Hsort; [|reflexivity].
    apply do_sort_inv in Hsort. fields.
    destruct Hsort as (f & f' & m & Hf & Hf' & Hm & ->).
    assert (Hm1 : length m <= 1).
    { pose proof (mapM_length _ _ _ Hm) as Hl. rewrite Hl.
      rewrite (sorts_length _ _ (Hspec f)).
      destruct (Nat.le_gt_cases (length f) 1) as [H|H]; [exact H|].
      exfalso. unfold Np.take in Hm.
      rewrite (mapM_none _ _ 1%nat) in Hm; [discriminate| |].
      - apply (sorts_In _ _ _ (Hspec f)). lia.
      - apply nth_error_None. exact Hlen. }
    unfold check_finished. fields.
    destruct m as [|r [|r' m]]; [reflexivity|reflexivity|cbn in Hm1; lia].
  - intros kw result_state Hkw. unfold __init__. rewrite Hkw. cbn.
    eexists. split; [reflexivity|]. cbn. lia.
Qed.

Lemma new_iter_needs_two_vertices_witness :
  (forall self, length (simplex self) <= 1 ->
                new_iter argsort_insertion self = None)
  /\ (forall kw result_state,
        kw_simplex kw = [[]] ->
        exists self, __init__ kw result_state = Some self
                     /\ length (simplex self) <= 1).
Proof.
  apply (new_iter_needs_two_vertices argsort_insertion).
  exact argsort_insertion_spec.
Defined.

(** ** What the phases never touch *)

Lemma new_iter_outcome
    (argsort : Np.vec -> list nat) (self s : NelderMead) (xs : list input) :
  new_iter argsort self = Some (s, xs) ->
  exists f f' m b,
    fun_simplex self = Some f
    /\ Np.take f (argsort f) = Some f'
    /\ Np.take (simplex self) (argsort f) = Some m
    /\ simplex s = m /\ fun_simplex s = Some f' /\ finished s = b
    /\ next_submit s = None
    /\ xtol s = xtol self /\ ftol s = ftol self /\ max_iter s = max_iter self
    /\ result_key s = result_key self
    /\ _result_mapping s = _result_mapping self
    /\ extra_points s = extra_points self
    /\ if b then
         next_update s = Some Finalize /\ xs = []
         /\ num_iter s = num_iter self
       else
         next_update s = Some Choose_step
         /\ num_iter s = (num_iter self + 1)%Z
         /\ exists worst,
              Np.last_opt m = Some worst
              /\ xs = [_to_input_list
                         (Np.vsub (Np.scale (1 + RHO) (xbar s)) (Np.scale RHO worst))].
Proof.
  unfold new_iter, submit_method. intros H.
  destruct (do_sort argsort _) as [s1|] eqn:E1; [|discriminate].
  destruct (check_finished s1) as [s2|] eqn:E2; [|discriminate].
  apply do_sort_inv in E1. destruct E1 as (f & f' & m & Hf & Hf' & Hm & ->).
  apply check_finished_inv in E2. rewrite E2 in H. fields.
  exists f, f', m, (finished s2).
  destruct (finished s2) eqn:Efin.
  - injection H as <- <-. fields. repeat split; auto.
  - inv_option H. injection H as <- <-. fields.
    repeat split; auto. eexists. split; reflexivity.
Qed.

Lemma create_inputs_frame
    (argsort : Np.vec -> list nat) (self self' : NelderMead) (ins : list input) :
  _create_inputs argsort self = Some (self', ins) ->
  xtol self' = xtol self /\ ftol self' = ftol self
  /\ max_iter self' = max_iter self /\ result_key self' = result_key self
  /\ _result_mapping self' = _result_mapping self
  /\ extra_points self' = extra_points self.
Proof.
  unfold _create_inputs.
  destruct (next_submit self) as [[]|] eqn:Ens; try discriminate; intros H;
    try (apply new_iter_outcome in H;
         destruct H as (? & ? & ? & ? & _ & _ & _ & _ & _ & _ & _ & H);
         tauto);
    unfold submit_initialize, submit_expansion, submit_contraction,
      submit_inside_contraction, submit_shrink, submit_method in H;
    open_option H; injection H as <- <-; fields; repeat split.
Qed.

Lemma update_frame (self self' : NelderMead) (outs : outputs) :
  _update self outs = Some self' ->
  xtol self' = xtol self /\ ftol self' = ftol self
  /\ max_iter self' = max_iter self /\ result_key self' = result_key self
  /\ _result_mapping self' = _result_mapping self
  /\ num_iter self' = num_iter self /\ finished self' = finished self.
Proof.
  unfold _update.
  destruct (next_update self) as [[]|] eqn:Enu; try discriminate;
    unfold update_initialize, finalize, choose_step, update_expansion,
      update_contraction, update_inside_contraction, update_shrink,
      update_method; intros H;
    repeat match type of H with
      | match ?e with Some _ => _ | None => None end = Some _ =>
          let E := fresh "E" in destruct e eqn:E; [|discriminate H]
      | (let '(_, _) := ?p in _) = Some _ => destruct p
      | (if ?e then _ else _) = Some _ => destruct e
      end;
    repeat match goal with
      | E : _update_last _ _ _ = Some _ |- _ =>
          apply update_last_inv in E;
          destruct E as (? & ? & ? & _ & _ & _ & _ & ->)
      end;
    try (injection H as <-); fields; repeat split.
Qed.

(** X17.  No phase ever changes the tolerances, the iteration cap, the
    result key or the result mapping; a submit phase leaves the cached
    reflected point alone, and an update phase leaves the iteration count
    and the finished flag alone. *)
Theorem parameters_never_change (argsort : Np.vec -> list nat) (self : NelderMead) :
  (forall self' ins,
     _create_inputs argsort self = Some (self', ins) ->
     xtol self' = xtol self /\ ftol self' = ftol self
     /\ max_iter self' = max_iter self /\ result_key self' = result_key self
     /\ _result_mapping self' = _result_mapping self
     /\ extra_points self' = extra_points self)
  /\ (forall outs self',
        _update self outs = Some self' ->
        xtol self' = xtol self /\ ftol self' = ftol self
        /\ max_iter self' = max_iter self /\ result_key self' = result_key self
        /\ _result_mapping self' = _result_mapping self
        /\ num_iter self' = num_iter self /\ finished self' = finished self).
Proof.
  split.
  - intros self' ins. apply create_inputs_frame.
  - intros outs self'. apply update_frame.
Qed.

(** X18.  The iteration count grows by one exactly when a submit phase emits
    a reflected point, that is when new-iteration finds the simplex not
    converged and hands over to choose-step; every other submit phase,
    new-iteration on a converged simplex included, leaves it as it is. *)
Theorem num_iter_counts_reflections
    (argsort : Np.vec -> list nat) (self self' : NelderMead) (ins : list input) :
  _create_inputs argsort self = Some (self', ins) ->
  (next_update self' = Some Choose_step
   /\ num_iter self' = (num_iter self + 1)%Z
   /\ finished self' = false
   /\ exists xr, ins = [_to_input_list xr])
  \/ (next_update self' <> Some Choose_step
      /\ num_iter self' = num_iter self).
Proof.
  unfold _create_inputs.
  destruct (next_submit self) as [[]|] eqn:Ens; try discriminate; intros H.
  2:{ apply new_iter_outcome in H.
      destruct H as (f & f' & m & b & _ & _ & _ & _ & _ & Hb & _ & _ & _ & _ & _ & _ & _ & H).
      destruct b.
      - right. destruct H as (-> & _ & Hn). split; [discriminate|exact Hn].
      - left. destruct H as (Hu & Hn & worst & _ & ->).
        repeat split; auto. eexists. reflexivity. }
  all: right;
    unfold submit_initialize, submit_expansion, submit_contraction,
      submit_inside_contraction, submit_shrink, submit_method in H;
    open_option H; injection H as <- <-; fields;
    split; [discriminate|reflexivity].
Qed.

Lemma num_iter_counts_reflections_witness :
  exists self' ins,
    _create_inputs argsort_insertion quad2 = Some (self', ins)
    /\ ((next_update self' = Some Choose_step
         /\ num_iter self' = (num_iter quad2 + 1)%Z
         /\ finished self' = false
         /\ exists xr, ins = [_to_input_list xr])
        \/ (next_update self' <> Some Choose_step
            /\ num_iter self' = num_iter quad2)).
Proof.
  eexists. eexists.
  assert (H : _create_inputs argsort_insertion quad2 = Some (?[s], ?[ins]))
    by reflexivity.
  split; [exact H|].
  exact (num_iter_counts_reflections argsort_insertion quad2 _ _ H).
Defined.

(** ** The batches that the submit phases emit *)

Lemma last_opt_split {A : Type} (l : list A) (a : A) :
  Np.last_opt l = Some a -> l = Np.but_last l ++ [a].
Proof.
  intros H. destruct (exists_last (l := l)) as (l' & a' & ->).
  { intros ->. discriminate H. }
  rewrite last_opt_app in H. injection H as ->.
  rewrite but_last_app. reflexivity.
Qed.

Lemma trial_point_length (g : float -> float -> float) (a b : float)
    (s : NelderMead) (n : nat) (worst : Np.vec) :
  Forall (fun r => length r = n) (simplex s) ->
  Np.last_opt (simplex s) = Some worst ->
  length (Np.map2 g (Np.scale a (xbar s)) (Np.scale b worst)) = n.
Proof.
  intros Hrows Hw.
  pose proof (last_opt_split _ _ Hw) as Hs.
  assert (Hn : length worst = n).
  { rewrite Forall_forall in Hrows. apply Hrows, last_opt_In, Hw. }
  assert (Hv : Forall (fun r => length r = length worst) (Np.but_last (simplex s))).
  { rewrite Hn. rewrite Hs in Hrows. apply Forall_app in Hrows. apply Hrows. }
  destruct (xbar_nth s _ worst Hs Hv) as [Hl _].
  destruct (combination_nth g a b _ worst Hl) as [Hl' _].
  rewrite Hl'. exact Hn.
Qed.

(** X19.  Every point that a submit phase emits has as many coordinates as
    the vertices of the simplex (and the vertices keep that number), and the
    size of the batch is fixed by the phase: all the vertices at
    initialisation, all the vertices but the first after a shrink, nothing
    when new-iteration finds the run converged, and a single point
    otherwise. *)
Theorem batch_sizes
    (argsort : Np.vec -> list nat) (self self' : NelderMead) (ins : list input)
    (n : nat) :
  Forall (fun r => length r = n) (simplex self) ->
  _create_inputs argsort self = Some (self', ins) ->
  Forall (fun i => exists x, i = _to_input_list x /\ length x = n) ins
  /\ Forall (fun r => length r = n) (simplex self')
  /\ length ins = match next_update self' with
                  | Some Update_initialize => length (simplex self)
                  | Some Update_shrink => (length (simplex self) - 1)%nat
                  | Some Finalize => 0%nat
                  | _ => 1%nat
                  end.
Proof.
  intros Hrows. unfold _create_inputs.
  destruct (next_submit self) as [[]|] eqn:Ens; try discriminate; intros H.
  - unfold submit_initialize, submit_method in H. injection H as <- <-. fields.
    split; [|split; [exact Hrows|apply length_map]].
    rewrite Forall_forall in *. intros i Hi.
    apply in_map_iff in Hi. destruct Hi as (x & <- & Hx).
    exists x. split; [reflexivity|apply Hrows, Hx].
  - apply new_iter_outcome in H.
    destruct H as (f & f' & m & b & _ & _ & Hm & Hs & _ & _ & _ & _ & _ & _ & _ & _ & _ & H).
    assert (Hrows' : Forall (fun r => length r = n) (simplex self')).
    { rewrite Hs. rewrite Forall_forall in *. intros r Hr.
      apply Hrows. exact (take_In _ _ _ _ Hm Hr). }
    destruct b.
    + destruct H as (-> & -> & _). repeat split; [constructor|exact Hrows'].
    + destruct H as (-> & _ & worst & Hw & ->).
      split; [|split; [exact Hrows'|reflexivity]].
      constructor; [|constructor]. eexists. split; [reflexivity|].
      rewrite <- Hs in Hw. apply (trial_point_length sub _ _ _ _ _ Hrows' Hw).
  - unfold submit_expansion, submit_method in H. open_option H.
    injection H as <- <-. fields.
    split; [|split; [exact Hrows|reflexivity]].
    constructor; [|constructor]. eexists. split; [reflexivity|].
    apply (trial_point_length sub); assumption.
  - unfold submit_contraction, submit_method in H. open_option H.
    injection H as <- <-. fields.
    split; [|split; [exact Hrows|reflexivity]].
    constructor; [|constructor]. eexists. split; [reflexivity|].
    apply (trial_point_length sub); assumption.
  - unfold submit_inside_contraction, submit_method in H. open_option H.
    injection H as <- <-. fields.
    split; [|split; [exact Hrows|reflexivity]].
    constructor; [|constructor]. eexists. split; [reflexivity|].
    apply (trial_point_length add); assumption.
  - unfold submit_shrink, submit_method in H. open_option H.
    injection H as <- <-. fields. cbn [tl].
    destruct (simplex self) as [|best others]; [discriminate|].
    cbn [hd_error tl] in *. injection E as <-.
    inversion Hrows as [|? ? Hbest Hothers]; subst.
    assert (Hshrunk :
              Forall (fun r => length r = length best)
                (map (fun r => Np.vadd best (Np.scale SIGMA (Np.vsub r best)))
                     others)).
    { rewrite Forall_forall in *. intros r Hr.
      apply in_map_iff in Hr. destruct Hr as (r0 & <- & Hr0).
      apply shrunk_row_length, Hothers, Hr0. }
    split; [|split].
    + rewrite Forall_forall in *. intros i Hi.
      apply in_map_iff in Hi. destruct Hi as (x & <- & Hx).
      exists x. split; [reflexivity|apply Hshrunk, Hx].
    + constructor; [reflexivity|exact Hshrunk].
    + rewrite !length_map. cbn [length]. lia.
Qed.

Lemma batch_sizes_witness :
  exists self' ins,
    _create_inputs argsort_insertion quad2 = Some (self', ins)
    /\ Forall (fun i => exists x, i = _to_input_list x /\ length x = 1%nat) ins
    /\ Forall (fun r => length r = 1%nat) (simplex self')
    /\ length ins = match next_update self' with
                    | Some Update_initialize => length (simplex quad2)
                    | Some Update_shrink => (length (simplex quad2) - 1)%nat
                    | Some Finalize => 0%nat
                    | _ => 1%nat
                    end.
Proof.
  eexists. eexists.
  assert (H : _create_inputs argsort_insertion quad2 = Some (?[s], ?[ins]))
    by reflexivity.
  split; [exact H|].
  apply (batch_sizes argsort_insertion quad2 _ _ 1 ltac:(repeat constructor) H).
Defined.

(** ** The end of a run *)

Lemma create_inputs_finished
    (argsort : Np.vec -> list nat) (self s : NelderMead) (xs : list input) :
  _create_inputs argsort self = Some (s, xs) ->
  finished s = true ->
  next_update s = Some Finalize \/ finished self = true.
Proof.
  unfold _create_inputs.
  destruct (next_submit self) as [[]|] eqn:Ens; try discriminate; intros H Hfin.
  2:{ apply new_iter_outcome in H.
      destruct H as (f & f' & m & b & _ & _ & _ & _ & _ & Hb & _ & _ & _ & _ & _ & _ & _ & H).
      rewrite Hfin in Hb. subst b. left. apply H. }
  all: right;
    unfold submit_initialize, submit_expansion, submit_contraction,
      submit_inside_contraction, submit_shrink, submit_method in H;
    open_option H; injection H as <- <-; fields; exact Hfin.
Qed.

(** In a run, the finished flag is up only once new-iteration has found
    the simplex converged: finalize is then pending, or has run. *)
Lemma finished_invariant
    (argsort : Np.vec -> list nat) (ok : float -> Prop) (self : NelderMead) :
  reachable argsort ok self ->
  finished self = true ->
  next_submit self = None
  /\ (next_update self = Some Finalize \/ next_update self = None).
Proof.
  induction 1 as [kw self Hfresh Hinit
                 |self self' keys ins _ IH _ _ Hcreate
                 |self self' outs _ IH _ Hupdate]; intros Hfin.
  - destruct (fresh_init kw self Hfresh Hinit) as (_ & _ & _ & _ & _ & _ & Hf & _).
    congruence.
  - apply create_inputs_inv in Hcreate.
    destruct Hcreate as (s & xs & Hs & _ & _ & ->). fields.
    destruct (create_inputs_pointers _ _ _ _ Hs) as (Hns & _).
    split; [exact Hns|].
    destruct (create_inputs_finished _ _ _ _ Hs Hfin) as [Hu|Hself]; [left; exact Hu|].
    destruct (IH Hself) as [Hnone _].
    unfold _create_inputs in Hs. rewrite Hnone in Hs. discriminate.
  - unfold update in Hupdate.
    destruct (update_pointers _ _ _ Hupdate) as (Hnu & Hf & _ & Hfinal).
    fields. rewrite Hfin in Hf.
    destruct (IH (eq_sym Hf)) as [_ [Hu|Hu]].
    + split; [exact (Hfinal Hu)|right; exact Hnu].
    + unfold _update in Hupdate. fields. rewrite Hu in Hupdate. discriminate.
Qed.

(** X20.  Once the engine of a run reports [is_finished], it emits no
    further batch: [_create_inputs] raises.  The only call it still takes
    is the update that runs finalize, which accepts any batch, changes
    neither the simplex nor its values, and leaves both pointers cleared and
    the engine finished; after that [_update] raises as well. *)
Theorem finished_engine_stops
    (argsort : Np.vec -> list nat) (ok : float -> Prop) (self : NelderMead) :
  reachable argsort ok self ->
  is_finished self = true ->
  _create_inputs argsort self = None
  /\ (forall outs self',
        _update self outs = Some self' ->
        is_finished self' = true
        /\ next_submit self' = None /\ next_update self' = None
        /\ simplex self' = simplex self
        /\ fun_simplex self' = fun_simplex self
        /\ _create_inputs argsort self' = None
        /\ forall outs', _update self' outs' = None).
Proof.
  intros Hreach Hfin. unfold is_finished in *.
  destruct (finished_invariant _ _ _ Hreach Hfin) as [Hns Hnu].
  split.
  - unfold _create_inputs. rewrite Hns. reflexivity.
  - intros outs self'. unfold _update at 1.
    destruct Hnu as [Hnu|Hnu]; rewrite Hnu; [|discriminate].
    unfold finalize, update_method. intros H. injection H as <-. fields.
    auto 10.
Qed.

Lemma finished_engine_stops_witness :
  _create_inputs argsort_insertion flat3 = None
  /\ (forall outs self',
        _update flat3 outs = Some self' ->
        is_finished self' = true
        /\ next_submit self' = None /\ next_update self' = None
        /\ simplex self' = simplex flat3
        /\ fun_simplex self' = fun_simplex flat3
        /\ _create_inputs argsort_insertion self' = None
        /\ forall outs', _update self' outs' = None).
Proof.
  apply (finished_engine_stops argsort_insertion (fun _ => True) flat3).
  - apply flat3_reachable. exact I.
  - reflexivity.
Defined.

(** ** The shape of the simplex and the best cost along a run *)

(** X21.  In every state of a run the simplex has [n + 1] vertices of [n]
    coordinates, and from the moment the first batch has been read there is
    exactly one function value per vertex. *)
Theorem run_keeps_shape
    (argsort : Np.vec -> list nat) (ok : float -> Prop) (self : NelderMead) :
  argsort_spec argsort ->
  reachable argsort ok self ->
  exists n,
    shape n (simplex self)
    /\ (next_submit self <> Some Submit_initialize ->
        next_update self <> Some Update_initialize ->
        exists f, fun_simplex self = Some f /\ length f = (n + 1)%nat).
Proof.
  intros Hspec Hreach.
  destruct (shape_invariant_reachable _ _ _ Hspec Hreach) as [[n Hn] Hf].
  exists n. split; [exact Hn|]. intros Hs Hu.
  assert (H : exists f, fun_simplex self = Some f
                        /\ length f = length (simplex self)).
  { destruct (next_submit self) as [[]|]; try congruence;
      destruct (next_update self) as [[]|]; try congruence; exact Hf. }
  destruct H as (f & Ef & Hl). exists f. split; [exact Ef|].
  rewrite Hl. apply Hn.
Qed.

Lemma run_keeps_shape_witness :
  exists n,
    shape n (simplex flat3)
    /\ (next_submit flat3 <> Some Submit_initialize ->
        next_update flat3 <> Some Update_initialize ->
        exists f, fun_simplex flat3 = Some f /\ length f = (n + 1)%nat).
Proof.
  apply (run_keeps_shape argsort_insertion (fun _ => True) flat3).
  - exact argsort_insertion_spec.
  - apply flat3_reachable. exact I.
Defined.

(** X22.  The engine never loses the best cost it has seen.  In every state
    of a run whose costs are numbers (no NaN), each cost returned so far is
    matched by a function value of the simplex that is not above it, or,
    while an expansion is being tried, by the cached cost of the reflected
    point. *)
Theorem best_cost_retained
    (argsort : Np.vec -> list nat) (self : NelderMead) (f : Np.vec) (c : float) :
  argsort_spec argsort ->
  reachable argsort (fun c => is_nan c = false) self ->
  fun_simplex self = Some f ->
  delivered self c ->
  (exists x, In x f /\ (x <=? c) = true)
  \/ (exists xr fxr,
        dict_get (extra_points self) "xr" = Some (xr, fxr)
        /\ delivered self fxr /\ (fxr <=? c) = true).
Proof.
  intros Hspec Hreach Hf Hc.
  destruct (min_invariant_reachable _ _ Hspec Hreach)
    as (_ & _ & Hextra & st & _ & Hst).
  destruct st; cbn [stage_inv] in Hst.
  - destruct Hst as [Hnone _]. destruct (Hnone c Hc).
  - destruct Hst as [Hnone _]. destruct (Hnone c Hc).
  - destruct Hst as (_ & f1 & Ef & _ & Hcover). left.
    rewrite Hf in Ef. injection Ef as <-. apply Hcover, Hc.
  - destruct Hst as (_ & f1 & f0 & Ef & _ & Hhd & _ & Hlb). left.
    rewrite Hf in Ef. injection Ef as <-.
    exists f0. split; [apply hd_error_In, Hhd|apply Hlb, Hc].
  - destruct Hst as (_ & f1 & xr & fxr & _ & _ & _ & Hxr & Hlb). right.
    exists xr, fxr. split; [exact Hxr|].
    split; [apply (Hextra xr fxr Hxr)|apply Hlb, Hc].
  - destruct Hst as (_ & f1 & f0 & Ef & _ & Hhd & _ & Hlb). left.
    rewrite Hf in Ef. injection Ef as <-.
    exists f0. split; [apply hd_error_In, Hhd|apply Hlb, Hc].
  - destruct Hst as (f1 & f0 & Ef & _ & Hhd & _ & Hlb). left.
    rewrite Hf in Ef. injection Ef as <-.
    exists f0. split; [apply hd_error_In, Hhd|apply Hlb, Hc].
Qed.

Lemma best_cost_retained_witness :
  (exists x, In x [1; 1] /\ (x <=? 1) = true)
  \/ (exists xr fxr,
        dict_get (extra_points flat3) "xr" = Some (xr, fxr)
        /\ delivered flat3 fxr /\ (fxr <=? 1) = true).
Proof.
  apply (best_cost_retained argsort_insertion flat3 [1; 1] 1).
  - exact argsort_insertion_spec.
  - apply flat3_reachable. reflexivity.
  - reflexivity.
  - eexists. eexists. split; [left; reflexivity|reflexivity].
Defined.

(** ** The first vertex between two sorts *)

Lemma update_keeps_head
    (self self' : NelderMead) (outs : outputs)
    (best : Np.vec) (others : Np.matrix) (f0 : float) (rest : Np.vec) :
  simplex self = best :: others ->
  others <> [] ->
  fun_simplex self = Some (f0 :: rest) ->
  rest <> [] ->
  _update self outs = Some self' ->
  next_update self <> Some Update_initialize ->
  exists others' rest',
    simplex self' = best :: others' /\ others' <> []
    /\ fun_simplex self' = Some (f0 :: rest') /\ rest' <> [].
Proof.
  intros Hs Ho Hf Hr.
  destruct others as [|o others]; [congruence|].
  destruct rest as [|r rest]; [congruence|].
  unfold _update.
  destruct (next_update self) as [[]|] eqn:Enu; try discriminate;
    try congruence;
    unfold finalize, choose_step, update_expansion,
      update_contraction, update_inside_contraction, update_shrink,
      update_method; intros H _;
    repeat match type of H with
      | match ?e with Some _ => _ | None => None end = Some _ =>
          let E := fresh "E" in destruct e eqn:E; [|discriminate H]
      | (let '(_, _) := ?p in _) = Some _ => destruct p
      | (if ?e then _ else _) = Some _ => destruct e
      end;
    repeat match goal with
      | E : _update_last _ _ _ = Some _ |- _ =>
          apply update_last_inv in E;
          let Hfs := fresh "Hfs" in
          destruct E as (? & ? & ? & _ & _ & Hfs & _ & ->);
          fields_in Hfs; rewrite Hf in Hfs; injection Hfs as <-
      | E : set_tail _ _ = Some _ |- _ =>
          unfold set_tail in E; open_option E; injection E as <-
      | E : Np.broadcast_to _ _ = Some _ |- _ =>
          apply broadcast_to_length in E
      | E : fun_simplex _ = Some _ |- _ =>
          fields_in E; rewrite Hf in E; injection E as <-
      end;
    try (injection H as <-); fields; rewrite ?Hs, ?Hf; cbn;
    eexists; eexists;
    (split; [reflexivity|split; [|split; [reflexivity|]]]);
    try discriminate;
    try (intros Hnil; apply (f_equal (@length _)) in Hnil;
         rewrite ?length_app in Hnil; cbn in *; lia).
Qed.

Lemma submit_keeps_head
    (argsort : Np.vec -> list nat) (self self' : NelderMead) (ins : list input)
    (best : Np.vec) (others : Np.matrix) (f0 : float) (rest : Np.vec) :
  simplex self = best :: others ->
  others <> [] ->
  fun_simplex self = Some (f0 :: rest) ->
  rest <> [] ->
  _create_inputs argsort self = Some (self', ins) ->
  next_submit self <> Some New_iter ->
  exists others' rest',
    simplex self' = best :: others' /\ others' <> []
    /\ fun_simplex self' = Some (f0 :: rest') /\ rest' <> [].
Proof.
  intros Hs Ho Hf Hr.
  destruct others as [|o others]; [congruence|].
  destruct rest as [|r rest]; [congruence|].
  unfold _create_inputs.
  destruct (next_submit self) as [[]|] eqn:Ens; try discriminate;
    try congruence; intros H _;
    unfold submit_initialize, submit_expansion, submit_contraction,
      submit_inside_contraction, submit_shrink, submit_method in H;
    fields_in H; rewrite ?Hs, ?Hf in H; cbn [hd_error tl] in H;
    open_option H; fields_in H; rewrite ?Hf in H;
    injection H as <- <-; fields; rewrite ?Hs, ?Hf; cbn;
    eexists; eexists;
    (split; [reflexivity|split; [|split; [reflexivity|]]]); discriminate.
Qed.

(** X23.  The first vertex and its function value are only ever replaced by
    the sort step: on a simplex of two vertices or more, every update phase
    but update-initialize and every submit phase but new-iteration leave the
    first vertex and the first function value as they are. *)
Theorem best_vertex_kept_between_sorts
    (argsort : Np.vec -> list nat) (self : NelderMead)
    (best : Np.vec) (others : Np.matrix) (f0 : float) (rest : Np.vec) :
  simplex self = best :: others ->
  others <> [] ->
  fun_simplex self = Some (f0 :: rest) ->
  rest <> [] ->
  (forall outs self',
     _update self outs = Some self' ->
     next_update self <> Some Update_initialize ->
     hd_error (simplex self') = Some best
     /\ exists rest', fun_simplex self' = Some (f0 :: rest'))
  /\ (forall self' ins,
        _create_inputs argsort self = Some (self', ins) ->
        next_submit self <> Some New_iter ->
        hd_error (simplex self') = Some best
        /\ exists rest', fun_simplex self' = Some (f0 :: rest')).
Proof.
  intros Hs Ho Hf Hr. split.
  - intros outs self' H Hn.
    destruct (update_keeps_head _ _ _ _ _ _ _ Hs Ho Hf Hr H Hn)
      as (others' & rest' & Hs' & _ & Hf' & _).
    rewrite Hs'. split; [reflexivity|]. exists rest'. exact Hf'.
  - intros self' ins H Hn.
    destruct (submit_keeps_head _ _ _ _ _ _ _ _ Hs Ho Hf Hr H Hn)
      as (others' & rest' & Hs' & _ & Hf' & _).
    rewrite Hs'. split; [reflexivity|]. exists rest'. exact Hf'.
Qed.

Lemma best_vertex_kept_between_sorts_witness :
  (forall outs self',
     _update triangle outs = Some self' ->
     next_update triangle <> Some Update_initialize ->
     hd_error (simplex self') = Some [0; 0]
     /\ exists rest', fun_simplex self' = Some (1 :: rest'))
  /\ (forall self' ins,
        _create_inputs argsort_insertion triangle = Some (self', ins) ->
        next_submit triangle <> Some New_iter ->
        hd_error (simplex self') = Some [0; 0]
        /\ exists rest', fun_simplex self' = Some (1 :: rest')).
Proof.
  apply (best_vertex_kept_between_sorts argsort_insertion triangle
           [0; 0] [[1; 0]; [0; 1]] 1 [2; 3]);
    try reflexivity; discriminate.
Defined.

Lemma np_le_refl (a : float) : np_le a a.
Proof.
  unfold np_le, Np.lt.
  destruct (a <? a) eqn:E.
  - pose proof (FloatOrder.ltb_leb _ _ E) as H.
    rewrite (FloatOrder.ltb_not_leb _ _ E) in H. discriminate.
  - destruct (is_nan a); reflexivity.
Qed.

Lemma sorted_head_least (f f' : Np.vec) (idx : list nat) (x : float) :
  sorts f idx -> Np.take f idx = Some f' -> In x f ->
  exists f0' rest', f' = f0' :: rest' /\ np_le f0' x.
Proof.
  intros Hsorts Htake Hx.
  pose proof (take_map _ _ _ Htake) as ->.
  assert (Hin : In x (map (fun i => nth i f 0) idx)).
  { destruct (In_nth _ _ 0 Hx) as (i & Hi & <-).
    apply in_map_iff. exists i. split; [reflexivity|].
    apply (sorts_In _ _ _ Hsorts Hi). }
  pose proof (sorted_values f idx (proj2 Hsorts)) as Hsorted.
  destruct (map (fun i => nth i f 0) idx) as [|f0' rest']; [destruct Hin|].
  exists f0', rest'. split; [reflexivity|].
  destruct Hin as [<-|Hin]; [apply np_le_refl|].
  inversion Hsorted as [|? ? _ Hall]; subst.
  rewrite Forall_forall in Hall. apply Hall, Hin.
Qed.

Lemma between_sorts_keeps_head
    (argsort : Np.vec -> list nat) (s s1 : NelderMead)
    (best : Np.vec) (others : Np.matrix) (f0 : float) (rest : Np.vec) :
  simplex s = best :: others ->
  others <> [] ->
  fun_simplex s = Some (f0 :: rest) ->
  rest <> [] ->
  between_sorts argsort s s1 ->
  exists others' rest',
    simplex s1 = best :: others' /\ others' <> []
    /\ fun_simplex s1 = Some (f0 :: rest') /\ rest' <> [].
Proof.
  intros Hs Ho Hf Hr.
  induction 1 as [|s1 s2 outs _ IH Hn Hu|s1 s2 ins _ IH Hn Hc|s1 rm _ IH].
  - exists others, rest. auto.
  - destruct IH as (others' & rest' & Hs' & Ho' & Hf' & Hr').
    apply (update_keeps_head _ _ _ _ _ _ _ Hs' Ho' Hf' Hr' Hu Hn).
  - destruct IH as (others' & rest' & Hs' & Ho' & Hf' & Hr').
    apply (submit_keeps_head _ _ _ _ _ _ _ _ Hs' Ho' Hf' Hr' Hc Hn).
  - exact IH.
Qed.

(** X24.  The best function value never gets worse from one sort to the
    next.  Start from any state with first function value [f0] on a simplex
    of two vertices or more, run any update phases but update-initialize and
    any submit phases but new-iteration, and sort: the first function value
    after the sort is not above [f0] when [f0] is a number. *)
Theorem best_value_never_increases
    (argsort : Np.vec -> list nat) (s s1 s2 : NelderMead)
    (best : Np.vec) (others : Np.matrix) (f0 : float) (rest : Np.vec) :
  argsort_spec argsort ->
  simplex s = best :: others ->
  others <> [] ->
  fun_simplex s = Some (f0 :: rest) ->
  rest <> [] ->
  between_sorts argsort s s1 ->
  do_sort argsort s1 = Some s2 ->
  exists f0' rest',
    fun_simplex s2 = Some (f0' :: rest')
    /\ (is_nan f0 = false -> (f0' <=? f0) = true).
Proof.
  intros Hspec Hs Ho Hf Hr Hsteps Hsort.
  destruct (between_sorts_keeps_head _ _ _ _ _ _ _ Hs Ho Hf Hr Hsteps)
    as (others' & rest' & _ & _ & Hf1 & _).
  apply do_sort_inv in Hsort.
  destruct Hsort as (f & f' & m & Ef & Hf' & _ & ->). fields.
  rewrite Hf1 in Ef. injection Ef as <-.
  destruct (sorted_head_least _ _ _ f0 (Hspec _) Hf') as (f0' & rest'' & -> & Hle);
    [left; reflexivity|].
  exists f0', rest''. split; [reflexivity|].
  intros Hn. apply np_le_cases in Hle. destruct Hle as [Hle|Hle]; [congruence|exact Hle].
Qed.

Lemma best_value_never_increases_witness :
  exists f0' rest',
    fun_simplex triangle_sorted = Some (f0' :: rest')
    /\ (is_nan 1 = false -> (f0' <=? 1) = true).
Proof.
  apply (best_value_never_increases argsort_insertion triangle
           triangle_reflected triangle_sorted [0; 0] [[1; 0]; [0; 1]] 1 [2; 3]).
  - exact argsort_insertion_spec.
  - reflexivity.
  - discriminate.
  - reflexivity.
  - discriminate.
  - apply (between_update _ _ triangle _ [(7%Z, cost 1.5)]).
    + apply between_refl.
    + discriminate.
    + reflexivity.
  - reflexivity.
Defined.

(** ** Reading a batch of results *)

Lemma mapM_none_inv {A B : Type} (g : A -> option B) (l : list A) :
  mapM g l = None -> exists a, In a l /\ g a = None.
Proof.
  induction l as [|x l IH]; cbn; [discriminate|].
  destruct (g x) eqn:Ex.
  - destruct (mapM g l); [discriminate|].
    intros _. destruct (IH eq_refl) as (a & Ha & Ea). exists a. auto.
  - intros _. exists x. auto.
Qed.

Lemma sorted_distinct_keys {V : Type} (l : list (Z * V)) :
  StronglySorted key_le l -> NoDup (map fst l) -> StronglySorted key_lt l.
Proof.
  induction 1 as [|a l _ IH Hall]; intros Hnd; [constructor|].
  cbn in Hnd. inversion Hnd as [|? ? Hnotin Hnd']; subst.
  constructor; [apply IH, Hnd'|].
  rewrite Forall_forall in *. intros x Hx.
  pose proof (Hall x Hx) as Hle. unfold key_le in Hle. unfold key_lt.
  assert (fst a <> fst x) by (intros E; apply Hnotin; rewrite E; apply in_map, Hx).
  lia.
Qed.

Lemma sorted_items_unique {V : Type} (d d' : dict Z V) :
  NoDup (map fst d) -> Permutation d d' -> sorted_items d' = sorted_items d.
Proof.
  intros Hnd Hp.
  apply (sorted_perm_unique key_le key_lt).
  - unfold key_le, key_lt. intros; lia.
  - rewrite !sorted_items_perm. apply Permutation_sym, Hp.
  - apply sorted_items_sorted.
  - apply sorted_distinct_keys; [apply sorted_items_sorted|].
    apply (Permutation_NoDup (l := map fst d)); [|exact Hnd].
    apply Permutation_map, Permutation_sym, sorted_items_perm.
Qed.

(** X25.  The values that [_get_values] reads from a batch depend on its
    identifiers only, not on the order in which the dictionary holds its
    items; there is one value per result; and the call raises exactly when
    some result of the batch has no entry under the result key. *)
Theorem get_values_by_identifier (self : NelderMead) (outs : outputs) :
  NoDup (map fst outs) ->
  (forall outs', Permutation outs outs' ->
                 _get_values self outs' = _get_values self outs)
  /\ (forall values, _get_values self outs = Some values ->
                     length values = length outs)
  /\ (_get_values self outs = None <->
      exists k res, In (k, res) outs /\ dict_get res (result_key self) = None).
Proof.
  intros Hnd. split; [|split].
  - intros outs' Hp. unfold _get_values.
    rewrite (sorted_items_unique outs outs' Hnd Hp). reflexivity.
  - apply get_values_length.
  - unfold _get_values. split.
    + intros H. apply mapM_none_inv in H. destruct H as ([k res] & Hin & E).
      exists k, res. split; [|exact E].
      apply (Permutation_in _ (sorted_items_perm outs) Hin).
    + intros (k & res & Hin & E).
      apply (mapM_none _ _ (k, res)); [|exact E].
      apply (Permutation_in _ (Permutation_sym (sorted_items_perm outs)) Hin).
Qed.

Lemma get_values_by_identifier_witness :
  (forall outs', Permutation quad_outputs outs' ->
                 _get_values quad1 outs' = _get_values quad1 quad_outputs)
  /\ (forall values, _get_values quad1 quad_outputs = Some values ->
                     length values = length quad_outputs)
  /\ (_get_values quad1 quad_outputs = None <->
      exists k res, In (k, res) quad_outputs
                    /\ dict_get res (result_key quad1) = None).
Proof.
  apply (get_values_by_identifier quad1 quad_outputs).
  repeat constructor; cbn; intuition discriminate.
Defined.

(** ** Replacing the worst vertex *)

(** X26.  [_update_last] checks the number of coordinates of the point it is
    given against the worst vertex: a point of the same length replaces the
    worst vertex; a point of a single coordinate is accepted as well and
    that coordinate is copied to every coordinate of the vertex; a point of
    any other length raises. *)
Theorem update_last_shape_check
    (self : NelderMead) (x w : Np.vec) (c : float) (f : Np.vec) (f_worst : float) :
  Np.last_opt (simplex self) = Some w ->
  fun_simplex self = Some f ->
  Np.last_opt f = Some f_worst ->
  (length x = length w ->
   _update_last self x c
   = Some (set_fun_simplex
             (set_simplex self (Np.but_last (simplex self) ++ [x]))
             (Some (Np.but_last f ++ [c]))))
  /\ (forall v, x = [v] ->
      _update_last self x c
      = Some (set_fun_simplex
                (set_simplex self
                   (Np.but_last (simplex self) ++ [repeat v (length w)]))
                (Some (Np.but_last f ++ [c]))))
  /\ (length x <> length w -> length x <> 1%nat ->
      _update_last self x c = None).
Proof.
  intros Hw Hf Hworst. unfold _update_last, Np.set_last_row.
  rewrite Hw, Hf, (last_opt_some_set_last _ _ c Hworst).
  unfold Np.broadcast_to. split; [|split].
  - intros Hl. apply Nat.eqb_eq in Hl. rewrite Hl.
    rewrite (last_opt_some_set_last _ _ x Hw). reflexivity.
  - intros v ->. cbn [length].
    destruct (Nat.eqb_spec 1 (length w)) as [E|E].
    + rewrite <- E. cbn [repeat].
      destruct (simplex self); [discriminate Hw|reflexivity].
    + destruct (simplex self); [discriminate Hw|reflexivity].
  - intros Hl H1. apply Nat.eqb_neq in Hl. rewrite Hl.
    destruct x as [|v [|]]; cbn in H1; try reflexivity. lia.
Qed.

Lemma update_last_shape_check_witness :
  (length [5] = length [0; 1] ->
   _update_last triangle [5] 1.5
   = Some (set_fun_simplex
             (set_simplex triangle (Np.but_last (simplex triangle) ++ [[5]]))
             (Some (Np.but_last [1; 2; 3] ++ [1.5]))))
  /\ (forall v, [5] = [v] ->
      _update_last triangle [5] 1.5
      = Some (set_fun_simplex
                (set_simplex triangle
                   (Np.but_last (simplex triangle) ++ [repeat v (length [0; 1])]))
                (Some (Np.but_last [1; 2; 3] ++ [1.5]))))
  /\ (length [5] <> length [0; 1] -> length [5] <> 1%nat ->
      _update_last triangle [5] 1.5 = None).
Proof.
  apply (update_last_shape_check triangle [5] [0; 1] 1.5 [1; 2; 3] 3); reflexivity.
Defined.

(** ** Reading the best result in any state *)

Lemma fold_min_In (rest : list (Z * float)) (acc : Z * float) :
  fold_left min_step rest acc = acc \/ In (fold_left min_step rest acc) rest.
Proof.
  revert acc. induction rest as [|it rest IH]; intros acc; cbn; [left; reflexivity|].
  destruct (IH (min_step acc it)) as [E|Hin]; [|right; right; exact Hin].
  rewrite E. unfold min_step. destruct (snd it <? snd acc); auto.
Qed.

Lemma py_min_In (items : list (Z * float)) (it : Z * float) :
  py_min items = Some it -> In it items.
Proof.
  destruct items as [|it0 rest]; [discriminate|].
  unfold py_min. fold min_step. intros H. injection H as <-.
  destruct (fold_min_In rest it0) as [E|Hin]; [left; symmetry; exact E|right; exact Hin].
Qed.

Lemma optimal_result_In (self : NelderMead) (index : Z) (value : float) :
  _get_optimal_result self = Some (index, value) ->
  (exists r, In (index, r) (_result_mapping self)
             /\ cost_of (result_key self) r = Some value)
  /\ forall k r, In (k, r) (_result_mapping self) ->
                 exists c, cost_of (result_key self) r = Some c.
Proof.
  unfold _get_optimal_result. fold (entry_cost (result_key self)).
  change (mapM (fun kv : Z * Result => entry_cost (result_key self) kv)
               (_result_mapping self)) with
    (mapM (entry_cost (result_key self)) (_result_mapping self)).
  destruct (mapM _ _) as [cv|] eqn:Hcv; [|discriminate].
  intros H. apply py_min_In in H. split.
  - destruct (mapM_In _ _ _ _ Hcv H) as ([k r] & Hin & E).
    apply entry_cost_some in E. cbn in E. destruct E as [<- E].
    exists r. auto.
  - intros k r Hin.
    destruct (mapM_In_inv _ _ _ _ Hcv Hin) as (kc & _ & E).
    apply entry_cost_some in E. exists (snd kc). apply E.
Qed.

(** X27.  [result_index] returns exactly when the result mapping is not
    empty and every one of its entries has a cost under the result key: on
    an empty mapping, or while an evaluation is outstanding, it raises.
    What it returns is the identifier of an entry of the mapping. *)
Theorem result_index_needs_all_costs (self : NelderMead) :
  ((exists index, result_index self = Some index)
   <-> _result_mapping self <> []
       /\ forall k r, In (k, r) (_result_mapping self) ->
                      exists c, cost_of (result_key self) r = Some c)
  /\ forall index, result_index self = Some index ->
                   In index (map fst (_result_mapping self)).
Proof.
  unfold result_index. split; [split|].
  - intros [index H].
    destruct (_get_optimal_result self) as [[i v]|] eqn:E; [|discriminate].
    destruct (optimal_result_In _ _ _ E) as [(r & Hin & _) Hall].
    split; [|exact Hall]. intros Hnil. rewrite Hnil in Hin. destruct Hin.
  - intros [Hne Hall]. unfold _get_optimal_result.
    fold (entry_cost (result_key self)).
    destruct (mapM_total (entry_cost (result_key self)) (_result_mapping self))
      as (cv & Hcv & Hrel).
    { intros [k r] Hin. destruct (Hall k r Hin) as (c & Hc).
      exists (k, c). apply entry_cost_some. auto. }
    change (mapM (fun kv : Z * Result => entry_cost (result_key self) kv)
                 (_result_mapping self)) with
      (mapM (entry_cost (result_key self)) (_result_mapping self)).
    rewrite Hcv.
    destruct cv as [|[i v] cv].
    { inversion Hrel as [E|]. symmetry in E. contradiction. }
    cbn [py_min]. destruct (fold_left _ cv (i, v)) as [i' v'].
    exists i'. reflexivity.
  - intros index H.
    destruct (_get_optimal_result self) as [[i v]|] eqn:E; [|discriminate].
    injection H as <-.
    destruct (optimal_result_In _ _ _ E) as [(r & Hin & _) _].
    apply (in_map fst) in Hin. exact Hin.
Qed.

(** X28.  Whenever [result_value] returns, in any state, the value is a
    number (not a NaN), it compares equal to the first function value, and
    it is the cost of the entry of the result mapping that [result_index]
    names. *)
Theorem result_value_checked (self : NelderMead) (value : float) :
  result_value self = Some value ->
  is_nan value = false
  /\ (exists f f0,
        fun_simplex self = Some f /\ hd_error f = Some f0
        /\ (value =? f0) = true)
  /\ exists index r,
       result_index self = Some index
       /\ In (index, r) (_result_mapping self)
       /\ cost_of (result_key self) r = Some value.
Proof.
  unfold result_value, result_index. intros H.
  destruct (_get_optimal_result self) as [[i v]|] eqn:E; [|discriminate].
  destruct (fun_simplex self) as [f|]; [|discriminate].
  destruct (hd_error f) as [f0|] eqn:Ehd; [|discriminate].
  destruct (v =? f0) eqn:Eq; [|discriminate].
  injection H as <-. split; [|split].
  - apply (FloatOrder.leb_not_nan v f0), FloatOrder.eqb_leb, Eq.
  - exists f, f0. auto.
  - destruct (optimal_result_In _ _ _ E) as [(r & Hin & Hc) _].
    exists i, r. auto.
Qed.

Lemma result_value_checked_witness :
  is_nan 1 = false
  /\ (exists f f0,
        fun_simplex flat4 = Some f /\ hd_error f = Some f0
        /\ (1 =? f0) = true)
  /\ exists index r,
       result_index flat4 = Some index
       /\ In (index, r) (_result_mapping flat4)
       /\ cost_of (result_key flat4) r = Some 1.
Proof.
  apply (result_value_checked flat4 1). reflexivity.
Defined.

Lemma fold_min_nan (rest : list (Z * float)) (acc : Z * float) :
  is_nan (snd acc) = true -> fold_left min_step rest acc = acc.
Proof.
  intros Hn. induction rest as [|it rest IH]; cbn; [reflexivity|].
  unfold min_step at 2.
  destruct (snd it <? snd acc) eqn:E; [|exact IH].
  apply FloatOrder.ltb_not_nan in E. destruct E as [_ E]. congruence.
Qed.

(** X29.  A NaN hides every other cost: when the first entry of the result
    mapping has a NaN for its cost (and the other entries have costs),
    [result_index] names that first entry, whatever the other costs are, and
    [result_value] raises, its assertion failing on the NaN. *)
Theorem nan_first_hides_minimum
    (self : NelderMead) (k : Z) (r : Result) (c : float) (rest : ResultMapping) :
  _result_mapping self = (k, r) :: rest ->
  cost_of (result_key self) r = Some c ->
  is_nan c = true ->
  (forall k' r', In (k', r') rest ->
                 exists c', cost_of (result_key self) r' = Some c') ->
  _get_optimal_result self = Some (k, c)
  /\ result_index self = Some k
  /\ result_value self = None.
Proof.
  intros Hrm Hc Hn Hall.
  assert (E : _get_optimal_result self = Some (k, c)).
  { unfold _get_optimal_result. fold (entry_cost (result_key self)).
    change (mapM (fun kv : Z * Result => entry_cost (result_key self) kv)
                 (_result_mapping self)) with
      (mapM (entry_cost (result_key self)) (_result_mapping self)).
    rewrite Hrm. cbn [mapM].
    assert (E0 : entry_cost (result_key self) (k, r) = Some (k, c))
      by (apply entry_cost_some; auto).
    rewrite E0.
    destruct (mapM_total (entry_cost (result_key self)) rest) as (cv & Hcv & _).
    { intros [k' r'] Hin. destruct (Hall k' r' Hin) as (c' & Hc').
      exists (k', c'). apply entry_cost_some. auto. }
    rewrite Hcv. unfold py_min. fold min_step.
    rewrite fold_min_nan by exact Hn. reflexivity. }
  split; [exact E|]. unfold result_index, result_value. rewrite E.
  split; [reflexivity|].
  destruct (fun_simplex self) as [f|]; [|reflexivity].
  destruct (hd_error f) as [f0|]; [|reflexivity].
  destruct (c =? f0) eqn:Eq; [|reflexivity].
  apply FloatOrder.eqb_leb, FloatOrder.leb_not_nan in Eq. destruct Eq. congruence.
Qed.

Lemma nan_first_hides_minimum_witness :
  _get_optimal_result nan_first = Some (0%Z, nan)
  /\ result_index nan_first = Some 0%Z
  /\ result_value nan_first = None.
Proof.
  apply (nan_first_hides_minimum nan_first 0%Z
           {| Result_input := _to_input_list [0];
              Result_output := Some (cost nan) |}
           nan
           [(1%Z, {| Result_input := _to_input_list [0x1p-20];
                     Result_output := Some (cost 1) |})]).
  - reflexivity.
  - reflexivity.
  - reflexivity.
  - intros k' r' [H|[]]. injection H as <- <-. eexists. reflexivity.
Defined.
